(** * cherow: lexer, ASI, lookahead probes, pattern reinterpretation and
      scope tracking of [src/parser.ts], embedded in Rocq.

    The [Parser] class is one mutable object; it is embedded as the record
    [Parser] threaded through an error monad [M].  A JavaScript string is
    the list of its UTF-16 code units, a character code is a [num]
    ([None] is the [NaN] that [charCodeAt] returns out of range), bit masks
    are integers combined with [Z.land]/[Z.lor], and the scope maps are
    prototype-chained objects living in a small heap, so that two fields
    holding the same object stay aliased. *)

From Stdlib Require Import ZArith Lia Bool List String Ascii Floats.
From stdpp Require Import base option list strings gmap.

Local Open Scope Z_scope.

(** ** JavaScript strings and numbers *)

Abbreviation JSString := (list Z).
Abbreviation num := (option Z).

Definition NaN : num := None.

Fixpoint units (s : string) : JSString :=
  match s with
  | EmptyString => []
  | String a r => Z.of_N (N_of_ascii a) :: units r
  end.

Definition jslength (s : JSString) : Z := Z.of_nat (length s).

(** [s.charCodeAt(i)] *)
Definition charCodeAt (s : JSString) (i : Z) : num :=
  if i <? 0 then NaN else s !! Z.to_nat i.

(** [s.charAt(i)]: a [NaN] position counts as 0. *)
Definition charAt (s : JSString) (i : num) : JSString :=
  match charCodeAt s (default 0 i) with
  | Some c => [c]
  | None => []
  end.

(** Relative index of [slice]: negative counts from the end. *)
Definition sliceIndex (len i : Z) : Z :=
  if i <? 0 then Z.max (len + i) 0 else Z.min i len.

(** [s.slice(a, b)] *)
Definition slice (s : JSString) (a b : Z) : JSString :=
  let from := sliceIndex (jslength s) a in
  let to := sliceIndex (jslength s) b in
  take (Z.to_nat (to - from)) (drop (Z.to_nat from) s).

(** [s.substring(a, b)]: negative bounds are 0, and the bounds are swapped
    when out of order. *)
Definition substring (s : JSString) (a b : Z) : JSString :=
  let a' := Z.min (Z.max a 0) (jslength s) in
  let b' := Z.min (Z.max b 0) (jslength s) in
  take (Z.to_nat (Z.max a' b' - Z.min a' b')) (drop (Z.to_nat (Z.min a' b')) s).

(** [String.fromCharCode(c)] *)
Definition fromCharCode (c : Z) : JSString := [c mod 65536].

(** Comparisons of a character code with a constant; all are false on
    [NaN], as in JavaScript. *)
Definition eqn (c : num) (k : Z) : bool :=
  match c with Some x => x =? k | None => false end.
Definition ltn (c : num) (k : Z) : bool :=
  match c with Some x => x <? k | None => false end.
Definition leqn (c : num) (k : Z) : bool :=
  match c with Some x => x <=? k | None => false end.
Definition gtn (c : num) (k : Z) : bool :=
  match c with Some x => k <? x | None => false end.
Definition geqn (c : num) (k : Z) : bool :=
  match c with Some x => k <=? x | None => false end.

(** [a === b] on two character codes ([NaN] equals nothing). *)
Definition eqnn (a b : num) : bool :=
  match a, b with Some x, Some y => x =? y | _, _ => false end.

(** [switch] labels: is the code one of the listed constants *)
Definition oneOf (c : num) (ks : list Z) : bool := existsb (eqn c) ks.

(** 32-bit integer arithmetic of [<<], [|] and [&]. *)
Definition int32 (z : Z) : Z := (z + 2147483648) mod 4294967296 - 2147483648.
Definition shl32 (a n : Z) : Z := int32 (Z.shiftl (int32 a) (n mod 32)).
Definition or32 (a b : Z) : Z := Z.lor (int32 a) (int32 b).
Definition and32 (a b : Z) : Z := Z.land (int32 a) (int32 b).

(** A bit test [x & mask] used as a condition. *)
Definition has (x mask : Z) : bool := negb (Z.land x mask =? 0).
(** [x |= mask] and [x &= ~mask] *)
Definition setBits (x mask : Z) : Z := Z.lor x mask.
Definition clearBits (x mask : Z) : Z := Z.land x (Z.lnot mask).

(** A number held in [tokenValue] is an IEEE-754 double. *)
Definition numberOfZ (z : Z) : float :=
  if z <? 0 then PrimFloat.opp (PrimFloat.of_uint63 (Uint63.of_Z (- z)))
  else PrimFloat.of_uint63 (Uint63.of_Z z).

(** ** Character codes

    Modelled from the spec: [chars.ts] is missing; every constant is the
    Unicode code point that its name denotes. *)
Module Chars.
Definition Tab := 9.
Definition LineFeed := 10.
Definition VerticalTab := 11.
Definition FormFeed := 12.
Definition CarriageReturn := 13.
Definition Space := 32.
Definition Exclamation := 33.
Definition DoubleQuote := 34.
Definition Hash := 35.
Definition Dollar := 36.
Definition Percent := 37.
Definition Ampersand := 38.
Definition SingleQuote := 39.
Definition LeftParen := 40.
Definition RightParen := 41.
Definition Asterisk := 42.
Definition Plus := 43.
Definition Comma := 44.
Definition Hyphen := 45.
Definition Period := 46.
Definition Slash := 47.
Definition Zero := 48.
Definition One := 49.
Definition Two := 50.
Definition Three := 51.
Definition Four := 52.
Definition Five := 53.
Definition Six := 54.
Definition Seven := 55.
Definition Eight := 56.
Definition Nine := 57.
Definition Colon := 58.
Definition Semicolon := 59.
Definition LessThan := 60.
Definition EqualSign := 61.
Definition GreaterThan := 62.
Definition QuestionMark := 63.
Definition UpperA := 65.
Definition UpperB := 66.
Definition UpperE := 69.
Definition UpperO := 79.
Definition UpperU := 85.
Definition UpperX := 88.
Definition UpperZ := 90.
Definition LeftBracket := 91.
Definition Backslash := 92.
Definition RightBracket := 93.
Definition Caret := 94.
Definition Underscore := 95.
Definition Backtick := 96.
Definition LowerA := 97.
Definition LowerB := 98.
Definition LowerE := 101.
Definition LowerF := 102.
Definition LowerG := 103.
Definition LowerI := 105.
Definition LowerM := 109.
Definition LowerN := 110.
Definition LowerO := 111.
Definition LowerR := 114.
Definition LowerS := 115.
Definition LowerT := 116.
Definition LowerU := 117.
Definition LowerV := 118.
Definition LowerX := 120.
Definition LowerY := 121.
Definition LowerZ := 122.
Definition LeftBrace := 123.
Definition VerticalBar := 124.
Definition RightBrace := 125.
Definition Tilde := 126.
Definition NonBreakingSpace := 160.
Definition Ogham := 5760.
Definition EnQuad := 8192.
Definition EmQuad := 8193.
Definition EnSpace := 8194.
Definition EmSpace := 8195.
Definition ThreePerEmSpace := 8196.
Definition FourPerEmSpace := 8197.
Definition SixPerEmSpace := 8198.
Definition FigureSpace := 8199.
Definition PunctuationSpace := 8200.
Definition ThinSpace := 8201.
Definition HairSpace := 8202.
Definition LineSeparator := 8232.
Definition ParagraphSeparator := 8233.
Definition NarrowNoBreakSpace := 8239.
Definition MathematicalSpace := 8287.
Definition IdeographicSpace := 12288.
Definition ZeroWidthNoBreakSpace := 65279.
Definition LastUnicodeChar := 1114111.
End Chars.

(** ** Bit masks

    Modelled from the spec: [masks.ts] is missing; each member is a bit of
    its own, the parser flags in the order of section 3 of the
    specification. *)
Module Flags.
Definition None := 0.
Definition LineTerminator := 1.
Definition InFunctionBody := 2.
Definition AllowSuper := 4.
Definition AllowConstructorWithSuper := 8.
Definition HasRest := 16.
Definition HasMemberExpression := 32.
Definition HasReservedWord := 64.
Definition HasEvalArgInParam := 128.
Definition NonSimpleParameter := 256.
Definition ArgumentList := 512.
Definition AsyncArrow := 1024.
Definition Arrow := 2048.
Definition Break := 4096.
Definition Continue := 8192.
Definition Switch := 16384.
Definition HasPrototype := 32768.
Definition OptionsJSX := 65536.
Definition OptionsNext := 131072.
Definition OptionsLoc := 262144.
Definition OptionsRanges := 524288.
Definition OptionsRaw := 1048576.
Definition OptionsOnComment := 2097152.
Definition OptionsV8 := 4194304.
End Flags.

Module Context.
Definition None := 0.
Definition Strict := 1.
Definition Module := 2.
Definition AllowIn := 4.
Definition ForStatement := 64.
Definition Lexical := 1024.
Definition IfClause := 65536.
Definition JSXChild := 262144.
End Context.

Module RegExpState.
Definition Empty := 0.
Definition Escape := 1.
Definition Class := 2.
End RegExpState.

Module RegExpFlag.
Definition None := 0.
Definition Global := 1.
Definition IgnoreCase := 2.
Definition Multiline := 4.
Definition Unicode := 8.
Definition Sticky := 16.
Definition DotAll := 32.
End RegExpFlag.

Module NumberState.
Definition None := 0.
Definition Float := 1.
Definition BigInt := 2.
End NumberState.

Inductive ScopeMasks : Type := Shadowable | NonShadowable.

(** ** Tokens and errors

    [token.ts] and [errors.ts] are missing; the members below are the ones
    that the embedded code names.  A reserved word that [descKeyword] finds
    and the code does not name is [Keyword] of its text. *)
Inductive Token : Type :=
  | EndOfSource | Identifier | NumericLiteral | BigIntLiteral | StringLiteral
  | RegularExpression | TemplateCont | TemplateTail
  | Divide | DivideAssign | ShiftLeftAssign | ShiftLeft | LessThanOrEqual
  | JSXClose | LessThan | Decrement | SubtractAssign | Subtract
  | LeftBrace | RightBrace | Complement | QuestionMark | LeftBracket
  | RightBracket | Comma | Colon | Semicolon | LeftParen | RightParen
  | LogicalAnd | BitwiseAndAssign | BitwiseAnd | Modulo | ModuloAssign
  | Negate | LooseNotEqual | StrictNotEqual | BitwiseXor | BitwiseXorAssign
  | Multiply | MultiplyAssign | Exponentiate | ExponentiateAssign
  | Add | Increment | AddAssign | Assign | StrictEqual | LooseEqual | Arrow
  | GreaterThan | GreaterThanOrEqual | LogicalShiftRightAssign
  | LogicalShiftRight | ShiftRightAssign | ShiftRight
  | LogicalOr | BitwiseOrAssign | BitwiseOr | Period | Ellipsis
  | FunctionKeyword | LetKeyword | AsyncKeyword
  | Keyword (text : JSString).

Inductive Errors : Type :=
  | Unexpected | UnexpectedToken | UnterminatedComment | UnterminatedString
  | UnterminatedTemplate | UnterminatedRegExp | InvalidEscapedReservedWord
  | StrictOctalEscape | StrictOctalLiteral | InvalidBinaryDigit
  | ExpectedHexDigits | InvalidHexEscapeSequence | UnicodeOutOfRange
  | InvalidUnicodeEscapeSequence | InvalidEightAndNine
  | DuplicateRegExpFlag | UnexpectedTokenRegExpFlag
  | DuplicateIdentifier | InvalidLHSInForIn | InvalidLHSInAssignment.

#[global] Instance Token_eq_dec : EqDecision Token.
Proof. solve_decision. Defined.
#[global] Instance Errors_eq_dec : EqDecision Errors.
Proof. solve_decision. Defined.
#[global] Instance ScopeMasks_eq_dec : EqDecision ScopeMasks.
Proof. solve_decision. Defined.

(** ** Values held by [tokenValue] *)
Inductive Value : Type :=
  | VUndefined
  | VNull
  | VString (s : JSString)
  | VNumber (n : float)
  | VRegExp (pattern flags : JSString).

(** ** Imported helpers

    [common.ts], [unicode.ts], [token.ts] and [errors.ts] are missing, and
    [parseFloat] and the [RegExp] constructor belong to the host; the code
    is embedded over any implementation of them.  [isBindingPattern t] is
    [hasMask(t, Token.BindingPattern)] and [descKeyword] answers [None]
    where the source's table answers a number that is not positive. *)
Class Imports : Type := {
  isDigit : num -> bool;
  toHex : num -> Z;
  fromCodePoint : num -> JSString;
  isIdentifierPart : num -> bool;
  isValidIdentifierStart : num -> bool;
  descKeyword : JSString -> option Token;
  tokenDesc : Token -> string;
  isBindingPattern : Token -> bool;
  tryCreate : JSString -> JSString -> Value;
  parseFloat : JSString -> float
}.

(** ** The parser object *)

Record ErrorLocation : Type := mkErrorLocation {
  loc_index : Z; loc_line : Z; loc_column : Z
}.

Record Comment : Type := mkComment {
  comment_type : string; comment_value : JSString;
  comment_start : Z; comment_end : Z
}.

(** The [comments] option is a callback, whose calls are logged, or an
    array that receives the comment nodes; any other value that is true
    collects nothing. *)
Inductive CollectComments : Type :=
  | CommentsFunction (calls : list Comment)
  | CommentsArray (nodes : list Comment)
  | CommentsOther.

(** A scope map: an object made by [Object.create(proto)]. *)
Record Scope : Type := mkScope {
  proto : option nat;
  props : gmap string ScopeMasks
}.

Record Parser : Type := mkParser {
  source : JSString;
  index : Z;
  column : Z;
  line : Z;
  flags : Z;
  tokenValue : Value;
  token : Token;
  startPos : Z;
  startColumn : Z;
  startLine : Z;
  endPos : Z;
  endColumn : Z;
  endLine : Z;
  tokenRaw : JSString;
  labelSet : gmap string bool;
  blockScope : option nat;
  parentScope : option nat;
  functionScope : option nat;
  errorLocation : option ErrorLocation;
  comments : option CollectComments;
  tokenRegExp : option (JSString * JSString);
  (** the scope objects that the three scope fields point into *)
  heap : list Scope
}.

Definition set_index (v : Z) (p : Parser) : Parser :=
  mkParser (source p) v (column p) (line p) (flags p) (tokenValue p) (token p)
    (startPos p) (startColumn p) (startLine p) (endPos p) (endColumn p)
    (endLine p) (tokenRaw p) (labelSet p) (blockScope p) (parentScope p)
    (functionScope p) (errorLocation p) (comments p) (tokenRegExp p) (heap p).
Definition set_column (v : Z) (p : Parser) : Parser :=
  mkParser (source p) (index p) v (line p) (flags p) (tokenValue p) (token p)
    (startPos p) (startColumn p) (startLine p) (endPos p) (endColumn p)
    (endLine p) (tokenRaw p) (labelSet p) (blockScope p) (parentScope p)
    (functionScope p) (errorLocation p) (comments p) (tokenRegExp p) (heap p).
Definition set_line (v : Z) (p : Parser) : Parser :=
  mkParser (source p) (index p) (column p) v (flags p) (tokenValue p) (token p)
    (startPos p) (startColumn p) (startLine p) (endPos p) (endColumn p)
    (endLine p) (tokenRaw p) (labelSet p) (blockScope p) (parentScope p)
    (functionScope p) (errorLocation p) (comments p) (tokenRegExp p) (heap p).
Definition set_flags (v : Z) (p : Parser) : Parser :=
  mkParser (source p) (index p) (column p) (line p) v (tokenValue p) (token p)
    (startPos p) (startColumn p) (startLine p) (endPos p) (endColumn p)
    (endLine p) (tokenRaw p) (labelSet p) (blockScope p) (parentScope p)
    (functionScope p) (errorLocation p) (comments p) (tokenRegExp p) (heap p).
Definition set_tokenValue (v : Value) (p : Parser) : Parser :=
  mkParser (source p) (index p) (column p) (line p) (flags p) v (token p)
    (startPos p) (startColumn p) (startLine p) (endPos p) (endColumn p)
    (endLine p) (tokenRaw p) (labelSet p) (blockScope p) (parentScope p)
    (functionScope p) (errorLocation p) (comments p) (tokenRegExp p) (heap p).
Definition set_token (v : Token) (p : Parser) : Parser :=
  mkParser (source p) (index p) (column p) (line p) (flags p) (tokenValue p) v
    (startPos p) (startColumn p) (startLine p) (endPos p) (endColumn p)
    (endLine p) (tokenRaw p) (labelSet p) (blockScope p) (parentScope p)
    (functionScope p) (errorLocation p) (comments p) (tokenRegExp p) (heap p).
Definition set_startPos (v : Z) (p : Parser) : Parser :=
  mkParser (source p) (index p) (column p) (line p) (flags p) (tokenValue p)
    (token p) v (startColumn p) (startLine p) (endPos p) (endColumn p)
    (endLine p) (tokenRaw p) (labelSet p) (blockScope p) (parentScope p)
    (functionScope p) (errorLocation p) (comments p) (tokenRegExp p) (heap p).
Definition set_startColumn (v : Z) (p : Parser) : Parser :=
  mkParser (source p) (index p) (column p) (line p) (flags p) (tokenValue p)
    (token p) (startPos p) v (startLine p) (endPos p) (endColumn p)
    (endLine p) (tokenRaw p) (labelSet p) (blockScope p) (parentScope p)
    (functionScope p) (errorLocation p) (comments p) (tokenRegExp p) (heap p).
Definition set_startLine (v : Z) (p : Parser) : Parser :=
  mkParser (source p) (index p) (column p) (line p) (flags p) (tokenValue p)
    (token p) (startPos p) (startColumn p) v (endPos p) (endColumn p)
    (endLine p) (tokenRaw p) (labelSet p) (blockScope p) (parentScope p)
    (functionScope p) (errorLocation p) (comments p) (tokenRegExp p) (heap p).
Definition set_endPos (v : Z) (p : Parser) : Parser :=
  mkParser (source p) (index p) (column p) (line p) (flags p) (tokenValue p)
    (token p) (startPos p) (startColumn p) (startLine p) v (endColumn p)
    (endLine p) (tokenRaw p) (labelSet p) (blockScope p) (parentScope p)
    (functionScope p) (errorLocation p) (comments p) (tokenRegExp p) (heap p).
Definition set_endColumn (v : Z) (p : Parser) : Parser :=
  mkParser (source p) (index p) (column p) (line p) (flags p) (tokenValue p)
    (token p) (startPos p) (startColumn p) (startLine p) (endPos p) v
    (endLine p) (tokenRaw p) (labelSet p) (blockScope p) (parentScope p)
    (functionScope p) (errorLocation p) (comments p) (tokenRegExp p) (heap p).
Definition set_endLine (v : Z) (p : Parser) : Parser :=
  mkParser (source p) (index p) (column p) (line p) (flags p) (tokenValue p)
    (token p) (startPos p) (startColumn p) (startLine p) (endPos p)
    (endColumn p) v (tokenRaw p) (labelSet p) (blockScope p) (parentScope p)
    (functionScope p) (errorLocation p) (comments p) (tokenRegExp p) (heap p).
Definition set_tokenRaw (v : JSString) (p : Parser) : Parser :=
  mkParser (source p) (index p) (column p) (line p) (flags p) (tokenValue p)
    (token p) (startPos p) (startColumn p) (startLine p) (endPos p)
    (endColumn p) (endLine p) v (labelSet p) (blockScope p) (parentScope p)
    (functionScope p) (errorLocation p) (comments p) (tokenRegExp p) (heap p).
Definition set_blockScope (v : option nat) (p : Parser) : Parser :=
  mkParser (source p) (index p) (column p) (line p) (flags p) (tokenValue p)
    (token p) (startPos p) (startColumn p) (startLine p) (endPos p)
    (endColumn p) (endLine p) (tokenRaw p) (labelSet p) v (parentScope p)
    (functionScope p) (errorLocation p) (comments p) (tokenRegExp p) (heap p).
Definition set_parentScope (v : option nat) (p : Parser) : Parser :=
  mkParser (source p) (index p) (column p) (line p) (flags p) (tokenValue p)
    (token p) (startPos p) (startColumn p) (startLine p) (endPos p)
    (endColumn p) (endLine p) (tokenRaw p) (labelSet p) (blockScope p) v
    (functionScope p) (errorLocation p) (comments p) (tokenRegExp p) (heap p).
Definition set_functionScope (v : option nat) (p : Parser) : Parser :=
  mkParser (source p) (index p) (column p) (line p) (flags p) (tokenValue p)
    (token p) (startPos p) (startColumn p) (startLine p) (endPos p)
    (endColumn p) (endLine p) (tokenRaw p) (labelSet p) (blockScope p)
    (parentScope p) v (errorLocation p) (comments p) (tokenRegExp p) (heap p).
Definition set_comments (v : option CollectComments) (p : Parser) : Parser :=
  mkParser (source p) (index p) (column p) (line p) (flags p) (tokenValue p)
    (token p) (startPos p) (startColumn p) (startLine p) (endPos p)
    (endColumn p) (endLine p) (tokenRaw p) (labelSet p) (blockScope p)
    (parentScope p) (functionScope p) (errorLocation p) v (tokenRegExp p)
    (heap p).
Definition set_tokenRegExp (v : option (JSString * JSString)) (p : Parser)
  : Parser :=
  mkParser (source p) (index p) (column p) (line p) (flags p) (tokenValue p)
    (token p) (startPos p) (startColumn p) (startLine p) (endPos p)
    (endColumn p) (endLine p) (tokenRaw p) (labelSet p) (blockScope p)
    (parentScope p) (functionScope p) (errorLocation p) (comments p) v
    (heap p).
Definition set_heap (v : list Scope) (p : Parser) : Parser :=
  mkParser (source p) (index p) (column p) (line p) (flags p) (tokenValue p)
    (token p) (startPos p) (startColumn p) (startLine p) (endPos p)
    (endColumn p) (endLine p) (tokenRaw p) (labelSet p) (blockScope p)
    (parentScope p) (functionScope p) (errorLocation p) (comments p)
    (tokenRegExp p) v.

(** ** The error monad

    A method either returns a value and leaves the object in a state, or
    throws: [Throw] keeps the error kind, its message parameters and the
    state of the object when it was thrown ([createError] reads the error
    location from it).  [TypeError] is the host's error on a property of
    [undefined].  Loops run on fuel; [OutOfFuel] is no behaviour of the
    source. *)
Inductive Result (A : Type) : Type :=
  | Ok (a : A) (p : Parser)
  | Throw (type : Errors) (params : list string) (p : Parser)
  | TypeError (p : Parser)
  | OutOfFuel.
Arguments Ok {A} a p.
Arguments Throw {A} type params p.
Arguments TypeError {A} p.
Arguments OutOfFuel {A}.

Definition M (A : Type) : Type := Parser -> Result A.

Definition pure {A : Type} (a : A) : M A := fun p => Ok a p.

Definition bind {A B : Type} (m : M A) (k : A -> M B) : M B :=
  fun p =>
    match m p with
    | Ok a p' => k a p'
    | Throw e ps p' => Throw e ps p'
    | TypeError p' => TypeError p'
    | OutOfFuel => OutOfFuel
    end.

Notation "x <- c1 ;; c2" := (bind c1 (fun x => c2))
  (at level 100, c1 at next level, right associativity).
Notation "c1 ;; c2" := (bind c1 (fun _ => c2))
  (at level 100, right associativity).

Definition gets {A : Type} (f : Parser -> A) : M A := fun p => Ok (f p) p.
Definition modify (f : Parser -> Parser) : M unit := fun p => Ok tt (f p).
Definition outOfFuel {A : Type} : M A := fun _ => OutOfFuel.

(** [this.error(type, ...params)] *)
Definition error {A : Type} (type : Errors) (params : list string) : M A :=
  fun p => Throw type params p.

(** [if (c) this.error(type, ...params);] *)
Definition errorIf (c : bool) (type : Errors) (params : list string) : M unit :=
  if c then error type params else pure tt.

Definition trackErrorLocation (p : Parser) : ErrorLocation :=
  mkErrorLocation (index p) (line p) (column p).

Definition get : M Parser := gets (fun p => p).

(** Operands of arithmetic and bit operators: [NaN] is 0 under a bit
    operator and stays [NaN] under [-]. *)
Definition toInt32 (c : num) : Z := int32 (default 0 c).
Definition numSub (c : num) (k : Z) : float :=
  match c with Some x => numberOfZ (x - k) | None => PrimFloat.nan end.

Section Scanner.
Context `{Imports}.

(** *** Character reader *)

Definition hasNext (p : Parser) : bool := index p <? jslength (source p).

Definition nextChar (p : Parser) : num := charCodeAt (source p) (index p).

Definition advance : M unit :=
  modify (fun p => set_column (column p + 1) (set_index (index p + 1) p)).

Definition advanceTwice : M unit :=
  modify (fun p => set_column (column p + 2) (set_index (index p + 2) p)).

Definition advanceNewline : M unit :=
  modify (fun p =>
    set_line (line p + 1) (set_column 0 (set_index (index p + 1)
      (set_flags (setBits (flags p) Flags.LineTerminator) p)))).

(** [this.index++] *)
Definition incrIndex : M unit := modify (fun p => set_index (index p + 1) p).

Definition consume (code : Z) : M bool :=
  c <- gets nextChar ;;
  if negb (eqn c code) then pure false else advance ;; pure true.

Definition nextUnicodeChar : M num :=
  advance ;;
  hi <- gets nextChar ;;
  if ltn hi 55296 || gtn hi 56319 then pure hi else
  p <- get ;;
  if index p =? jslength (source p) then pure hi else
  lo <- gets nextChar ;;
  if ltn lo 56320 || gtn lo 57343 then pure hi else
  pure (Some (or32 (or32 (shl32 (and32 (toInt32 hi) 1023) 10)
                         (and32 (toInt32 lo) 1023)) 65536)).

(** The fuel that lets a loop over the source run to its end: every
    iteration moves the cursor forward. *)
Definition fuelOf (p : Parser) : nat := S (length (source p)).

(** *** Comments *)

Definition collectComment (type : string) (value : JSString) (start end_ : Z)
  : M unit :=
  modify (fun p =>
    let node := mkComment type value start end_ in
    match comments p with
    | Some (CommentsFunction calls) =>
        set_comments (Some (CommentsFunction (calls ++ [node]))) p
    | Some (CommentsArray nodes) =>
        set_comments (Some (CommentsArray (nodes ++ [node]))) p
    | _ => p
    end).

Definition isLineBreak (c : num) : bool :=
  oneOf c [Chars.LineFeed; Chars.CarriageReturn; Chars.LineSeparator;
           Chars.ParagraphSeparator].

(** [this.advanceNewline(); if (this.hasNext() && this.nextChar() ===
    Chars.LineFeed) this.index++;] *)
Definition newlineThenLineFeed : M unit :=
  advanceNewline ;;
  p <- get ;;
  if hasNext p && eqn (nextChar p) Chars.LineFeed then incrIndex else pure tt.

Fixpoint skipShebangCommentLoop (fuel : nat) : M unit :=
  match fuel with
  | O => outOfFuel
  | S fuel =>
      p <- get ;;
      if negb (hasNext p) then pure tt else
      if isLineBreak (nextChar p) then newlineThenLineFeed
      else advance ;; skipShebangCommentLoop fuel
  end.

Definition skipShebangComment : M unit :=
  fun p => skipShebangCommentLoop (fuelOf p) p.

Fixpoint skipSingleLineCommentLoop (fuel : nat) : M unit :=
  match fuel with
  | O => outOfFuel
  | S fuel =>
      p <- get ;;
      if negb (hasNext p) then pure tt else
      if isLineBreak (nextChar p) then newlineThenLineFeed
      else advance ;; skipSingleLineCommentLoop fuel
  end.

Definition skipSingleLineComment (offset : Z) : M unit :=
  start <- gets index ;;
  (fun p => skipSingleLineCommentLoop (fuelOf p) p) ;;
  p <- get ;;
  if has (flags p) Flags.OptionsOnComment
  then collectComment "SingleLineComment" (slice (source p) start (index p))
         (startPos p) (index p)
  else pure tt.

(** The loop of [skipMultiLineComment]; answers [closed]. *)
Fixpoint skipMultiLineCommentLoop (fuel : nat) : M bool :=
  match fuel with
  | O => outOfFuel
  | S fuel =>
      p <- get ;;
      if negb (hasNext p) then pure false else
      let ch := nextChar p in
      if eqn ch Chars.Asterisk then
        advance ;;
        c <- consume Chars.Slash ;;
        if c then pure true else skipMultiLineCommentLoop fuel
      else if isLineBreak ch then
        newlineThenLineFeed ;; skipMultiLineCommentLoop fuel
      else advance ;; skipMultiLineCommentLoop fuel
  end.

Definition skipMultiLineComment : M unit :=
  start <- gets index ;;
  closed <- (fun p => skipMultiLineCommentLoop (fuelOf p) p) ;;
  errorIf (negb closed) UnterminatedComment [] ;;
  p <- get ;;
  if has (flags p) Flags.OptionsOnComment
  then collectComment "MultiLineComment"
         (slice (source p) start (index p - 2)) (startPos p) (index p)
  else pure tt.

(** *** Unicode escapes *)

(** The loop of the braced form; [ch] is the character under the cursor. *)
Fixpoint peekBracedEscapeLoop (fuel : nat) (ch : num) (code : Z) : M Z :=
  match fuel with
  | O => outOfFuel
  | S fuel =>
      if eqn ch Chars.RightBrace then pure code else
      let digit := toHex ch in
      errorIf (digit <? 0) InvalidHexEscapeSequence [] ;;
      let code := or32 (shl32 code 4) digit in
      errorIf (Chars.LastUnicodeChar <? code) UnicodeOutOfRange [] ;;
      advance ;;
      p <- get ;;
      errorIf (negb (hasNext p)) InvalidHexEscapeSequence [] ;;
      peekBracedEscapeLoop fuel (nextChar p) code
  end.

(** The [for] loop over the three further digits of [\uDDDD]; note that
    it tests [code], not [digit]. *)
Fixpoint peekHexDigits (n : nat) (ch : num) (code : Z) : M (num * Z) :=
  match n with
  | O => pure (ch, code)
  | S n =>
      advance ;;
      p <- get ;;
      errorIf (negb (hasNext p)) InvalidHexEscapeSequence [] ;;
      let ch := nextChar p in
      let digit := toHex ch in
      errorIf (code <? 0) InvalidHexEscapeSequence [] ;;
      peekHexDigits n ch (or32 (shl32 code 4) digit)
  end.

Definition peekExtendedUnicodeEscape : M Z :=
  advance ;;
  p <- get ;;
  errorIf (negb (hasNext p)) InvalidHexEscapeSequence [] ;;
  let ch := nextChar p in
  if eqn ch Chars.LeftBrace then
    advance ;;
    p <- get ;;
    errorIf (negb (hasNext p)) InvalidHexEscapeSequence [] ;;
    let ch := nextChar p in
    errorIf (eqn ch Chars.RightBrace) InvalidHexEscapeSequence [] ;;
    code <- peekBracedEscapeLoop (fuelOf p) ch 0 ;;
    pure code
  else if index p + 3 <? jslength (source p) then
    let code := toHex ch in
    errorIf (code <? 0) InvalidHexEscapeSequence [] ;;
    r <- peekHexDigits 3 ch code ;;
    errorIf (oneOf (fst r) [Chars.LowerU; Chars.UpperU])
      InvalidHexEscapeSequence [] ;;
    pure (snd r)
  else error InvalidUnicodeEscapeSequence [].

Definition peekUnicodeEscape : M Z :=
  advance ;;
  cookedChar <- peekExtendedUnicodeEscape ;;
  errorIf (negb (isValidIdentifierStart (Some cookedChar))) Unexpected [] ;;
  advance ;;
  pure cookedChar.

(** *** Identifiers *)

Fixpoint scanIdentifierLoop (fuel : nat) (start : Z) (ret : JSString)
  : M (Z * JSString) :=
  match fuel with
  | O => outOfFuel
  | S fuel =>
      p <- get ;;
      if negb (hasNext p) then pure (start, ret) else
      let code := nextChar p in
      if isIdentifierPart code then
        advance ;; scanIdentifierLoop fuel start ret
      else if eqn code Chars.Backslash then
        let ret := ret ++ slice (source p) start (index p) in
        cooked <- peekUnicodeEscape ;;
        start <- gets index ;;
        scanIdentifierLoop fuel start (ret ++ fromCodePoint (Some cooked))
      else pure (start, ret)
  end.

Definition scanIdentifier (context : Z) : M Token :=
  start <- gets index ;;
  r <- (fun p => scanIdentifierLoop (fuelOf p) start [] p) ;;
  p <- get ;;
  let start := fst r in
  let ret := if start <? index p
             then snd r ++ slice (source p) start (index p) else snd r in
  let hasEscape := negb (index p - start =? jslength ret) in
  let len := jslength ret in
  errorIf (hasEscape && bool_decide (ret = units "target"))
    InvalidEscapedReservedWord [] ;;
  modify (set_tokenValue (VString ret)) ;;
  if (2 <=? len) && (len <=? 11) then
    let ch := charCodeAt ret 0 in
    if geqn ch Chars.LowerA && leqn ch Chars.LowerZ then
      match descKeyword ret with
      | Some token =>
          errorIf hasEscape InvalidEscapedReservedWord [] ;; pure token
      | None => pure Identifier
      end
    else pure Identifier
  else pure Identifier.

(** *** String literals *)

(** The legacy octal escape that starts with [0] to [3]. *)
Definition scanOctalEscapeLow (context : Z) (cp : Z) : M JSString :=
  p <- get ;;
  let code := cp - Chars.Zero in
  let index_ := index p + 1 in
  let column_ := column p + 1 in
  if index_ <? jslength (source p) then
    let next := charCodeAt (source p) index_ in
    if ltn next Chars.Zero || gtn next Chars.Seven then
      errorIf (negb (code =? 0) && has context Context.Strict)
        StrictOctalLiteral [] ;;
      pure (fromCharCode code)
    else if has context Context.Strict then error StrictOctalLiteral []
    else
      let code := or32 (shl32 code 3) (toInt32 next - Chars.Zero) in
      let index_ := index_ + 1 in
      let column_ := column_ + 1 in
      let next := charCodeAt (source p) index_ in
      if (index_ <? jslength (source p))
         && geqn next Chars.Zero && leqn next Chars.Seven
      then
        let code := or32 (shl32 code 3) (toInt32 next - Chars.Zero) in
        modify (fun p => set_column (column_ + 1 - 1)
                           (set_index (index_ + 1 - 1) p)) ;;
        pure (fromCharCode code)
      else
        modify (fun p => set_column (column_ - 1) (set_index (index_ - 1) p)) ;;
        pure (fromCharCode code)
  else pure (fromCharCode code).

(** The legacy octal escape that starts with [4] to [7]. *)
Definition scanOctalEscapeHigh (context : Z) (cp : Z) : M JSString :=
  errorIf (has context Context.Strict) StrictOctalEscape [] ;;
  p <- get ;;
  let code := cp - Chars.Zero in
  let index_ := index p + 1 in
  let column_ := column p + 1 in
  let next := charCodeAt (source p) index_ in
  if (index_ <? jslength (source p))
     && geqn next Chars.Zero && leqn next Chars.Seven
  then
    modify (fun p => set_column column_ (set_index index_ p)) ;;
    pure (fromCharCode (or32 (shl32 code 3) (toInt32 next - Chars.Zero)))
  else pure (fromCharCode code).

(** [\xHH] *)
Definition scanHexEscape : M JSString :=
  advance ;;
  p <- get ;;
  errorIf (negb (hasNext p)) UnterminatedString [] ;;
  let hi := toHex (nextChar p) in
  errorIf (hi <? 0) InvalidHexEscapeSequence [] ;;
  advance ;;
  p <- get ;;
  errorIf (negb (hasNext p)) UnterminatedString [] ;;
  let lo := toHex (nextChar p) in
  errorIf (lo <? 0) InvalidHexEscapeSequence [] ;;
  pure (fromCodePoint (Some (or32 (shl32 hi 4) lo))).

(** [scanStringEscape]: the cursor is on the backslash.  The test
    [if (!this.hasNext)] of the source names the method without calling
    it, so it never fires.  In the carriage-return case the character
    under the cursor is the carriage return itself. *)
Definition scanStringEscape (context : Z) : M JSString :=
  advance ;;
  cp <- gets nextChar ;;
  if eqn cp Chars.LowerB then pure [8]
  else if eqn cp Chars.LowerT then pure [9]
  else if eqn cp Chars.LowerN then pure [10]
  else if eqn cp Chars.LowerV then pure [11]
  else if eqn cp Chars.LowerF then pure [12]
  else if eqn cp Chars.LowerR then pure [13]
  else if eqn cp Chars.Backslash then pure [Chars.Backslash]
  else if eqn cp Chars.SingleQuote then pure [Chars.SingleQuote]
  else if eqn cp Chars.DoubleQuote then pure [Chars.DoubleQuote]
  else if eqn cp Chars.LowerU then
    code <- peekExtendedUnicodeEscape ;; pure (fromCodePoint (Some code))
  else if eqn cp Chars.LowerX then scanHexEscape
  else if oneOf cp [Chars.Zero; Chars.One; Chars.Two; Chars.Three] then
    scanOctalEscapeLow context (default 0 cp)
  else if oneOf cp [Chars.Four; Chars.Five; Chars.Six; Chars.Seven] then
    scanOctalEscapeHigh context (default 0 cp)
  else if oneOf cp [Chars.Eight; Chars.Nine] then error InvalidEightAndNine []
  else if eqn cp Chars.CarriageReturn then
    p <- get ;;
    (if hasNext p && eqn (nextChar p) Chars.LineFeed then advance
     else pure tt) ;;
    modify (fun p => set_line (line p + 1) (set_column (-1) p)) ;;
    pure []
  else if oneOf cp [Chars.LineFeed; Chars.LineSeparator;
                    Chars.ParagraphSeparator] then
    modify (fun p => set_line (line p + 1) (set_column (-1) p)) ;;
    pure []
  else
    p <- get ;; pure (charAt (source p) cp).

(** The loop of [scanString]; answers the last [start], [ret] and [ch]. *)
Fixpoint scanStringLoop (fuel : nat) (context : Z) (quote : num)
    (start : Z) (ret : JSString) (ch : num) : M (Z * JSString * num) :=
  match fuel with
  | O => outOfFuel
  | S fuel =>
      p <- get ;;
      if negb (hasNext p) then pure (start, ret, ch) else
      let ch := nextChar p in
      if eqnn ch quote then pure (start, ret, ch) else
      if eqn ch Chars.Backslash then
        let ret := ret ++ slice (source p) start (index p) in
        esc <- scanStringEscape context ;;
        advance ;;
        start <- gets index ;;
        scanStringLoop fuel context quote start (ret ++ esc) ch
      else if isLineBreak ch then error UnterminatedString []
      else advance ;; scanStringLoop fuel context quote start ret ch
  end.

Definition scanString (context : Z) (quote : num) : M Token :=
  rawStart <- gets index ;;
  advance ;;
  p <- get ;;
  errorIf (negb (hasNext p)) UnterminatedString [] ;;
  r <- scanStringLoop (fuelOf p) context quote (index p) [] NaN ;;
  let '(start, ret, ch) := r in
  p <- get ;;
  let ret := if negb (start =? index p)
             then ret ++ slice (source p) start (index p) else ret in
  errorIf (negb (eqnn ch quote)) UnterminatedString [] ;;
  advance ;;
  modify (set_tokenValue (VString ret)) ;;
  p <- get ;;
  (if has (flags p) Flags.OptionsRaw
   then modify (set_tokenRaw (slice (source p) rawStart (index p)))
   else pure tt) ;;
  pure StringLiteral.

(** *** Template literals *)

(** The loop of [scanTemplate]; answers [tail] and [ret]. *)
Fixpoint scanTemplateLoop (fuel : nat) (context : Z) (ret : JSString)
    (ch : num) : M (bool * JSString) :=
  match fuel with
  | O => outOfFuel
  | S fuel =>
      if eqn ch Chars.Backtick then pure (true, ret) else
      let next (ret : JSString) : M (bool * JSString) :=
        advance ;;
        p <- get ;;
        errorIf (negb (hasNext p)) UnterminatedTemplate [] ;;
        scanTemplateLoop fuel context ret (nextChar p) in
      let newline (ch : num) (ret : JSString) : M (bool * JSString) :=
        modify (fun p => set_line (line p + 1) (set_column (-1) p)) ;;
        next (ret ++ fromCodePoint ch) in
      if eqn ch Chars.Dollar then
        p <- get ;;
        let index_ := index p + 1 in
        if (index_ <? jslength (source p))
           && eqn (charCodeAt (source p) index_) Chars.LeftBrace
        then
          modify (fun p => set_column (column p + 1) (set_index index_ p)) ;;
          pure (false, ret)
        else next (ret ++ units "$")
      else if eqn ch Chars.Backslash then
        advance ;;
        p <- get ;;
        errorIf (negb (hasNext p)) UnterminatedTemplate [] ;;
        esc <- (if geqn ch 128 then pure (fromCodePoint ch)
                else scanStringEscape context) ;;
        next (ret ++ esc)
      else if eqn ch Chars.CarriageReturn then
        p <- get ;;
        if hasNext p && eqn (nextChar p) Chars.LineFeed then
          incrIndex ;;
          newline (nextChar p) (ret ++ fromCodePoint ch)
        else newline ch ret
      else if oneOf ch [Chars.LineFeed; Chars.LineSeparator;
                        Chars.ParagraphSeparator] then
        newline ch ret
      else next (ret ++ fromCodePoint ch)
  end.

Definition scanTemplate (context : Z) : M Token :=
  start <- gets index ;;
  advance ;;
  p <- get ;;
  errorIf (negb (hasNext p)) UnterminatedTemplate [] ;;
  r <- scanTemplateLoop (fuelOf p) context [] (nextChar p) ;;
  advance ;;
  modify (set_tokenValue (VString (snd r))) ;;
  p <- get ;;
  if fst r then
    modify (set_tokenRaw (slice (source p) (start + 1) (index p - 1))) ;;
    pure TemplateTail
  else
    modify (set_tokenRaw (slice (source p) (start + 1) (index p - 2))) ;;
    pure TemplateCont.

(** *** Numeric literals *)

Definition scanBigInt : M Token :=
  advance ;;
  p <- get ;;
  (if has (flags p) Flags.OptionsRaw
   then modify (set_tokenRaw (slice (source p) (startPos p) (index p)))
   else pure tt) ;;
  pure BigIntLiteral.

(** The loop of [scanNumberLiteral]: [code * 8 + (ch - 48)] on doubles. *)
Fixpoint scanNumberLiteralLoop (fuel : nat) (ch : num) (code : float)
  : M (num * float) :=
  match fuel with
  | O => outOfFuel
  | S fuel =>
      p <- get ;;
      if negb (hasNext p) then pure (ch, code) else
      let ch := nextChar p in
      if negb (isDigit ch) then pure (ch, code) else
      advance ;;
      scanNumberLiteralLoop fuel ch
        (PrimFloat.add (PrimFloat.mul code (numberOfZ 8)) (numSub ch 48))
  end.

Definition scanNumberLiteral (context : Z) : M Token :=
  errorIf (has context Context.Strict) StrictOctalEscape [] ;;
  advance ;;
  p <- get ;;
  let ch := nextChar p in
  errorIf (oneOf (charCodeAt (source p) (index p + 1))
             [Chars.LowerB; Chars.UpperB; Chars.LowerO; Chars.UpperO])
    Unexpected [] ;;
  r <- scanNumberLiteralLoop (fuelOf p) ch (numberOfZ 0) ;;
  modify (set_tokenValue (VNumber (snd r))) ;;
  p <- get ;;
  if has (flags p) Flags.OptionsNext && eqn (fst r) Chars.LowerN
  then scanBigInt
  else
    (if has (flags p) Flags.OptionsRaw
     then modify (set_tokenRaw (slice (source p) (startPos p) (index p)))
     else pure tt) ;;
    pure NumericLiteral.

Fixpoint scanOctalDigitsLoop (fuel : nat) (ch : num) (code : Z)
  : M (num * Z) :=
  match fuel with
  | O => outOfFuel
  | S fuel =>
      p <- get ;;
      if negb (hasNext p) then pure (ch, code) else
      let ch := nextChar p in
      if negb (isDigit ch) then pure (ch, code) else
      errorIf (ltn ch Chars.Zero || geqn ch Chars.Eight)
        InvalidBinaryDigit [] ;;
      advance ;;
      scanOctalDigitsLoop fuel ch (or32 (shl32 code 3) (toInt32 ch - Chars.Zero))
  end.

Definition scanOctalDigits (context : Z) : M Token :=
  errorIf (has context Context.Strict) StrictOctalEscape [] ;;
  advanceTwice ;;
  p <- get ;;
  errorIf (negb (hasNext p)) InvalidBinaryDigit [] ;;
  let ch := nextChar p in
  errorIf (ltn ch Chars.Zero || geqn ch Chars.Eight) InvalidBinaryDigit [] ;;
  advance ;;
  r <- scanOctalDigitsLoop (fuelOf p) ch (default 0 ch - Chars.Zero) ;;
  modify (set_tokenValue (VNumber (numberOfZ (snd r)))) ;;
  p <- get ;;
  if has (flags p) Flags.OptionsNext && eqn (fst r) Chars.LowerN
  then scanBigInt
  else
    (if has (flags p) Flags.OptionsRaw
     then modify (set_tokenRaw (slice (source p) (startPos p) (index p)))
     else pure tt) ;;
    pure NumericLiteral.

Fixpoint scanHexadecimalDigitLoop (fuel : nat) (ch : num) (code : Z)
  : M (num * Z) :=
  match fuel with
  | O => outOfFuel
  | S fuel =>
      p <- get ;;
      if negb (hasNext p) then pure (ch, code) else
      let ch := nextChar p in
      let digit := toHex ch in
      if digit <? 0 then pure (ch, code) else
      advance ;;
      scanHexadecimalDigitLoop fuel ch (or32 (shl32 code 4) digit)
  end.

Definition scanHexadecimalDigit : M Token :=
  advanceTwice ;;
  p <- get ;;
  errorIf (negb (hasNext p)) ExpectedHexDigits [] ;;
  let ch := nextChar p in
  let code := toHex ch in
  errorIf (code <? 0) InvalidHexEscapeSequence [] ;;
  advance ;;
  r <- scanHexadecimalDigitLoop (fuelOf p) ch code ;;
  modify (set_tokenValue (VNumber (numberOfZ (snd r)))) ;;
  p <- get ;;
  if has (flags p) Flags.OptionsNext && eqn (fst r) Chars.LowerN
  then scanBigInt
  else
    (if has (flags p) Flags.OptionsRaw
     then modify (set_tokenRaw (slice (source p) (startPos p) (index p)))
     else pure tt) ;;
    pure NumericLiteral.

Fixpoint scanBinaryDigitsLoop (fuel : nat) (ch : num) (code : Z)
  : M (num * Z) :=
  match fuel with
  | O => outOfFuel
  | S fuel =>
      p <- get ;;
      if negb (hasNext p) then pure (ch, code) else
      let ch := nextChar p in
      if negb (isDigit ch) then pure (ch, code) else
      errorIf (negb (eqn ch Chars.Zero || eqn ch Chars.One))
        InvalidBinaryDigit [] ;;
      advance ;;
      scanBinaryDigitsLoop fuel ch (or32 (shl32 code 1) (toInt32 ch - Chars.Zero))
  end.

(** [code = ch - Chars.Zero] is read only after the test that [ch] is a
    binary digit. *)
Definition scanBinaryDigits (context : Z) : M Token :=
  advanceTwice ;;
  p <- get ;;
  let ch := nextChar p in
  errorIf (negb (eqn ch Chars.Zero) && negb (eqn ch Chars.One))
    InvalidBinaryDigit [] ;;
  advance ;;
  r <- scanBinaryDigitsLoop (fuelOf p) ch (default 0 ch - Chars.Zero) ;;
  modify (set_tokenValue (VNumber (numberOfZ (snd r)))) ;;
  p <- get ;;
  if has (flags p) Flags.OptionsNext && eqn (fst r) Chars.LowerN
  then scanBigInt
  else
    (if has (flags p) Flags.OptionsRaw
     then modify (set_tokenRaw (slice (source p) (startPos p) (index p)))
     else pure tt) ;;
    pure NumericLiteral.

Definition isDecimalDigit (c : num) : bool :=
  oneOf c [Chars.Zero; Chars.One; Chars.Two; Chars.Three; Chars.Four;
           Chars.Five; Chars.Six; Chars.Seven; Chars.Eight; Chars.Nine].

Fixpoint skipDigitsLoop (fuel : nat) : M unit :=
  match fuel with
  | O => outOfFuel
  | S fuel =>
      p <- get ;;
      if negb (hasNext p) then pure tt else
      if isDecimalDigit (nextChar p) then advance ;; skipDigitsLoop fuel
      else pure tt
  end.

Definition skipDigits : M unit := fun p => skipDigitsLoop (fuelOf p) p.

(** The [case Chars.UpperE: case Chars.LowerE:] arm of [scanNumber], which
    the [case Chars.LowerN:] arm falls into; answers [state] and [end]. *)
Definition scanExponent (state end_ : Z) : M (Z * Z) :=
  advance ;;
  let state := setBits state NumberState.Float in
  c <- gets nextChar ;;
  if oneOf c [Chars.Plus; Chars.Hyphen] then
    advance ;; advance ;; skipDigits ;;
    end_ <- gets index ;; pure (state, end_)
  else if isDecimalDigit c then
    advance ;; skipDigits ;;
    end_ <- gets index ;; pure (state, end_)
  else pure (state, end_).

Definition scanNumber (context : Z) (ch : num) : M Token :=
  start <- gets index ;;
  skipDigits ;;
  c <- gets nextChar ;;
  state <- (if eqn c Chars.Period
            then advance ;; skipDigits ;;
                 pure (setBits NumberState.None NumberState.Float)
            else pure NumberState.None) ;;
  end_ <- gets index ;;
  p <- get ;;
  let c := nextChar p in
  r <- (if eqn c Chars.LowerN then
          if has (flags p) Flags.OptionsNext then
            errorIf (has state NumberState.Float) Unexpected [] ;;
            advance ;;
            scanExponent (setBits state NumberState.BigInt) end_
          else scanExponent state end_
        else if oneOf c [Chars.UpperE; Chars.LowerE] then
          scanExponent state end_
        else pure (state, end_)) ;;
  let '(state, end_) := r in
  p <- get ;;
  (if has (flags p) Flags.OptionsRaw
   then modify (set_tokenRaw (substring (source p) start end_))
   else pure tt) ;;
  modify (set_tokenValue (VNumber (parseFloat (substring (source p) start end_)))) ;;
  if has state NumberState.BigInt then pure BigIntLiteral
  else pure NumericLiteral.

(** *** Regular expression literals *)

(** The first loop of [scanRegularExpression] over the local [index]:
    [inl index] when the closing slash ends the loop, [inr token] when a
    line break makes the method return [this.token]. *)
Fixpoint scanRegExpBody (fuel : nat) (index_ : Z) (preparseState : Z)
  : M (Z + Token) :=
  match fuel with
  | O => outOfFuel
  | S fuel =>
      p <- get ;;
      let ch := charCodeAt (source p) index_ in
      let index_ := index_ + 1 in
      modify (fun p => set_column (column p + 1) p) ;;
      let next (preparseState : Z) : M (Z + Token) :=
        errorIf (jslength (source p) <=? index_) UnterminatedRegExp [] ;;
        scanRegExpBody fuel index_ preparseState in
      if has preparseState RegExpState.Escape then
        next (clearBits preparseState RegExpState.Escape)
      else if eqn ch Chars.Slash then
        if preparseState =? 0 then pure (inl index_) else next preparseState
      else if eqn ch Chars.Backslash then
        next (setBits preparseState RegExpState.Escape)
      else if eqn ch Chars.LeftBracket then
        next (setBits preparseState RegExpState.Class)
      else if eqn ch Chars.RightBracket then
        next (Z.land preparseState RegExpState.Escape)
      else if oneOf ch [Chars.CarriageReturn; Chars.LineFeed;
                        Chars.LineSeparator; Chars.ParagraphSeparator] then
        modify (set_index index_) ;;
        t <- gets token ;; pure (inr t)
      else next preparseState
  end.

(** The second loop, over the flag characters; answers the local [index]
    at which it stops. *)
Fixpoint scanRegExpFlags (fuel : nat) (index_ : Z) (mask : Z) : M Z :=
  match fuel with
  | O => outOfFuel
  | S fuel =>
      p <- get ;;
      if negb (index_ <? jslength (source p)) then pure index_ else
      let code := charCodeAt (source p) index_ in
      if negb (isIdentifierPart code) then pure index_ else
      let flag (bit : Z) (name : string) : M Z :=
        errorIf (has mask bit) DuplicateRegExpFlag [name] ;;
        modify (fun p => set_column (column p + 1) p) ;;
        scanRegExpFlags fuel (index_ + 1) (setBits mask bit) in
      if eqn code Chars.LowerG then flag RegExpFlag.Global "g"
      else if eqn code Chars.LowerI then flag RegExpFlag.IgnoreCase "i"
      else if eqn code Chars.LowerM then flag RegExpFlag.Multiline "m"
      else if eqn code Chars.LowerU then flag RegExpFlag.Unicode "u"
      else if eqn code Chars.LowerY then flag RegExpFlag.Sticky "y"
      else if eqn code Chars.LowerS && has (flags p) Flags.OptionsNext then
        flag RegExpFlag.DotAll "s"
      else
        code <- (if geqn code 55296 && leqn code 56320 then nextUnicodeChar
                 else pure code) ;;
        if negb (isIdentifierPart code) then pure index_
        else error UnexpectedTokenRegExpFlag []
  end.

Definition scanRegularExpression : M Token :=
  p <- get ;;
  let bodyStart := startPos p + 1 in
  r <- scanRegExpBody (fuelOf p) bodyStart RegExpState.Empty ;;
  match r with
  | inr t => pure t
  | inl index_ =>
      let bodyEnd := index_ - 1 in
      let flagsStart := index_ in
      index_ <- scanRegExpFlags (fuelOf p) index_ RegExpFlag.None ;;
      modify (fun p => set_index index_ (set_endPos (index p) p)) ;;
      p <- get ;;
      let pattern := slice (source p) bodyStart bodyEnd in
      let flags_ := slice (source p) flagsStart (index p) in
      modify (set_tokenRegExp (Some (pattern, flags_))) ;;
      modify (set_tokenValue (tryCreate pattern flags_)) ;;
      (if has (flags p) Flags.OptionsRaw
       then modify (set_tokenRaw (slice (source p) (startPos p) (index p)))
       else pure tt) ;;
      pure RegularExpression
  end.

(** *** The token scanner *)

Definition isWhiteSpace (c : num) : bool :=
  oneOf c [Chars.Tab; Chars.VerticalTab; Chars.FormFeed; Chars.Space;
           Chars.NonBreakingSpace; Chars.Ogham; Chars.EnQuad; Chars.EmQuad;
           Chars.EnSpace; Chars.EmSpace; Chars.ThreePerEmSpace;
           Chars.FourPerEmSpace; Chars.SixPerEmSpace; Chars.FigureSpace;
           Chars.PunctuationSpace; Chars.ThinSpace; Chars.HairSpace;
           Chars.NarrowNoBreakSpace; Chars.MathematicalSpace;
           Chars.IdeographicSpace; Chars.ZeroWidthNoBreakSpace].

(** The labels from [case Chars.Backslash:] to [case Chars.LowerZ:]. *)
Definition isIdentifierLabel (c : num) : bool :=
  eqn c Chars.Backslash
  || (geqn c Chars.UpperA && leqn c Chars.UpperZ)
  || eqn c Chars.Dollar || eqn c Chars.Underscore
  || (geqn c Chars.LowerA && leqn c Chars.LowerZ).

(** One arm of the [switch] answers [Some token] when it returns and
    [None] when it continues the loop. *)
Definition returns (t : Token) : M (option Token) := pure (Some t).
Definition continue : M (option Token) := pure None.

(** [case Chars.Hyphen:], which the [break] of the [case Chars.Slash:]
    arm under [case Chars.LessThan:] also falls into. *)
Definition scanHyphen (context : Z) : M (option Token) :=
  advance ;;
  next <- gets nextChar ;;
  if eqn next Chars.Hyphen then
    advance ;;
    c <- consume Chars.GreaterThan ;;
    if c then
      p <- get ;;
      (if negb (has context Context.Module)
          || has (flags p) Flags.LineTerminator
       then skipSingleLineComment 3 else pure tt) ;;
      continue
    else returns Decrement
  else if eqn next Chars.EqualSign then advance ;; returns SubtractAssign
  else returns Subtract.

(** The condition [!(context & Context.Module) && this.consume(...) &&
    this.consume(...) && this.consume(...)]: a [consume] that succeeds
    keeps its effect when a later one fails. *)
Definition consumeHTMLOpen (context : Z) : M bool :=
  if has context Context.Module then pure false else
  a <- consume Chars.Exclamation ;;
  if negb a then pure false else
  b <- consume Chars.Hyphen ;;
  if negb b then pure false else
  consume Chars.Hyphen.

Definition scanLessThan (context : Z) : M (option Token) :=
  advance ;;
  html <- consumeHTMLOpen context ;;
  if html then skipSingleLineComment 4 ;; continue
  else
    p <- get ;;
    let c := nextChar p in
    if eqn c Chars.LessThan then
      advance ;;
      e <- consume Chars.EqualSign ;;
      if e then returns ShiftLeftAssign else returns ShiftLeft
    else if eqn c Chars.EqualSign then advance ;; returns LessThanOrEqual
    else if eqn c Chars.Slash then
      if negb (has (flags p) Flags.OptionsJSX) then scanHyphen context else
      let next := charCodeAt (source p) (index p + 1) in
      if eqn next Chars.Asterisk || eqn next Chars.Slash
      then scanHyphen context
      else advance ;; returns JSXClose
    else returns LessThan.

Definition scanPeriod (context : Z) (first : num) : M (option Token) :=
  p <- get ;;
  let index_ := index p + 1 in
  let next := charCodeAt (source p) index_ in
  if (index_ <? jslength (source p))
     && geqn next Chars.Zero && leqn next Chars.Nine
  then scanNumber context first ;; returns NumericLiteral
  else if (index_ <? jslength (source p)) && eqn next Chars.Period
          && (index_ + 1 <? jslength (source p))
          && eqn (charCodeAt (source p) (index_ + 1)) Chars.Period
  then
    modify (fun p => set_column (column p + 3) (set_index (index_ + 1 + 1) p)) ;;
    returns Ellipsis
  else advance ;; returns Period.

(** [case Chars.Zero:], which falls into the arm of the other digits. *)
Definition scanZero (context : Z) (first : num) : M Token :=
  p <- get ;;
  let index_ := index p + 1 in
  let ch := charCodeAt (source p) index_ in
  if (index_ + 1 <? jslength (source p))
     && oneOf ch [Chars.LowerX; Chars.UpperX]
  then scanHexadecimalDigit
  else if (index_ + 1 <? jslength (source p))
          && oneOf ch [Chars.LowerB; Chars.UpperB]
  then scanBinaryDigits context
  else if (index_ + 1 <? jslength (source p))
          && oneOf ch [Chars.LowerO; Chars.UpperO]
  then scanOctalDigits context
  else if (index_ <? jslength (source p))
          && geqn ch Chars.Zero && leqn ch Chars.Seven
  then scanNumberLiteral context
  else scanNumber context first.

Definition lift (m : M Token) : M (option Token) := t <- m ;; returns t.

(** The body of the [switch (first)] of [scanToken]. *)
Definition scanTokenCase (context : Z) (first : num) : M (option Token) :=
  if oneOf first [Chars.CarriageReturn; Chars.LineFeed] then
    advanceNewline ;;
    p <- get ;;
    (if hasNext p && eqn first Chars.CarriageReturn
        && eqn (nextChar p) Chars.LineFeed
     then incrIndex else pure tt) ;;
    continue
  else if oneOf first [Chars.LineSeparator; Chars.ParagraphSeparator] then
    advanceNewline ;; continue
  else if isWhiteSpace first then advance ;; continue
  else if eqn first Chars.Slash then
    advance ;;
    c <- gets nextChar ;;
    if eqn c Chars.Slash then advance ;; skipSingleLineComment 2 ;; continue
    else if eqn c Chars.Asterisk then advance ;; skipMultiLineComment ;; continue
    else if eqn c Chars.EqualSign then advance ;; returns DivideAssign
    else returns Divide
  else if eqn first Chars.LessThan then scanLessThan context
  else if eqn first Chars.Hyphen then scanHyphen context
  else if eqn first Chars.Hash then
    p <- get ;;
    if (index p =? 0)
       && eqn (charCodeAt (source p) (index p + 1)) Chars.Exclamation
    then advanceTwice ;; skipShebangComment ;; continue
    else advance ;; returns LeftBrace
  else if eqn first Chars.LeftBrace then advance ;; returns LeftBrace
  else if eqn first Chars.RightBrace then
    advance ;;
    modify (fun p => set_flags (setBits (flags p) Flags.LineTerminator) p) ;;
    returns RightBrace
  else if eqn first Chars.Tilde then advance ;; returns Complement
  else if eqn first Chars.QuestionMark then advance ;; returns QuestionMark
  else if eqn first Chars.LeftBracket then advance ;; returns LeftBracket
  else if eqn first Chars.RightBracket then advance ;; returns RightBracket
  else if eqn first Chars.Comma then advance ;; returns Comma
  else if eqn first Chars.Colon then advance ;; returns Colon
  else if eqn first Chars.Semicolon then advance ;; returns Semicolon
  else if eqn first Chars.LeftParen then advance ;; returns LeftParen
  else if eqn first Chars.RightParen then advance ;; returns RightParen
  else if eqn first Chars.Backtick then lift (scanTemplate context)
  else if oneOf first [Chars.DoubleQuote; Chars.SingleQuote] then
    lift (scanString context first)
  else if eqn first Chars.Ampersand then
    advance ;;
    next <- gets nextChar ;;
    if eqn next Chars.Ampersand then advance ;; returns LogicalAnd
    else if eqn next Chars.EqualSign then advance ;; returns BitwiseAndAssign
    else returns BitwiseAnd
  else if eqn first Chars.Percent then
    advance ;;
    e <- consume Chars.EqualSign ;;
    if negb e then returns Modulo else returns ModuloAssign
  else if eqn first Chars.Exclamation then
    advance ;;
    e <- consume Chars.EqualSign ;;
    if negb e then returns Negate else
    e <- consume Chars.EqualSign ;;
    if negb e then returns LooseNotEqual else returns StrictNotEqual
  else if eqn first Chars.Caret then
    advance ;;
    e <- consume Chars.EqualSign ;;
    if negb e then returns BitwiseXor else returns BitwiseXorAssign
  else if eqn first Chars.Asterisk then
    advance ;;
    p <- get ;;
    if negb (hasNext p) then returns Multiply else
    let next := nextChar p in
    if eqn next Chars.EqualSign then advance ;; returns MultiplyAssign else
    if negb (eqn next Chars.Asterisk) then returns Multiply else
    advance ;;
    e <- consume Chars.EqualSign ;;
    if negb e then returns Exponentiate else returns ExponentiateAssign
  else if eqn first Chars.Plus then
    advance ;;
    p <- get ;;
    if negb (hasNext p) then returns Add else
    let next := nextChar p in
    if eqn next Chars.Plus then advance ;; returns Increment
    else if eqn next Chars.EqualSign then advance ;; returns AddAssign
    else returns Add
  else if eqn first Chars.EqualSign then
    advance ;;
    p <- get ;;
    if negb (hasNext p) then returns Assign else
    let next := nextChar p in
    if eqn next Chars.EqualSign then
      advance ;;
      e <- consume Chars.EqualSign ;;
      if e then returns StrictEqual else returns LooseEqual
    else if eqn next Chars.GreaterThan then advance ;; returns Arrow
    else returns Assign
  else if eqn first Chars.GreaterThan then
    advance ;;
    if has context Context.JSXChild then returns GreaterThan else
    next <- gets nextChar ;;
    if eqn next Chars.EqualSign then advance ;; returns GreaterThanOrEqual else
    if negb (eqn next Chars.GreaterThan) then returns GreaterThan else
    advance ;;
    next <- gets nextChar ;;
    if eqn next Chars.GreaterThan then
      advance ;;
      e <- consume Chars.EqualSign ;;
      if e then returns LogicalShiftRightAssign else returns LogicalShiftRight
    else if eqn next Chars.EqualSign then advance ;; returns ShiftRightAssign
    else returns ShiftRight
  else if eqn first Chars.VerticalBar then
    advance ;;
    next <- gets nextChar ;;
    if eqn next Chars.VerticalBar then advance ;; returns LogicalOr
    else if eqn next Chars.EqualSign then advance ;; returns BitwiseOrAssign
    else returns BitwiseOr
  else if eqn first Chars.Period then scanPeriod context first
  else if eqn first Chars.Zero then lift (scanZero context first)
  else if oneOf first [Chars.One; Chars.Two; Chars.Three; Chars.Four;
                       Chars.Five; Chars.Six; Chars.Seven; Chars.Eight;
                       Chars.Nine] then
    lift (scanNumber context first)
  else if isIdentifierLabel first then lift (scanIdentifier context)
  else if isValidIdentifierStart first then lift (scanIdentifier context)
  else error Unexpected [].

Fixpoint scanTokenLoop (fuel : nat) (context : Z) : M Token :=
  match fuel with
  | O => outOfFuel
  | S fuel =>
      p <- get ;;
      if negb (hasNext p) then pure EndOfSource else
      modify (fun p => set_startLine (line p) (set_startColumn (column p)
                         (set_startPos (index p) p))) ;;
      r <- scanTokenCase context (nextChar p) ;;
      match r with
      | Some t => pure t
      | None => scanTokenLoop fuel context
      end
  end.

Definition scanToken (context : Z) : M Token :=
  modify (fun p => set_flags (clearBits (flags p) Flags.LineTerminator) p) ;;
  modify (fun p => set_endLine (line p) (set_endColumn (column p)
                     (set_endPos (index p) p))) ;;
  fun p => scanTokenLoop (fuelOf p) context p.

Definition nextToken (context : Z) : M Token :=
  t <- scanToken context ;;
  modify (set_token t) ;;
  pure t.

(** *** Expecting tokens and automatic semicolon insertion *)

Definition expect (context : Z) (t : Token) : M unit :=
  p <- get ;;
  errorIf (negb (bool_decide (token p = t))) Unexpected [] ;;
  nextToken context ;;
  pure tt.

Definition canConsumeSemicolon (p : Parser) : bool :=
  if has (flags p) Flags.LineTerminator then true else
  match token p with
  | Semicolon | RightBrace | EndOfSource => true
  | _ => false
  end.

Definition consumeSemicolon (context : Z) : M unit :=
  p <- get ;;
  errorIf (negb (canConsumeSemicolon p)) UnexpectedToken
    [tokenDesc (token p)] ;;
  if bool_decide (token p = Semicolon) then expect context Semicolon
  else pure tt.

(** *** Saved state and the lookahead probes *)

Record SavedState : Type := mkSavedState {
  saved_index : Z;
  saved_column : Z;
  saved_line : Z;
  saved_startLine : Z;
  saved_endLine : Z;
  saved_startColumn : Z;
  saved_endColumn : Z;
  saved_token : Token;
  saved_tokenValue : Value;
  saved_tokenRaw : JSString;
  saved_startPos : Z;
  saved_endPos : Z;
  saved_tokenRegExp : option (JSString * JSString);
  saved_flags : Z
}.

Definition saveState (p : Parser) : SavedState :=
  mkSavedState (index p) (column p) (line p) (startLine p) (endLine p)
    (startColumn p) (endColumn p) (token p) (tokenValue p) (tokenRaw p)
    (startPos p) (endPos p) (tokenRegExp p) (flags p).

Definition rewindState (state : SavedState) : M unit :=
  modify (set_index (saved_index state)) ;;
  modify (set_column (saved_column state)) ;;
  modify (set_line (saved_line state)) ;;
  modify (set_token (saved_token state)) ;;
  modify (set_tokenValue (saved_tokenValue state)) ;;
  modify (set_startPos (saved_startPos state)) ;;
  modify (set_endPos (saved_endPos state)) ;;
  modify (set_endLine (saved_endLine state)) ;;
  modify (set_startLine (saved_startLine state)) ;;
  modify (set_startColumn (saved_startColumn state)) ;;
  modify (set_endColumn (saved_endColumn state)) ;;
  modify (set_tokenRegExp (saved_tokenRegExp state)) ;;
  modify (set_tokenRaw (saved_tokenRaw state)) ;;
  modify (set_flags (saved_flags state)).

Definition nextTokenIsLeftParen (context : Z) : M bool :=
  savedState <- gets saveState ;;
  nextToken context ;;
  next <- gets token ;;
  rewindState savedState ;;
  pure (bool_decide (next = LeftParen)).

Definition isLexical (context : Z) : M bool :=
  savedState <- gets saveState ;;
  nextToken context ;;
  next <- gets token ;;
  rewindState savedState ;;
  pure (isBindingPattern next).

Definition nextTokenIsFunctionKeyword (context : Z) : M bool :=
  savedState <- gets saveState ;;
  nextToken context ;;
  next <- gets token ;;
  line_ <- gets line ;;
  rewindState savedState ;;
  p <- get ;;
  pure ((line p =? line_) && bool_decide (next = FunctionKeyword)).

End Scanner.

(** ** Scope tracking

    A scope map is an object without [Object.prototype] in its chain, so a
    read [scope[name]] walks the [proto] links and finds only names that
    the parser stored. *)

(** [scope[name]] *)
Fixpoint getProperty (fuel : nat) (h : list Scope) (scope : nat) (name : string)
  : option ScopeMasks :=
  match fuel with
  | O => None
  | S fuel =>
      match h !! scope with
      | None => None
      | Some o =>
          match props o !! name with
          | Some v => Some v
          | None =>
              match proto o with
              | Some parent => getProperty fuel h parent name
              | None => None
              end
          end
      end
  end.

Definition getProp (h : list Scope) (scope : nat) (name : string)
  : option ScopeMasks :=
  getProperty (length h) h scope name.

(** [hasOwn.call(scope, name)] *)
Definition hasOwn (h : list Scope) (scope : nat) (name : string) : bool :=
  match h !! scope with
  | Some o => bool_decide (is_Some (props o !! name))
  | None => false
  end.

(** [name in scope] *)
Definition hasProperty (h : list Scope) (scope : nat) (name : string) : bool :=
  bool_decide (is_Some (getProp h scope name)).

(** [scope[name] = value] *)
Definition setProperty (scope : nat) (name : string) (value : ScopeMasks)
  : M unit :=
  modify (fun p =>
    set_heap (alter (fun o => mkScope (proto o) (<[name := value]> (props o)))
                scope (heap p)) p).

(** [Object.create(proto)] *)
Definition objectCreate (parent : option nat) : M nat :=
  fun p => Ok (length (heap p)) (set_heap (heap p ++ [mkScope parent ∅]) p).

(** [this.functionScope[name] = value] and the like: a field that is
    [undefined] makes the host throw. *)
Definition setScopeProperty (field : Parser -> option nat) (name : string)
    (value : ScopeMasks) : M unit :=
  p <- get ;;
  match field p with
  | Some scope => setProperty scope name value
  | None => TypeError
  end.

Definition initBlockScope : M bool :=
  p <- get ;;
  match functionScope p with
  | None =>
      f <- objectCreate None ;;
      modify (set_functionScope (Some f)) ;;
      b <- objectCreate (Some f) ;;
      modify (set_blockScope (Some b)) ;;
      modify (set_parentScope (Some b)) ;;
      pure true
  | Some _ =>
      match blockScope p with
      | None =>
          match parentScope p with
          | None => TypeError
          | Some parent =>
              b <- objectCreate (Some parent) ;;
              modify (set_blockScope (Some b)) ;;
              modify (set_parentScope (Some b)) ;;
              pure true
          end
      | Some _ => pure false
      end
  end.

Definition initFunctionScope : M bool :=
  p <- get ;;
  match functionScope p with
  | Some _ => pure false
  | None =>
      f <- objectCreate None ;;
      modify (set_functionScope (Some f)) ;;
      modify (set_blockScope (Some f)) ;;
      modify (set_parentScope (Some f)) ;;
      pure true
  end.

Definition addCatchArg (name : string) (type : ScopeMasks) : M unit :=
  initBlockScope ;;
  setScopeProperty blockScope name type.

Definition addFunctionArg (name : string) : M unit :=
  fresh <- initFunctionScope ;;
  p <- get ;;
  match functionScope p with
  | None => TypeError
  | Some f =>
      errorIf (negb fresh && hasProperty (heap p) f name)
        DuplicateIdentifier [name] ;;
      setProperty f name Shadowable
  end.

Definition addVarName (name : string) : M unit :=
  fresh <- initFunctionScope ;;
  p <- get ;;
  errorIf (negb fresh
           && match blockScope p with
              | Some b => bool_decide (getProp (heap p) b name = Some NonShadowable)
              | None => false
              end)
    DuplicateIdentifier [name] ;;
  setScopeProperty functionScope name Shadowable.

Definition addBlockName (name : string) : M unit :=
  errorIf (bool_decide (name = "Infinity") || bool_decide (name = "NaN")
           || bool_decide (name = "undefined"))
    DuplicateIdentifier [name] ;;
  fresh <- initBlockScope ;;
  p <- get ;;
  match blockScope p with
  | None => TypeError
  | Some b =>
      errorIf (negb fresh
               && (bool_decide (getProp (heap p) b name = Some Shadowable)
                   || hasOwn (heap p) b name))
        DuplicateIdentifier [name] ;;
      setProperty b name NonShadowable
  end.

Definition addVarOrBlock (context : Z) (name : string) : M unit :=
  if has context Context.Lexical then addBlockName name else addVarName name.

Record SavedScope : Type := mkSavedScope {
  saved_functionScope : option nat;
  saved_blockScope : option nat;
  saved_parentScope : option nat
}.

Definition enterFunctionScope : M SavedScope :=
  p <- get ;;
  modify (set_functionScope None) ;;
  modify (set_blockScope None) ;;
  modify (set_parentScope None) ;;
  pure (mkSavedScope (functionScope p) (blockScope p) (parentScope p)).

(** The scope bookkeeping of [parseBlockStatement] before and after the
    statements of the block. *)
Definition parseBlockStatement_enter (context : Z)
  : M (option nat * option nat) :=
  p <- get ;;
  (if bool_decide (is_Some (blockScope p))
   then modify (set_parentScope (blockScope p)) else pure tt) ;;
  modify (set_blockScope (if has context Context.IfClause
                          then blockScope p else None)) ;;
  pure (blockScope p, parentScope p).

Definition parseBlockStatement_exit (saved : option nat * option nat)
  : M unit :=
  modify (set_blockScope (fst saved)) ;;
  if bool_decide (is_Some (snd saved))
  then modify (set_parentScope (snd saved)) else pure tt.

Definition exitFunctionScope (t : SavedScope) : M unit :=
  modify (set_functionScope (saved_functionScope t)) ;;
  modify (set_blockScope (saved_blockScope t)) ;;
  modify (set_parentScope (saved_parentScope t)).

(** ** Syntax trees and the expression-to-pattern walker

    [estree.ts] is missing; a node is embedded by its [type] with the
    fields that the walker reads.  Assigning [params.type] turns the node
    into the constructor of the new type over the same fields, and
    [delete params.operator] leaves a pattern without operator. *)
Module ESTree.

#[warnings="-register-all"]
Inductive Node : Type :=
  | Identifier (name : string)
  | MemberExpression (object property : Node) (computed : bool)
  | AssignmentPattern (left right : Node)
  | ArrayPattern (elements : list (option Node))
  | ObjectPattern (properties : list Node)
  | ObjectExpression (properties : list Node)
  | ArrayExpression (elements : list (option Node))
  | AssignmentExpression (operator : string) (left right : Node)
  | SpreadElement (argument : Node)
  | RestElement (argument : Node)
  | Property (kind : string) (key value : Node)
      (computed method shorthand : bool)
  | Other (type : string).

(** [node.type] *)
Definition type (n : Node) : string :=
  match n with
  | Identifier _ => "Identifier"
  | MemberExpression _ _ _ => "MemberExpression"
  | AssignmentPattern _ _ => "AssignmentPattern"
  | ArrayPattern _ => "ArrayPattern"
  | ObjectPattern _ => "ObjectPattern"
  | ObjectExpression _ => "ObjectExpression"
  | ArrayExpression _ => "ArrayExpression"
  | AssignmentExpression _ _ _ => "AssignmentExpression"
  | SpreadElement _ => "SpreadElement"
  | RestElement _ => "RestElement"
  | Property _ _ _ _ _ _ => "Property"
  | Other t => t
  end.

End ESTree.

Section Reinterpret.
Context `{Imports}.
Import ESTree.

(** [this.error(Errors.UnexpectedToken, tokenDesc(this.token))] *)
Definition unexpectedToken {A : Type} : M A :=
  p <- get ;; error UnexpectedToken [tokenDesc (token p)].

(** A member of [properties] other than a [Property] has no [kind], so
    that [property.kind !== 'init'] holds of it. *)
Fixpoint reinterpretExpressionAsPattern (context : Z) (params : Node)
  : M Node :=
  match params with
  | Identifier _ | MemberExpression _ _ _ | AssignmentPattern _ _
  | ArrayPattern _ | ObjectPattern _ => pure params
  | ObjectExpression properties =>
      properties <-
        (fix loop (ps : list Node) : M (list Node) :=
           match ps with
           | [] => pure []
           | property :: rest =>
               property <-
                 match property with
                 | Property kind key value computed method shorthand =>
                     (if negb (bool_decide (kind = "init"))
                      then unexpectedToken else pure tt) ;;
                     value <- reinterpretExpressionAsPattern context value ;;
                     pure (Property kind key value computed method shorthand)
                 | _ => unexpectedToken
                 end ;;
               rest <- loop rest ;;
               pure (property :: rest)
           end) properties ;;
      pure (ObjectPattern properties)
  | ArrayExpression elements =>
      elements <-
        (fix loop (es : list (option Node)) : M (list (option Node)) :=
           match es with
           | [] => pure []
           | element :: rest =>
               element <-
                 match element with
                 | Some e =>
                     e <- reinterpretExpressionAsPattern context e ;;
                     pure (Some e)
                 | None => pure None
                 end ;;
               rest <- loop rest ;;
               pure (element :: rest)
           end) elements ;;
      pure (ArrayPattern elements)
  | AssignmentExpression operator left_ right_ =>
      (if negb (bool_decide (operator = "="))
       then unexpectedToken else pure tt) ;;
      left_ <- reinterpretExpressionAsPattern context left_ ;;
      pure (AssignmentPattern left_ right_)
  | SpreadElement argument =>
      match argument with
      | AssignmentExpression _ _ _ =>
          error (if has context Context.ForStatement
                 then InvalidLHSInForIn else InvalidLHSInAssignment) []
      | _ =>
          argument <- reinterpretExpressionAsPattern context argument ;;
          pure (RestElement argument)
      end
  | RestElement _ | Property _ _ _ _ _ _ | Other _ => unexpectedToken
  end.

End Reinterpret.

(** ** An implementation of the imports for running examples

    It agrees with the missing modules on the ASCII range: the identifier
    classes are the ASCII letters, digits, [$] and [_]; [parseFloat] reads
    the longest prefix [digits . digits e sign digits] and gives the
    correctly rounded double when the digits of the mantissa make an
    integer below 2^53 and the exponent, less the number of fraction
    digits, is within 22 either way: the mantissa and the power of ten
    are then exact doubles and one multiplication or division rounds
    once.  Outside this range it is an approximation.  The host always
    builds the regular expression. *)
Module Example.

Definition isDigit (c : num) : bool := geqn c 48 && leqn c 57.

Definition toHex (c : num) : Z :=
  match c with
  | Some x =>
      if (48 <=? x) && (x <=? 57) then x - 48
      else if (65 <=? x) && (x <=? 70) then x - 65 + 10
      else if (97 <=? x) && (x <=? 102) then x - 97 + 10
      else -1
  | None => -1
  end.

Definition fromCodePoint (c : num) : JSString :=
  match c with
  | Some x =>
      if x <=? 65535 then [x]
      else [55296 + Z.shiftr (x - 65536) 10; 56320 + Z.land (x - 65536) 1023]
  | None => []
  end.

Definition isValidIdentifierStart (c : num) : bool :=
  (geqn c 65 && leqn c 90) || (geqn c 97 && leqn c 122)
  || eqn c 36 || eqn c 95.

Definition isIdentifierPart (c : num) : bool :=
  isValidIdentifierStart c || isDigit c.

Definition descKeyword (text : JSString) : option Token :=
  if bool_decide (text = units "function") then Some FunctionKeyword
  else if bool_decide (text = units "let") then Some LetKeyword
  else if bool_decide (text = units "async") then Some AsyncKeyword
  else if bool_decide (text ∈ map units
            ["var"; "const"; "if"; "else"; "for"; "while"; "do"; "return";
             "new"; "this"; "null"; "true"; "false"; "typeof"; "void";
             "delete"; "in"; "instanceof"; "class"; "throw"; "try";
             "catch"; "finally"; "switch"; "case"; "default"; "break";
             "continue"; "with"; "debugger"; "import"; "export";
             "super"; "extends"; "yield"; "await"]%string)
  then Some (Keyword text)
  else None.

Definition tokenDesc (t : Token) : string :=
  match t with
  | EndOfSource => "end of source"
  | Identifier => "identifier"
  | NumericLiteral => "number"
  | BigIntLiteral => "bigint"
  | StringLiteral => "string"
  | RegularExpression => "regular expression"
  | Semicolon => ";"
  | LeftBrace => "{"
  | RightBrace => "}"
  | LeftParen => "("
  | RightParen => ")"
  | Comma => ","
  | Assign => "="
  | FunctionKeyword => "function"
  | LetKeyword => "let"
  | AsyncKeyword => "async"
  | _ => "token"
  end.

Definition isBindingPattern (t : Token) : bool :=
  match t with
  | Identifier | LeftBrace | LeftBracket | LetKeyword | AsyncKeyword => true
  | _ => false
  end.

Definition tryCreate (pattern flags : JSString) : Value :=
  VRegExp pattern flags.

(** The digits at the head of [s], their value read after [acc], and
    the rest. *)
Fixpoint digits (s : JSString) (acc : Z) (count : Z) : Z * Z * JSString :=
  match s with
  | c :: r =>
      if (48 <=? c) && (c <=? 57) then digits r (acc * 10 + (c - 48)) (count + 1)
      else (acc, count, s)
  | [] => (acc, count, s)
  end.

(** The same for the mantissa, in doubles: exact as long as the value is
    below 2^53. *)
Fixpoint mantissa (s : JSString) (acc : float) (count : Z)
  : float * Z * JSString :=
  match s with
  | c :: r =>
      if (48 <=? c) && (c <=? 57)
      then mantissa r
             (PrimFloat.add (PrimFloat.mul acc (numberOfZ 10))
                (numberOfZ (c - 48)))
             (count + 1)
      else (acc, count, s)
  | [] => (acc, count, s)
  end.

(** The power of ten as a double, exact up to 10^22. *)
Fixpoint pow10 (n : nat) : float :=
  match n with
  | O => numberOfZ 1
  | S n => PrimFloat.mul (pow10 n) (numberOfZ 10)
  end.

(** Beyond 10^400 every power of ten is infinite. *)
Definition scale (m : float) (e : Z) : float :=
  if e <? 0 then PrimFloat.div m (pow10 (Z.to_nat (Z.min (- e) 400)))
  else PrimFloat.mul m (pow10 (Z.to_nat (Z.min e 400))).

Definition parseFloat (s : JSString) : float :=
  let '(int, n1, r1) := mantissa s (numberOfZ 0) 0 in
  let '(mant, n2, r2) :=
    match r1 with
    | 46 :: r => mantissa r int 0
    | _ => (int, 0, r1)
    end in
  let exp :=
    match r2 with
    | 101 :: 43 :: r | 69 :: 43 :: r | 101 :: r | 69 :: r =>
        let '(e, n, _) := digits r 0 0 in if n =? 0 then 0 else e
    | _ => 0
    end in
  let exp :=
    match r2 with
    | 101 :: 45 :: r | 69 :: 45 :: r =>
        let '(e, n, _) := digits r 0 0 in if n =? 0 then 0 else - e
    | _ => exp
    end in
  if n1 + n2 =? 0 then PrimFloat.nan
  else scale mant (exp - n2).

Definition imports : Imports :=
  Build_Imports isDigit toHex fromCodePoint isIdentifierPart
    isValidIdentifierStart descKeyword tokenDesc isBindingPattern
    tryCreate parseFloat.

End Example.

(** [new Parser(source, options)]: the constructor stores the number 0 in
    [token]; [token0] is the member of [Token] with that value. *)
Record Options : Type := mkOptions {
  next : bool; comments_ : option CollectComments; jsx : bool;
  locations : bool; ranges : bool; raw : bool; v8 : bool
}.

Definition newParser (token0 : Token) (source : JSString) (options : Options)
  : Parser :=
  let opt (b : bool) (bit : Z) (f : Z) : Z := if b then setBits f bit else f in
  let f := opt (next options) Flags.OptionsNext Flags.None in
  let f := opt (bool_decide (is_Some (comments_ options))) Flags.OptionsOnComment f in
  let f := opt (jsx options) Flags.OptionsJSX f in
  let f := opt (locations options) Flags.OptionsLoc f in
  let f := opt (ranges options) Flags.OptionsRanges f in
  let f := opt (raw options) Flags.OptionsRaw f in
  let f := opt (v8 options) Flags.OptionsV8 f in
  mkParser source 0 0 1 f VUndefined token0 0 0 0 0 0 0 [] ∅ None None None
    None (if has f Flags.OptionsOnComment then comments_ options else None)
    None [].

Definition noOptions : Options :=
  mkOptions false None false false false false false.



(** ** Vocabulary of the properties *)

(** The parser right after the first token of [source] has been scanned,
    as [parseStatementList] leaves it before the first statement. *)
Definition afterFirstToken `{Imports} (context : Z) (source : JSString)
    (options : Options) : Result Token :=
  nextToken context (newParser EndOfSource source options).


(** The types that [reinterpretExpressionAsPattern] returns from at once. *)
Definition isPatternForm (n : ESTree.Node) : bool :=
  match n with
  | ESTree.Identifier _ | ESTree.MemberExpression _ _ _
  | ESTree.AssignmentPattern _ _ | ESTree.ArrayPattern _
  | ESTree.ObjectPattern _ => true
  | _ => false
  end.

Definition isSpreadElement (n : ESTree.Node) : bool :=
  match n with ESTree.SpreadElement _ => true | _ => false end.

(** [hasOwn] with the value: the own property [name] of a scope. *)
Definition ownProperty (h : list Scope) (scope : nat) (name : string)
  : option ScopeMasks :=
  o ← h !! scope; props o !! name.

(** The scope fields point into the heap, and a function scope comes with
    a parent scope, as after [initFunctionScope] and [initBlockScope]. *)
Definition validScope (h : list Scope) (scope : option nat) : Prop :=
  match scope with
  | Some r => (r < length h)%nat
  | None => True
  end.

Definition wfScopes (p : Parser) : Prop :=
  validScope (heap p) (functionScope p)
  /\ validScope (heap p) (blockScope p)
  /\ validScope (heap p) (parentScope p)
  /\ (is_Some (functionScope p) -> is_Some (parentScope p)).

(** The name is bound [NonShadowable] on the chain of the block scope of
    a function whose scope exists. *)
Definition lexicallyBound (name : string) (p : Parser) : Prop :=
  is_Some (functionScope p)
  /\ exists b, blockScope p = Some b
               /\ getProp (heap p) b name = Some NonShadowable.

(** The names that [addBlockName] never accepts. *)
Definition isGlobalValueName (name : string) : Prop :=
  name = "Infinity"%string \/ name = "NaN"%string \/ name = "undefined"%string.

(** Both scopes exist, and the name is an own property of the block
    scope or reads as [Shadowable] through its chain. *)
Definition clashesInBlock (name : string) (p : Parser) : Prop :=
  is_Some (functionScope p)
  /\ exists b, blockScope p = Some b
               /\ (hasOwn (heap p) b name = true
                   \/ getProp (heap p) b name = Some Shadowable).

(** The parser that a method leaves behind when it returns. *)
Definition stateAfter {A : Type} (m : M A) (p : Parser) : Parser :=
  match m p with
  | Ok _ p' => p'
  | _ => p
  end.

(** A script without options, before its first token. *)
Definition script (source : string) : Parser :=
  newParser EndOfSource (units source) noOptions.

(** The parser after [advance]. *)
Definition advanced (p : Parser) : Parser :=
  set_column (column p + 1) (set_index (index p + 1) p).

(** The flags of a regular expression, from the words of the
    specification: [g], [i], [m], [u], [y], and [s] when [next] is on;
    each with its bit and its name in the error message. *)
Definition regExpFlagOf (next : bool) (c : Z) : option (Z * string) :=
  if c =? Chars.LowerG then Some (RegExpFlag.Global, "g"%string)
  else if c =? Chars.LowerI then Some (RegExpFlag.IgnoreCase, "i"%string)
  else if c =? Chars.LowerM then Some (RegExpFlag.Multiline, "m"%string)
  else if c =? Chars.LowerU then Some (RegExpFlag.Unicode, "u"%string)
  else if c =? Chars.LowerY then Some (RegExpFlag.Sticky, "y"%string)
  else if (c =? Chars.LowerS) && next then Some (RegExpFlag.DotAll, "s"%string)
  else None.

Definition isRegExpFlag (next : bool) (c : Z) : Prop :=
  is_Some (regExpFlagOf next c).

Definition regExpFlagName (next : bool) (c : Z) : string :=
  match regExpFlagOf next c with
  | Some (_, name) => name
  | None => ""%string
  end.

(** A code unit of the range that the flag loop hands to
    [nextUnicodeChar]. *)
Definition inSurrogateTest (c : Z) : Prop := 55296 <= c <= 56320.

(** The parser with [n] more columns. *)
Definition columnsAhead (n : nat) (p : Parser) : Parser :=
  set_column (column p + Z.of_nat n) p.

(** The parser with its cursor on the code unit [i] of the first line. *)
Definition atIndex (i : Z) (p : Parser) : Parser :=
  set_column i (set_index i p).

(** The parser with its cursor [k] code units further on the same line. *)
Definition movedBy (k : Z) (p : Parser) : Parser :=
  set_column (column p + k) (set_index (index p + k) p).


Definition stopsBefore (P : Z -> Prop) (rest : JSString) : Prop :=
  match rest with
  | [] => True
  | c :: _ => ~ P c
  end.


(** The last character that a digit loop has read: the one that stops
    it, or at the end of the source the last digit. *)
Definition lastRead (ch : num) (ds rest : JSString) : num :=
  match rest with
  | c :: _ => Some c
  | [] => match last ds with Some d => Some d | None => ch end
  end.






(** [tokenRaw] is recorded under the [raw] option only. *)
Definition recordRaw (text : JSString) (p : Parser) : Parser :=
  if has (flags p) Flags.OptionsRaw then set_tokenRaw text p else p.

(** The mask after the flags [seen]: a flag has its bit in it exactly
    when it is among them. *)
Definition maskOf (next : bool) (seen : list Z) (mask : Z) : Prop :=
  forall c bit name,
    regExpFlagOf next c = Some (bit, name) ->
    (has mask bit = true <-> c ∈ seen).

(** ** Outcomes of a method

    [outcome m Q E p]: run from [p], the method [m] returns a value and a
    parser that satisfy [Q], or throws an error that satisfies [E]; it
    neither breaks on [undefined] nor runs out of fuel. *)
Definition outcome {A : Type} (m : M A) (Q : A -> Parser -> Prop)
    (E : Errors -> list string -> Parser -> Prop) (p : Parser) : Prop :=
  match m p with
  | Ok a p' => Q a p'
  | Throw type params p' => E type params p'
  | TypeError _ => False
  | OutOfFuel => False
  end.


(** ** Scope tracking: callers and invariants *)

(** The scope bookkeeping of [parseCatchClause] before the parameter and
    after the body. *)
Definition parseCatchClause_enter : M (option nat * option nat) :=
  p <- get ;;
  (if bool_decide (is_Some (blockScope p))
   then modify (set_parentScope (blockScope p)) else pure tt) ;;
  modify (set_blockScope None) ;;
  pure (blockScope p, parentScope p).

Definition parseCatchClause_exit (saved : option nat * option nat)
  : M unit :=
  modify (set_blockScope (fst saved)) ;;
  if bool_decide (is_Some (fst saved))
  then modify (set_parentScope (snd saved)) else pure tt.

(** The declarations that reach the scope maps, and the method that
    records each. *)
Inductive Declaration : Type :=
| VarName (name : string)
| BlockName (name : string)
| FunctionArg (name : string)
| CatchArg (name : string) (type : ScopeMasks).

Definition declare (d : Declaration) : M unit :=
  match d with
  | VarName name => addVarName name
  | BlockName name => addBlockName name
  | FunctionArg name => addFunctionArg name
  | CatchArg name type => addCatchArg name type
  end.

(** [for (...) f(x);] *)
Definition forEach {A : Type} (f : A -> M unit) : list A -> M unit :=
  fix go (l : list A) : M unit :=
    match l with
    | [] => pure tt
    | x :: l => f x ;; go l
    end.

Definition declareAll : list Declaration -> M unit := forEach declare.

(** The scope events of a piece of program, in the order in which the
    parser meets them: a declaration, and the events of a block
    ([parseBlockStatement], with its context), of a catch clause after its
    keyword ([parseCatchClause]) and of the parameters and body of a
    function (between [enterFunctionScope] and [exitFunctionScope]). *)
#[warnings="-register-all"]
Inductive ScopeEvent : Type :=
| Declares (d : Declaration)
| InBlock (context : Z) (body : list ScopeEvent)
| InCatch (body : list ScopeEvent)
| InFunction (body : list ScopeEvent).

Fixpoint track (e : ScopeEvent) : M unit :=
  match e with
  | Declares d => declare d
  | InBlock context body =>
      saved <- parseBlockStatement_enter context ;;
      forEach track body ;;
      parseBlockStatement_exit saved
  | InCatch body =>
      saved <- parseCatchClause_enter ;;
      forEach track body ;;
      parseCatchClause_exit saved
  | InFunction body =>
      saved <- enterFunctionScope ;;
      forEach track body ;;
      exitFunctionScope saved
  end.

(** Every prototype link of the heap points to an older object. *)
Definition wfHeap (h : list Scope) : Prop :=
  forall r o parent,
    h !! r = Some o -> proto o = Some parent -> (parent < r)%nat.

(** The invariant of the scope fields: they hold objects of the heap, a
    function scope comes with a parent scope and a block scope with a
    function scope, and the prototype links are well founded. *)
Definition scopesOk (p : Parser) : Prop :=
  wfScopes p /\ wfHeap (heap p)
  /\ (is_Some (blockScope p) -> is_Some (functionScope p)).

(** The scope fields hold no object older than the [n]-th. *)
Definition youngerThan (n : nat) (scope : option nat) : Prop :=
  match scope with
  | Some r => (n <= r)%nat
  | None => True
  end.

Definition scopesFrom (n : nat) (p : Parser) : Prop :=
  youngerThan n (functionScope p) /\ youngerThan n (blockScope p)
  /\ youngerThan n (parentScope p).

(** What scope bookkeeping may do: return with valid scopes over a heap
    that has only grown, or throw [DuplicateIdentifier]; it never reads a
    property of [undefined]. *)
Definition keepsScopes {A : Type} (m : M A) (p : Parser) : Prop :=
  outcome m
    (fun _ p' =>
       scopesOk p' /\ (length (heap p) <= length (heap p'))%nat
       /\ (forall f, functionScope p = Some f -> functionScope p' = Some f))
    (fun type _ _ => type = DuplicateIdentifier) p.

(** A method that, when it returns, has kept the scope fields off the
    first [n] objects of the heap and these objects as they were. *)
Definition leavesOlder {A : Type} (n : nat) (m : M A) (q : Parser) : Prop :=
  forall a q',
    m q = Ok a q' ->
    scopesFrom n q' /\ take n (heap q') = take n (heap q).

(** A body that keeps this frame from every state whose scopes are valid
    and off the first [n] objects. *)
Definition framed {A : Type} (n : nat) (body : M A) : Prop :=
  forall q, scopesOk q -> scopesFrom n q -> (n <= length (heap q))%nat ->
            leavesOlder n body q.

(** ** Vocabulary of the scanner properties *)

(** A code unit that the token loop skips: white space or a line
    terminator. *)
Definition isBlank (c : Z) : Prop :=
  isWhiteSpace (Some c) = true \/ isLineBreak (Some c) = true.

(** A code unit that [scanString] takes as it is: not the closing quote,
    not a backslash, not a line terminator. *)
Definition isPlainIn (quote : Z) (c : Z) : Prop :=
  c <> quote /\ c <> Chars.Backslash /\ isLineBreak (Some c) = false.

(** The number of code units up to and with the first [*/] of a text. *)
Fixpoint commentEnd (s : JSString) : option Z :=
  match s with
  | a :: (b :: _) as t =>
      if (a =? Chars.Asterisk) && (b =? Chars.Slash) then Some 2
      else (fun k => k + 1) <$> commentEnd t
  | _ => None
  end.

(** The code units that end a single-line comment with the text [rest]
    after it: the line terminator, and a line feed that follows it. *)
Definition lineEnd (rest : JSString) : JSString :=
  match rest with
  | [] => []
  | c :: rest' =>
      match rest' with
      | c' :: _ => if c' =? Chars.LineFeed then [c; c'] else [c]
      | [] => [c]
      end
  end.

(** The number that digits denote in the base [2 ^ k], most significant
    digit first, from the value [v] of the digits before them. *)
Definition radixValue (k : Z) (digit : Z -> Z) (ds : JSString) (v : Z) : Z :=
  fold_left (fun v d => 2 ^ k * v + digit d) ds v.

(** An octal digit that the imported [isDigit] accepts. *)
Definition isOctalDigit `{Imports} (d : Z) : Prop :=
  isDigit (Some d) = true /\ Chars.Zero <= d < Chars.Eight.

(** A code unit that [scanTemplate] appends as it is: no backtick, no
    dollar sign, no backslash and no carriage return. *)
Definition isPlainInTemplate (c : Z) : Prop :=
  c <> Chars.Backtick /\ c <> Chars.Dollar /\ c <> Chars.Backslash
  /\ c <> Chars.CarriageReturn.

(** The text of a template without substitution, as far as the code
    units are appended as they are: plain code units, and dollar signs
    that no left brace follows. *)
Fixpoint templateText (body : JSString) : Prop :=
  match body with
  | [] => True
  | c :: rest =>
      (isPlainInTemplate c
       \/ (c = Chars.Dollar /\ head rest <> Some Chars.LeftBrace))
      /\ templateText rest
  end.

(** The text of a regular expression body as [scanRegularExpression]
    reads it: code units, escapes (a backslash and the code unit after
    it) and classes in brackets, whose members are code units and
    escapes. *)
Inductive ClassAtom : Type :=
| ClassUnit (c : Z)
| ClassEscape (c : Z).

Inductive RegExpAtom : Type :=
| BodyUnit (c : Z)
| BodyEscape (c : Z)
| BodyClass (members : list ClassAtom).

Definition classText (m : ClassAtom) : JSString :=
  match m with
  | ClassUnit c => [c]
  | ClassEscape c => [Chars.Backslash; c]
  end.

Definition atomText (a : RegExpAtom) : JSString :=
  match a with
  | BodyUnit c => [c]
  | BodyEscape c => [Chars.Backslash; c]
  | BodyClass members =>
      Chars.LeftBracket :: concat (map classText members)
        ++ [Chars.RightBracket]
  end.

Definition bodyText (atoms : list RegExpAtom) : JSString :=
  concat (map atomText atoms).

(** A code unit that stands for itself outside a class, and inside one. *)
Definition plainInBody (c : Z) : bool :=
  negb (oneOf (Some c)
          [Chars.Slash; Chars.Backslash; Chars.LeftBracket;
           Chars.CarriageReturn; Chars.LineFeed; Chars.LineSeparator;
           Chars.ParagraphSeparator]).

Definition plainInClass (c : Z) : bool :=
  negb (oneOf (Some c)
          [Chars.Backslash; Chars.RightBracket;
           Chars.CarriageReturn; Chars.LineFeed; Chars.LineSeparator;
           Chars.ParagraphSeparator]).

Definition classAtomOk (m : ClassAtom) : Prop :=
  match m with
  | ClassUnit c => plainInClass c = true
  | ClassEscape _ => True
  end.

Definition atomOk (a : RegExpAtom) : Prop :=
  match a with
  | BodyUnit c => plainInBody c = true
  | BodyEscape _ => True
  | BodyClass members => Forall classAtomOk members
  end.

(** The text after an identifier: the end of the source, or a code unit
    that is neither an identifier part nor a backslash. *)
Definition endsIdentifier `{Imports} (rest : JSString) : Prop :=
  match rest with
  | [] => True
  | c :: _ => isIdentifierPart (Some c) = false /\ c <> Chars.Backslash
  end.

(** What the scanner has no write to: the source text, the label set,
    the three scope fields with the scope objects, and the error
    location. *)
Definition untouched (p q : Parser) : Prop :=
  source q = source p /\ labelSet q = labelSet p
  /\ blockScope q = blockScope p /\ parentScope q = parentScope p
  /\ functionScope q = functionScope p
  /\ errorLocation q = errorLocation p /\ heap q = heap p.

(** A method frames the parser when the state it returns or throws in
    has these fields as they were. *)
Definition frames {A : Type} (m : M A) : Prop :=
  forall p,
    match m p with
    | Ok _ q => untouched p q
    | Throw _ _ q => untouched p q
    | TypeError q => untouched p q
    | OutOfFuel => True
    end.

(** A method goes on by [j] from [p] when it returns, with the same
    source and the cursor at least [j] code units further, or throws; it
    neither breaks on [undefined] nor runs out of fuel. *)
Definition goes {A : Type} (j : Z) (m : M A) (p : Parser) : Prop :=
  outcome m
    (fun _ q => source q = source p /\ index p + j <= index q)
    (fun _ _ _ => True) p.

(** An arm of the [switch] of [scanToken] that continues the loop has
    moved the cursor. *)
Definition armGoes (m : M (option Token)) (p : Parser) : Prop :=
  outcome m
    (fun r q => source q = source p /\ index p <= index q
                /\ (r = None -> index p < index q))
    (fun _ _ _ => True) p.

(** The fuel that a loop over the source needs from [p]. *)
Definition enoughFuel (fuel : nat) (p : Parser) : Prop :=
  (0 < fuel)%nat /\ jslength (source p) - index p < Z.of_nat fuel.

(** * Properties *)


Lemma charCodeAt_Some (s : JSString) (i c : Z) :
  charCodeAt s i = Some c -> 0 <= i < jslength s.
Proof.
  unfold charCodeAt, jslength. destruct (i <? 0) eqn:E; [discriminate |].
  intros Hl. apply lookup_lt_Some in Hl. lia.
Qed.


(** ** Automatic semicolon insertion *)

Section ASI.
Context `{Imports}.

Lemma canConsumeSemicolon_spec (p : Parser) :
  canConsumeSemicolon p =
    has (flags p) Flags.LineTerminator
    || bool_decide (token p = Semicolon)
    || bool_decide (token p = RightBrace)
    || bool_decide (token p = EndOfSource).
Proof.
  unfold canConsumeSemicolon.
  destruct (has (flags p) Flags.LineTerminator); [reflexivity |].
  destruct (token p); reflexivity.
Qed.

Lemma expect_current (context : Z) (t : Token) (p : Parser) :
  token p = t -> expect context t p = (nextToken context ;; pure tt) p.
Proof.
  intros E. unfold expect, bind, get, gets, errorIf.
  rewrite (bool_decide_eq_true_2 _ E). reflexivity.
Qed.

(** C1 (as amended): [consumeSemicolon] consumes a [;] by scanning the
    next token, so its outcome is then that of [nextToken]; on [}], on
    end of source and under the [LineTerminator] flag it succeeds and
    leaves the parser as it is; in every other state it throws
    [UnexpectedToken] from the unchanged parser. *)
Theorem consumeSemicolon_spec (context : Z) (p : Parser) :
  consumeSemicolon context p =
    if bool_decide (token p = Semicolon)
    then (nextToken context ;; pure tt) p
    else if has (flags p) Flags.LineTerminator
            || bool_decide (token p = RightBrace)
            || bool_decide (token p = EndOfSource)
    then Ok tt p
    else Throw UnexpectedToken [tokenDesc (token p)] p.
Proof.
  unfold consumeSemicolon, bind at 1, get, gets.
  rewrite canConsumeSemicolon_spec.
  destruct (decide (token p = Semicolon)) as [E | E].
  - rewrite !(bool_decide_eq_true_2 _ E), orb_true_r. simpl.
    now apply expect_current.
  - rewrite !(bool_decide_eq_false_2 _ E), orb_false_r.
    destruct (_ || _); reflexivity.
Qed.

End ASI.

(** C1, counterexample: after the first token of [;'] the current token
    is [;], yet [consumeSemicolon] fails, with the [UnterminatedString]
    of the token that follows. *)
Lemma consumeSemicolon_fails_after_semicolon :
  match @afterFirstToken Example.imports Context.None (units ";'") noOptions with
  | Ok _ p =>
      token p = Semicolon
      /\ exists p', @consumeSemicolon Example.imports Context.None p
                    = Throw UnterminatedString [] p'
  | _ => False
  end.
Proof. vm_compute. split; [reflexivity | eexists; reflexivity]. Qed.

(** ** Lookahead probes *)

Section Probes.
Context `{Imports}.

Lemma rewindState_restores (context : Z) (p q : Parser) :
  exists q', rewindState (saveState p) q = Ok tt q'
             /\ saveState q' = saveState p.
Proof. eexists. split; reflexivity. Qed.


End Probes.


(** ** Reinterpretation of expressions as patterns *)

Section ReinterpretProperties.
Context `{Imports}.
Import ESTree.

Lemma reinterpret_pattern_form (context : Z) (n : Node) (p : Parser) :
  isPatternForm n = true ->
  reinterpretExpressionAsPattern context n p = Ok n p.
Proof. destruct n; simpl; intros E; try discriminate; reflexivity. Qed.

(** What the walker returns is a pattern form or a [RestElement]. *)
Lemma reinterpret_result (context : Z) (n n' : Node) (p p' : Parser) :
  reinterpretExpressionAsPattern context n p = Ok n' p' ->
  isPatternForm n' = true \/ (isSpreadElement n = true /\ exists a, n' = RestElement a).
Proof.
  destruct n; simpl; unfold unexpectedToken, bind, pure, get, gets, error;
    intros E; try discriminate.
  - inversion E; subst; now left.
  - inversion E; subst; now left.
  - inversion E; subst; now left.
  - inversion E; subst; now left.
  - inversion E; subst; now left.
  - destruct (_ properties p); try discriminate. inversion E; subst; now left.
  - destruct (_ elements p); try discriminate. inversion E; subst; now left.
  - destruct (negb _); try discriminate.
    destruct (reinterpretExpressionAsPattern context n1 p); try discriminate.
    inversion E; subst; now left.
  - right. split; [reflexivity |].
    destruct n; simpl in E; try discriminate;
      match type of E with
      | context [match ?m with _ => _ end] =>
          destruct m; try discriminate; inversion E; subst; eauto
      | _ => inversion E; subst; eauto
      end.
Qed.

(** C2 (as amended): on a node of type [Identifier], [MemberExpression],
    [AssignmentPattern], [ArrayPattern] or [ObjectPattern] the walker
    returns the node as it is, without error and without touching the
    parser; hence on every node that is not a [SpreadElement], walking
    twice is walking once. *)
Theorem reinterpret_idempotent (context : Z) (n : Node) (p : Parser) :
  (isPatternForm n = true ->
     reinterpretExpressionAsPattern context n p = Ok n p)
  /\ (isSpreadElement n = false ->
       (n' <- reinterpretExpressionAsPattern context n ;;
        reinterpretExpressionAsPattern context n') p
       = reinterpretExpressionAsPattern context n p).
Proof.
  split; [apply reinterpret_pattern_form |].
  intros Hs. unfold bind.
  destruct (reinterpretExpressionAsPattern context n p) as [n' p' | | |] eqn:E;
    try reflexivity.
  destruct (reinterpret_result _ _ _ _ _ E) as [Hp | [Hc _]].
  - now apply reinterpret_pattern_form.
  - congruence.
Qed.

End ReinterpretProperties.

(** C2, witness: an identifier is returned as it is; the object literal
    [{a: b}] becomes an object pattern, and walking the result again
    changes nothing. *)
Lemma reinterpret_idempotent_witness :
  let n := ESTree.ObjectExpression
             [ESTree.Property "init" (ESTree.Identifier "a")
                (ESTree.Identifier "b") false false false] in
  let p := script "({a: b} = c)" in
  @reinterpretExpressionAsPattern Example.imports Context.None
    (ESTree.Identifier "b") p = Ok (ESTree.Identifier "b") p
  /\ (n' <- @reinterpretExpressionAsPattern Example.imports Context.None n ;;
      @reinterpretExpressionAsPattern Example.imports Context.None n') p
     = @reinterpretExpressionAsPattern Example.imports Context.None n p.
Proof.
  intros n p. split.
  - exact (proj1 (@reinterpret_idempotent Example.imports Context.None
                    (ESTree.Identifier "b") p) eq_refl).
  - exact (proj2 (@reinterpret_idempotent Example.imports Context.None n p)
             eq_refl).
Defined.

(** C2, counterexample: the walker turns the spread element [...a] into
    a rest element and succeeds; applied to that result it throws
    [UnexpectedToken], so that walking twice is not walking once. *)
Lemma reinterpret_twice_spread :
  let n := ESTree.SpreadElement (ESTree.Identifier "a") in
  let p := script "[...a] = b" in
  @reinterpretExpressionAsPattern Example.imports Context.None n p
    = Ok (ESTree.RestElement (ESTree.Identifier "a")) p
  /\ (n' <- @reinterpretExpressionAsPattern Example.imports Context.None n ;;
      @reinterpretExpressionAsPattern Example.imports Context.None n') p
     = Throw UnexpectedToken ["end of source"%string] p.
Proof. split; reflexivity. Qed.

(** ** Scope tracking *)

Section ScopeProperties.

Lemma ownProperty_alter_insert (h : list Scope) (r : nat) (name : string)
    (v : ScopeMasks) :
  (r < length h)%nat ->
  ownProperty
    (alter (fun o => mkScope (proto o) (<[name := v]> (props o))) r h) r name
  = Some v.
Proof.
  intros Hr. unfold ownProperty.
  destruct (lookup_lt_is_Some_2 h r Hr) as [o Ho].
  rewrite list_lookup_alter_eq, Ho. simpl. apply lookup_insert_eq.
Qed.

Lemma lexicallyBound_dec (name : string) (p : Parser) :
  lexicallyBound name p \/ ~ lexicallyBound name p.
Proof.
  unfold lexicallyBound.
  destruct (functionScope p) as [f |]; [| right; intros [[? ?] _]; discriminate].
  destruct (blockScope p) as [b |];
    [| right; intros [_ (b & ? & _)]; discriminate].
  destruct (decide (getProp (heap p) b name = Some NonShadowable)) as [E | E].
  - left. split; [eauto | eauto].
  - right. intros [_ (b' & Hb & Hg)]. congruence.
Qed.

(** C10: [addVarName] throws [DuplicateIdentifier] exactly when a function
    scope exists and the name reads as [NonShadowable] through the chain
    of the block scope; in every other state, thus also when the name is
    already a [Shadowable] binding, it succeeds and the function scope
    then holds the name as [Shadowable]. *)
Theorem addVarName_spec (name : string) (p : Parser) :
  wfScopes p ->
  (lexicallyBound name p ->
     addVarName name p = Throw DuplicateIdentifier [name] p)
  /\ (~ lexicallyBound name p ->
       exists p' f, addVarName name p = Ok tt p'
                    /\ functionScope p' = Some f
                    /\ ownProperty (heap p') f name = Some Shadowable).
Proof.
  intros (Hf & Hb & Hp & Hfp).
  unfold lexicallyBound, addVarName, initFunctionScope, setScopeProperty,
    setProperty, objectCreate, bind, get, gets, modify, pure, errorIf, error.
  destruct (functionScope p) as [f |] eqn:Ef; simpl.
  - destruct (blockScope p) as [b |] eqn:Eb; simpl.
    + destruct (decide (getProp (heap p) b name = Some NonShadowable))
        as [E | E].
      * rewrite (bool_decide_eq_true_2 _ E). simpl. split.
        -- reflexivity.
        -- intros Hn. exfalso. apply Hn. eauto.
      * rewrite (bool_decide_eq_false_2 _ E). simpl. rewrite Ef. split.
        -- intros [_ (b' & Hb' & Hg)]. congruence.
        -- intros _. do 2 eexists. split; [reflexivity |]. simpl.
           split; [exact Ef |]. now apply ownProperty_alter_insert.
    + unfold pure. rewrite Ef. split.
      * intros [_ (b' & Hb' & _)]. discriminate.
      * intros _. do 2 eexists. split; [reflexivity |]. simpl.
        split; [exact Ef |]. now apply ownProperty_alter_insert.
  - split.
    + intros [[? ?] _]. discriminate.
    + intros _. do 2 eexists. split; [reflexivity |]. simpl.
      split; [reflexivity |].
      apply ownProperty_alter_insert. rewrite length_app. simpl. lia.
Qed.

Lemma clashesInBlock_dec (name : string) (p : Parser) :
  clashesInBlock name p \/ ~ clashesInBlock name p.
Proof.
  unfold clashesInBlock.
  destruct (functionScope p) as [f |]; [| right; intros [[? ?] _]; discriminate].
  destruct (blockScope p) as [b |];
    [| right; intros [_ (b & ? & _)]; discriminate].
  destruct (hasOwn (heap p) b name) eqn:Eo.
  - left. split; [eauto |]. exists b. split; [reflexivity | now left].
  - destruct (decide (getProp (heap p) b name = Some Shadowable)) as [E | E].
    + left. split; [eauto |]. exists b. split; [reflexivity | now right].
    + right. intros [_ (b' & Hb & [Ho | Hg])]; inversion Hb; subst; congruence.
Qed.

Lemma isGlobalValueName_test (name : string) :
  bool_decide (name = "Infinity"%string) || bool_decide (name = "NaN"%string)
  || bool_decide (name = "undefined"%string) = true
  <-> isGlobalValueName name.
Proof.
  unfold isGlobalValueName.
  rewrite !orb_true_iff, !bool_decide_eq_true. tauto.
Qed.


End ScopeProperties.

(** C10, witness: after [var x] a second [var x] is accepted. *)
Lemma addVarName_spec_witness :
  let p := stateAfter (addVarName "x") (script "var x; var x") in
  wfScopes p
  /\ ~ lexicallyBound "x" p
  /\ exists p' f, addVarName "x" p = Ok tt p'
                  /\ functionScope p' = Some f
                  /\ ownProperty (heap p') f "x" = Some Shadowable.
Proof.
  intros p.
  assert (Hwf : wfScopes p).
  { repeat split; simpl; try lia. intros _. eauto. }
  assert (Hn : ~ lexicallyBound "x" p).
  { intros [_ (b & Hb & Hg)]. inversion Hb; subst. vm_compute in Hg.
    discriminate. }
  split; [exact Hwf |]. split; [exact Hn |].
  exact (proj2 (addVarName_spec "x" p Hwf) Hn).
Defined.



(** ** The number sign *)

Section Hash.
Context `{Imports}.

(** What the [case Chars.Hash:] arm does: a shebang at index 0 is skipped
    and the loop continues; any other [#] is consumed as if it were [{]. *)
Lemma scanTokenCase_hash (context : Z) (p : Parser) :
  scanTokenCase context (Some Chars.Hash) p =
    if (index p =? 0)
       && eqn (charCodeAt (source p) (index p + 1)) Chars.Exclamation
    then (advanceTwice ;; skipShebangComment ;; continue) p
    else Ok (Some LeftBrace) (set_column (column p + 1) (set_index (index p + 1) p)).
Proof.
  unfold scanTokenCase.
  repeat lazymatch goal with
         | |- (if ?c then _ else _) _ = _ =>
             let v := eval vm_compute in c in
             change c with v; cbv iota
         end.
  unfold bind at 1, get, gets.
  destruct (_ && _); reflexivity.
Qed.

End Hash.

(** C6, the code at the failing inputs: a lone [#], a [#] at index 0
    that no [!] follows, and a [#!] that is not at index 0 all scan as the
    token [{], without any error. *)
Theorem hash_scans_as_left_brace :
  (exists p, @afterFirstToken Example.imports Context.None (units "#") noOptions
             = Ok LeftBrace p /\ index p = 1)
  /\ (exists p, @afterFirstToken Example.imports Context.None (units "#x") noOptions
                = Ok LeftBrace p /\ index p = 1)
  /\ (exists p, @afterFirstToken Example.imports Context.None (units " #!x") noOptions
                = Ok LeftBrace p /\ index p = 2).
Proof.
  split; [| split]; eexists; (split; [vm_compute; reflexivity | reflexivity]).
Qed.

(** A shebang at index 0 is skipped up to the end of its line, and
    nothing is collected even when comments are. *)
Lemma shebang_skipped_not_collected :
  exists p,
    @afterFirstToken Example.imports Context.None (units "#!a
;") (mkOptions false (Some (CommentsArray [])) false false false false false)
    = Ok Semicolon p
    /\ comments p = Some (CommentsArray []).
Proof. eexists. split; [vm_compute; reflexivity | reflexivity]. Qed.

(** ** Octal escapes in string literals *)

Section StringEscapes.
Context `{Imports}.






End StringEscapes.



(** ** Flags of regular expression literals *)

Section RegExpFlags.
Context `{Imports}.

Lemma has_setBits_same (m b : Z) : b <> 0 -> has (setBits m b) b = true.
Proof.
  intros Hb. unfold has, setBits. apply negb_true_iff, Z.eqb_neq.
  rewrite Z.land_lor_distr_l, Z.land_diag. intros E.
  apply Z.lor_eq_0_iff in E. tauto.
Qed.

Lemma has_setBits_other (m a b : Z) :
  Z.land a b = 0 -> has (setBits m a) b = has m b.
Proof.
  intros E. unfold has, setBits.
  now rewrite Z.land_lor_distr_l, E, Z.lor_0_r.
Qed.

Lemma regExpFlagOf_cases (next : bool) (c bit : Z) (name : string) :
  regExpFlagOf next c = Some (bit, name) ->
  (c = Chars.LowerG /\ bit = RegExpFlag.Global)
  \/ (c = Chars.LowerI /\ bit = RegExpFlag.IgnoreCase)
  \/ (c = Chars.LowerM /\ bit = RegExpFlag.Multiline)
  \/ (c = Chars.LowerU /\ bit = RegExpFlag.Unicode)
  \/ (c = Chars.LowerY /\ bit = RegExpFlag.Sticky)
  \/ (c = Chars.LowerS /\ bit = RegExpFlag.DotAll).
Proof.
  unfold regExpFlagOf.
  destruct (Z.eqb_spec c Chars.LowerG) as [-> | _]; [intros [= <- _]; auto 12 |].
  destruct (Z.eqb_spec c Chars.LowerI) as [-> | _]; [intros [= <- _]; auto 12 |].
  destruct (Z.eqb_spec c Chars.LowerM) as [-> | _]; [intros [= <- _]; auto 12 |].
  destruct (Z.eqb_spec c Chars.LowerU) as [-> | _]; [intros [= <- _]; auto 12 |].
  destruct (Z.eqb_spec c Chars.LowerY) as [-> | _]; [intros [= <- _]; auto 12 |].
  destruct (Z.eqb_spec c Chars.LowerS) as [-> | _]; [| discriminate].
  destruct next; [intros [= <- _]; auto 12 | discriminate].
Qed.

(** Two flags have the same bit only when they are the same flag. *)
Lemma regExpFlag_bits (next : bool) (c c' bit bit' : Z) (name name' : string) :
  regExpFlagOf next c = Some (bit, name) ->
  regExpFlagOf next c' = Some (bit', name') ->
  bit <> 0 /\ (c <> c' -> Z.land bit bit' = 0).
Proof.
  intros Hc Hc'.
  apply regExpFlagOf_cases in Hc. apply regExpFlagOf_cases in Hc'.
  destruct Hc as [[-> ->] | [[-> ->] | [[-> ->] | [[-> ->] | [[-> ->] | [-> ->]]]]]];
  destruct Hc' as [[-> ->] | [[-> ->] | [[-> ->] | [[-> ->] | [[-> ->] | [-> ->]]]]]];
  (split; [discriminate | intros Hne; try reflexivity; now elim Hne]).
Qed.

Ltac flag_arm :=
  simpl; unfold bind, errorIf, error, pure, modify, columnsAhead;
  match goal with |- context [has ?m ?b] => destruct (has m b) end;
  reflexivity.

(** One turn of the flag loop on an identifier character [x]. *)
Lemma scanRegExpFlags_step (fuel : nat) (i mask x : Z) (p : Parser) :
  charCodeAt (source p) i = Some x ->
  isIdentifierPart (Some x) = true ->
  scanRegExpFlags (S fuel) i mask p =
    match regExpFlagOf (has (flags p) Flags.OptionsNext) x with
    | Some (bit, name) =>
        if has mask bit then Throw DuplicateRegExpFlag [name] p
        else scanRegExpFlags fuel (i + 1) (setBits mask bit)
               (columnsAhead 1 p)
    | None =>
        (code <- (if geqn (Some x) 55296 && leqn (Some x) 56320
                  then nextUnicodeChar else pure (Some x)) ;;
         if negb (isIdentifierPart code) then pure i
         else error UnexpectedTokenRegExpFlag []) p
    end.
Proof.
  intros Hx Hid. pose proof (charCodeAt_Some _ _ _ Hx) as Hb.
  simpl. unfold bind at 1, get, gets.
  replace (i <? jslength (source p)) with true
    by (symmetry; apply Z.ltb_lt; lia).
  rewrite Hx, Hid. cbv iota. simpl negb. cbv iota.
  unfold regExpFlagOf, eqn.
  destruct (x =? Chars.LowerG); [flag_arm |].
  destruct (x =? Chars.LowerI); [flag_arm |].
  destruct (x =? Chars.LowerM); [flag_arm |].
  destruct (x =? Chars.LowerU); [flag_arm |].
  destruct (x =? Chars.LowerY); [flag_arm |].
  destruct (x =? Chars.LowerS); [| reflexivity].
  destruct (has (flags p) Flags.OptionsNext); [flag_arm | reflexivity].
Qed.


Lemma maskOf_nil (next : bool) : maskOf next [] RegExpFlag.None.
Proof.
  intros c bit name _. unfold has, RegExpFlag.None. rewrite Z.land_0_l.
  simpl. split; [discriminate | intros Hc; inversion Hc].
Qed.

Lemma maskOf_snoc (next : bool) (seen : list Z) (mask f bit : Z) (name : string) :
  maskOf next seen mask ->
  regExpFlagOf next f = Some (bit, name) ->
  maskOf next (seen ++ [f]) (setBits mask bit).
Proof.
  intros Hm Hf c bit' name' Hc. rewrite elem_of_app, list_elem_of_singleton.
  destruct (decide (c = f)) as [-> | Hne].
  - rewrite Hf in Hc. inversion Hc; subst.
    destruct (regExpFlag_bits _ _ _ _ _ _ _ Hf Hf) as [Hb _].
    rewrite has_setBits_same by exact Hb. tauto.
  - destruct (regExpFlag_bits _ _ _ _ _ _ _ Hf Hc) as [_ Hz].
    rewrite has_setBits_other by (apply Hz; congruence).
    rewrite (Hm c bit' name' Hc). tauto.
Qed.

Lemma charCodeAt_middle (pre post : JSString) (c : Z) :
  charCodeAt (pre ++ c :: post) (jslength pre) = Some c.
Proof.
  unfold charCodeAt, jslength.
  replace (Z.of_nat (length pre) <? 0) with false
    by (symmetry; apply Z.ltb_ge; lia).
  rewrite Nat2Z.id. now rewrite list_lookup_middle.
Qed.

Lemma columnsAhead_add (n m : nat) (p : Parser) :
  columnsAhead n (columnsAhead m p) = columnsAhead (m + n) p.
Proof.
  unfold columnsAhead. destruct p. simpl. unfold set_column. simpl.
  f_equal. lia.
Qed.

(** The loop over a run [fs] of flags that are all different, reached
    with the flags [seen] in the mask, up to the character [c] after the
    run. *)
Lemma scanRegExpFlags_run (next : bool) (c : Z) (post : JSString) :
  forall (fs seen pre : JSString) (mask : Z) (fuel : nat) (p : Parser),
    has (flags p) Flags.OptionsNext = next ->
    source p = pre ++ fs ++ c :: post ->
    Forall (fun f => isIdentifierPart (Some f) = true /\ isRegExpFlag next f) fs ->
    NoDup (seen ++ fs) ->
    maskOf next seen mask ->
    (length fs < fuel)%nat ->
    exists mask',
      maskOf next (seen ++ fs) mask'
      /\ scanRegExpFlags fuel (jslength pre) mask p
         = scanRegExpFlags (fuel - length fs) (jslength (pre ++ fs)) mask'
             (columnsAhead (length fs) p).
Proof.
  induction fs as [| f fs IH]; intros seen pre mask fuel p Hnext Hsrc Hfs Hnd Hm Hfuel.
  - exists mask. rewrite !app_nil_r, Nat.sub_0_r. split; [exact Hm |].
    unfold columnsAhead. simpl. rewrite Z.add_0_r. now destruct p.
  - destruct fuel as [| fuel]; [simpl in Hfuel; lia |].
    apply Forall_cons in Hfs as [[Hid [[bit name] Hflag]] Hfs'].
    assert (Hx : charCodeAt (source p) (jslength pre) = Some f)
      by (rewrite Hsrc; apply charCodeAt_middle).
    rewrite (scanRegExpFlags_step fuel (jslength pre) mask f p Hx Hid).
    rewrite Hnext, Hflag.
    assert (Hfresh : has mask bit = false).
    { apply not_true_is_false. intros Ht. apply (Hm f bit name Hflag) in Ht.
      apply NoDup_app in Hnd. destruct Hnd as (_ & Hd & _).
      apply (Hd f Ht). now left. }
    rewrite Hfresh.
    destruct (IH (seen ++ [f]) (pre ++ [f]) (setBits mask bit) fuel
                (columnsAhead 1 p)) as (mask' & Hm' & Hrun).
    + exact Hnext.
    + simpl. rewrite Hsrc. now rewrite <- app_assoc.
    + exact Hfs'.
    + now rewrite <- app_assoc.
    + now apply (maskOf_snoc next seen mask f bit name).
    + simpl in Hfuel. lia.
    + exists mask'. split; [now rewrite <- app_assoc in Hm' |].
      replace (jslength pre + 1) with (jslength (pre ++ [f]))
        by (unfold jslength; rewrite length_app; simpl; lia).
      rewrite Hrun, columnsAhead_add, <- app_assoc. reflexivity.
Qed.

Lemma scanRegExpFlags_stop (fuel : nat) (i mask c : Z) (p : Parser) :
  charCodeAt (source p) i = Some c ->
  isIdentifierPart (Some c) = false ->
  scanRegExpFlags (S fuel) i mask p = Ok i p.
Proof.
  intros Hc Hid. pose proof (charCodeAt_Some _ _ _ Hc) as Hb.
  simpl. unfold bind at 1, get, gets.
  replace (i <? jslength (source p)) with true
    by (symmetry; apply Z.ltb_lt; lia).
  now rewrite Hc, Hid.
Qed.

(** The flag loop from the start of the flags, over a run [fs] of
    different flags and the character [c] after it. *)
Lemma scanRegExpFlags_flags (p : Parser) (pre fs : JSString) (c : Z)
    (post : JSString) (fuel : nat) :
  let next := has (flags p) Flags.OptionsNext in
  source p = pre ++ fs ++ c :: post ->
  Forall (fun f => isIdentifierPart (Some f) = true /\ isRegExpFlag next f) fs ->
  NoDup fs ->
  (length fs < fuel)%nat ->
  (c ∈ fs ->
     scanRegExpFlags fuel (jslength pre) RegExpFlag.None p
     = Throw DuplicateRegExpFlag [regExpFlagName next c]
         (columnsAhead (length fs) p))
  /\ (isIdentifierPart (Some c) = true -> ~ isRegExpFlag next c ->
       ~ inSurrogateTest c ->
       scanRegExpFlags fuel (jslength pre) RegExpFlag.None p
       = Throw UnexpectedTokenRegExpFlag [] (columnsAhead (length fs) p))
  /\ (isIdentifierPart (Some c) = false ->
       scanRegExpFlags fuel (jslength pre) RegExpFlag.None p
       = Ok (jslength (pre ++ fs)) (columnsAhead (length fs) p)).
Proof.
  intros next Hsrc Hfs Hnd Hfuel.
  destruct (scanRegExpFlags_run next c post fs [] pre RegExpFlag.None fuel p
              eq_refl Hsrc Hfs Hnd (maskOf_nil next) Hfuel)
    as (mask' & Hm & Hrun).
  simpl in Hm. rewrite Hrun. clear Hrun.
  destruct (fuel - length fs)%nat as [| rest] eqn:Ef; [lia |].
  set (q := columnsAhead (length fs) p).
  assert (Hc : charCodeAt (source q) (jslength (pre ++ fs)) = Some c).
  { simpl. rewrite Hsrc, app_assoc. apply charCodeAt_middle. }
  split; [| split].
  - intros Hin.
    pose proof (proj1 (Forall_forall _ _) Hfs c Hin) as [Hid [[bit name] Hflag]].
    rewrite (scanRegExpFlags_step rest _ mask' c q Hc Hid).
    change (has (flags q) Flags.OptionsNext) with next.
    unfold regExpFlagName. rewrite Hflag.
    now rewrite (proj2 (Hm c bit name Hflag) Hin).
  - intros Hid Hnf Hns.
    rewrite (scanRegExpFlags_step rest _ mask' c q Hc Hid).
    change (has (flags q) Flags.OptionsNext) with next.
    destruct (regExpFlagOf next c) as [[bit name] |] eqn:Hflag.
    { exfalso. apply Hnf. unfold isRegExpFlag. rewrite Hflag. eauto. }
    unfold inSurrogateTest in Hns. unfold geqn, leqn.
    replace ((55296 <=? c) && (c <=? 56320)) with false.
    + unfold bind, pure, error. now rewrite Hid.
    + symmetry. apply andb_false_iff.
      destruct (Z.leb_spec 55296 c); [right; apply Z.leb_gt; lia | now left].
  - intros Hid. exact (scanRegExpFlags_stop rest _ mask' c q Hc Hid).
Qed.

End RegExpFlags.

(** C3: in the flag loop of [scanRegularExpression], after a run of
    different flags among [g], [i], [m], [u], [y] (and [s] under the
    [next] option), a flag of the run that comes again throws
    [DuplicateRegExpFlag] with the name of the flag, and any other
    identifier character, surrogate code units apart, throws
    [UnexpectedTokenRegExpFlag], while a character that is no identifier
    part ends the flags without error.  In particular the script
    [/./gig;], whose first token the parser scans as a division sign and
    then rescans as a regular expression, throws [DuplicateRegExpFlag]
    for [g]. *)
Theorem regexp_flags_at_most_once :
  (forall (I : Imports) (p : Parser) (pre fs : JSString) (c : Z)
          (post : JSString) (fuel : nat),
     let next := has (flags p) Flags.OptionsNext in
     source p = pre ++ fs ++ c :: post ->
     Forall (fun f => isIdentifierPart (Some f) = true /\ isRegExpFlag next f) fs ->
     NoDup fs ->
     (length fs < fuel)%nat ->
     (c ∈ fs ->
        scanRegExpFlags fuel (jslength pre) RegExpFlag.None p
        = Throw DuplicateRegExpFlag [regExpFlagName next c]
            (columnsAhead (length fs) p))
     /\ (isIdentifierPart (Some c) = true -> ~ isRegExpFlag next c ->
          ~ inSurrogateTest c ->
          scanRegExpFlags fuel (jslength pre) RegExpFlag.None p
          = Throw UnexpectedTokenRegExpFlag [] (columnsAhead (length fs) p))
     /\ (isIdentifierPart (Some c) = false ->
          scanRegExpFlags fuel (jslength pre) RegExpFlag.None p
          = Ok (jslength (pre ++ fs)) (columnsAhead (length fs) p)))
  /\ (forall (context : Z) (token0 : Token),
        exists p',
          (@nextToken Example.imports context ;;
           @scanRegularExpression Example.imports)
            (newParser token0 (units "/./gig;") noOptions)
          = Throw DuplicateRegExpFlag ["g"%string] p').
Proof.
  split.
  - intros I p pre fs c post fuel. apply scanRegExpFlags_flags.
  - intros context token0. eexists. vm_compute. reflexivity.
Qed.

(** C3, witness: the flag loop on [/./gig;], once [/./] is scanned. *)
Lemma regexp_flags_at_most_once_witness :
  let p := stateAfter (@nextToken Example.imports Context.None)
             (script "/./gig;") in
  source p = units "/./" ++ units "gi" ++ 103 :: units ";"
  /\ 103 ∈ units "gi"
  /\ @scanRegExpFlags Example.imports (fuelOf p) 3 RegExpFlag.None p
     = Throw DuplicateRegExpFlag ["g"%string] (columnsAhead 2 p).
Proof.
  intros p.
  assert (Hsrc : source p = units "/./" ++ units "gi" ++ 103 :: units ";")
    by reflexivity.
  assert (Hin : 103 ∈ units "gi") by (simpl; left).
  split; [exact Hsrc |]. split; [exact Hin |].
  refine (proj1 (proj1 regexp_flags_at_most_once Example.imports p
                   (units "/./") (units "gi") 103 (units ";") (fuelOf p)
                   Hsrc _ _ _) Hin).
  - repeat (apply Forall_cons; split;
            [split; [reflexivity | eexists; reflexivity] |]).
    apply Forall_nil_2.
  - apply NoDup_cons. split; [| apply NoDup_singleton].
    intros Hx. apply list_elem_of_singleton in Hx. discriminate.
  - vm_compute. lia.
Defined.

(** ** Numeric literals *)

Section Numbers.
Context `{Imports}.


Lemma movedBy_0 (p : Parser) : movedBy 0 p = p.
Proof. destruct p. unfold movedBy. simpl. unfold set_column, set_index. simpl.
  f_equal; lia. Qed.

Lemma movedBy_add (j k : Z) (p : Parser) :
  movedBy k (movedBy j p) = movedBy (j + k) p.
Proof. destruct p. unfold movedBy, set_column, set_index. simpl. f_equal; lia. Qed.


Lemma charCodeAt_end (s : JSString) : charCodeAt s (jslength s) = None.
Proof.
  unfold charCodeAt, jslength.
  replace (Z.of_nat (length s) <? 0) with false by (symmetry; apply Z.ltb_ge; lia).
  rewrite Nat2Z.id. apply lookup_ge_None. lia.
Qed.









Lemma slice_middle (pre lit rest : JSString) :
  slice (pre ++ lit ++ rest) (jslength pre) (jslength pre + jslength lit)
  = lit.
Proof.
  unfold slice, sliceIndex, jslength. rewrite !length_app.
  replace (Z.of_nat (length pre) <? 0) with false
    by (symmetry; apply Z.ltb_ge; lia).
  replace (Z.of_nat (length pre) + Z.of_nat (length lit) <? 0) with false
    by (symmetry; apply Z.ltb_ge; lia).
  rewrite !Z.min_l by lia.
  replace (Z.to_nat (Z.of_nat (length pre) + Z.of_nat (length lit)
                     - Z.of_nat (length pre))) with (length lit) by lia.
  rewrite Nat2Z.id, drop_app_length. apply take_app_length.
Qed.

Section Outcome.
Context {A B : Type}.
Implicit Types (Q : A -> Parser -> Prop) (E : Errors -> list string -> Parser -> Prop).

Lemma outcome_bind (m : M A) (k : A -> M B) (R : B -> Parser -> Prop) E p :
  outcome m (fun a p' => outcome (k a) R E p') E p ->
  outcome (x <- m ;; k x) R E p.
Proof. unfold outcome, bind. destruct (m p); auto. Qed.

Lemma outcome_pure (a : A) Q E p : Q a p -> outcome (pure a) Q E p.
Proof. auto. Qed.

Lemma outcome_gets (f : Parser -> A) Q E p : Q (f p) p -> outcome (gets f) Q E p.
Proof. auto. Qed.

Lemma outcome_error type params Q E p :
  E type params p -> outcome (@error A type params) Q E p.
Proof. auto. Qed.


Lemma outcome_weaken (m : M A) Q Q' E p :
  outcome m Q E p -> (forall a p', Q a p' -> Q' a p') -> outcome m Q' E p.
Proof. unfold outcome. destruct (m p); auto. Qed.

End Outcome.

Lemma outcome_get (Q : Parser -> Parser -> Prop) E p :
  Q p p -> outcome get Q E p.
Proof. auto. Qed.

Lemma outcome_modify (f : Parser -> Parser) (Q : unit -> Parser -> Prop) E p :
  Q tt (f p) -> outcome (modify f) Q E p.
Proof. auto. Qed.

Lemma outcome_errorIf (c : bool) type params (Q : unit -> Parser -> Prop) E p :
  (c = true -> E type params p) -> (c = false -> Q tt p) ->
  outcome (errorIf c type params) Q E p.
Proof. destruct c; unfold errorIf, outcome, error, pure; auto. Qed.





(** *** Legacy octal literals *)




(** *** Decimal literals with a fraction and an exponent *)







End Numbers.





Section ScopeInvariants.

Lemma wfHeap_snoc (h : list Scope) (parent : option nat) :
  wfHeap h -> validScope h parent -> wfHeap (h ++ [mkScope parent ∅]).
Proof.
  intros Hh Hp r o q Hr Hq.
  destruct (decide (r < length h)%nat) as [Hlt | Hge].
  - rewrite lookup_app_l in Hr by exact Hlt. eapply Hh; eassumption.
  - rewrite lookup_app_r in Hr by lia.
    destruct (r - length h)%nat eqn:E; [| destruct n; discriminate].
    simpl in Hr. inversion Hr; subst o. simpl in Hq. subst parent.
    simpl in Hp. lia.
Qed.

Lemma wfHeap_alter (h : list Scope) (r : nat) (name : string) (v : ScopeMasks) :
  wfHeap h ->
  wfHeap (alter (fun o => mkScope (proto o) (<[name := v]> (props o))) r h).
Proof.
  intros Hh r' o q Hr Hq.
  destruct (decide (r = r')) as [-> | Hne].
  - rewrite list_lookup_alter_eq in Hr.
    destruct (h !! r') as [o' |] eqn:E; [| discriminate].
    simpl in Hr. inversion Hr; subst o. simpl in Hq. eapply Hh; eassumption.
  - rewrite list_lookup_alter_ne in Hr by exact Hne. eapply Hh; eassumption.
Qed.

Lemma keepsScopes_bind {A B : Type} (m : M A) (k : A -> M B) (p : Parser) :
  keepsScopes m p ->
  (forall a p', m p = Ok a p' -> scopesOk p' -> keepsScopes (k a) p') ->
  keepsScopes (x <- m ;; k x) p.
Proof.
  unfold keepsScopes, outcome, bind. intros Hm Hk.
  destruct (m p) as [a p' | | |] eqn:E; try assumption.
  destruct Hm as (Hok & Hlen & Hf).
  specialize (Hk a p' eq_refl Hok).
  destruct (k a p') as [b p'' | | |]; try assumption.
  destruct Hk as (Hok' & Hlen' & Hf').
  split; [exact Hok' |]. split; [lia |]. auto.
Qed.

(** The obligations of [scopesOk] over a heap that grew by fresh objects
    or had the properties of one object altered. *)
Ltac scopes_ok :=
  repeat match goal with
         | |- _ => assumption
         | H : is_Some (Some _) -> is_Some None |- _ =>
             let HH := fresh in
             exfalso; destruct H as [? HH]; [eauto | discriminate HH]
         | H : ?s = Some _ |- context [?s] => rewrite H
         | H : ?s = None |- context [?s] => rewrite H
         | |- scopesOk _ => unfold scopesOk, wfScopes; simpl
         | |- _ /\ _ => split
         | |- validScope _ _ =>
             unfold validScope in *; simpl in *;
             rewrite ?length_alter, ?length_app; simpl; lia
         | |- wfHeap (alter _ _ _) => apply wfHeap_alter
         | |- wfHeap (_ ++ [_]) => apply wfHeap_snoc
         | |- wfHeap _ => assumption
         | |- is_Some _ -> is_Some _ =>
             first [ assumption | intros _; solve [eauto]
                   | let HH := fresh in intros [? HH]; discriminate HH ]
         | |- is_Some (Some _) => eauto
         | |- (_ <= _)%nat =>
             unfold validScope in *; simpl in *;
             rewrite ?length_alter, ?length_app; simpl; lia
         | |- (_ < _)%nat =>
             unfold validScope in *; simpl in *;
             rewrite ?length_alter, ?length_app; simpl; lia
         | |- True => exact I
         | |- ?x = ?x => reflexivity
         | H : is_Some (Some _) -> is_Some None |- False =>
             let HH := fresh in destruct H as [? HH]; [eauto | discriminate HH]
         | |- forall f, _ = Some f -> _ =>
             intros ? ?; simpl; first [discriminate | congruence]
         end.

Lemma initFunctionScope_keeps (p : Parser) :
  scopesOk p -> keepsScopes initFunctionScope p.
Proof.
  intros ((Hf & Hb & Hp & Hfp) & Hh & Hbf).
  unfold keepsScopes, outcome, initFunctionScope, objectCreate, bind, get,
    gets, modify, pure.
  destruct (functionScope p) as [f |] eqn:Ef; simpl.
  - unfold scopesOk, wfScopes. rewrite Ef. auto 10.
  - scopes_ok; simpl in *; scopes_ok.
Qed.

Lemma initBlockScope_keeps (p : Parser) :
  scopesOk p -> keepsScopes initBlockScope p.
Proof.
  intros ((Hf & Hb & Hp & Hfp) & Hh & Hbf).
  unfold keepsScopes, outcome, initBlockScope, objectCreate, bind, get,
    gets, modify, pure.
  destruct (functionScope p) as [f |] eqn:Ef; simpl.
  - destruct (blockScope p) as [b |] eqn:Eb; simpl.
    + unfold scopesOk, wfScopes. rewrite Ef, Eb. auto 10.
    + destruct (parentScope p) as [q |] eqn:Eq; simpl.
      * rewrite Ef. scopes_ok; simpl in *; scopes_ok.
      * destruct Hfp as [? ?]; [eauto | discriminate].
  - scopes_ok; simpl in *; scopes_ok.
Qed.

Lemma setProperty_keeps (scope : nat) (name : string) (v : ScopeMasks)
    (p : Parser) :
  scopesOk p -> keepsScopes (setProperty scope name v) p.
Proof.
  intros ((Hf & Hb & Hp & Hfp) & Hh & Hbf).
  unfold keepsScopes, outcome, setProperty, modify.
  scopes_ok; simpl in *;
    try (destruct (functionScope p), (blockScope p), (parentScope p));
    scopes_ok.
Qed.

(** Unfolds one scope method and splits on the three scope fields. *)
Ltac scope_cases p :=
  unfold keepsScopes, outcome, setScopeProperty, setProperty,
    initFunctionScope, initBlockScope, objectCreate, bind, get, gets, modify,
    pure, errorIf, error;
  destruct (functionScope p) as [?f |] eqn:?Ef;
  destruct (blockScope p) as [?b |] eqn:?Eb;
  destruct (parentScope p) as [?q |] eqn:?Eq; simpl;
  rewrite ?Ef, ?Eb, ?Eq; simpl.

Lemma addCatchArg_keeps (name : string) (type : ScopeMasks) (p : Parser) :
  scopesOk p -> keepsScopes (addCatchArg name type) p.
Proof.
  intros ((Hf & Hb & Hp & Hfp) & Hh & Hbf). unfold addCatchArg.
  scope_cases p; scopes_ok.
Qed.

Lemma addFunctionArg_keeps (name : string) (p : Parser) :
  scopesOk p -> keepsScopes (addFunctionArg name) p.
Proof.
  intros ((Hf & Hb & Hp & Hfp) & Hh & Hbf). unfold addFunctionArg.
  scope_cases p;
    try match goal with |- context [hasProperty ?h ?f ?n] =>
          destruct (hasProperty h f n); simpl end;
    scopes_ok.
Qed.

Lemma addVarName_keeps (name : string) (p : Parser) :
  scopesOk p -> keepsScopes (addVarName name) p.
Proof.
  intros ((Hf & Hb & Hp & Hfp) & Hh & Hbf). unfold addVarName.
  scope_cases p;
    try match goal with |- context [bool_decide ?P] =>
          destruct (bool_decide P); simpl end;
    rewrite ?Ef; scopes_ok.
Qed.

Lemma addBlockName_keeps (name : string) (p : Parser) :
  scopesOk p -> keepsScopes (addBlockName name) p.
Proof.
  intros ((Hf & Hb & Hp & Hfp) & Hh & Hbf). unfold addBlockName.
  unfold keepsScopes, outcome, bind at 1, errorIf at 1.
  destruct (bool_decide (name = "Infinity"%string) || bool_decide (name = "NaN"%string)
            || bool_decide (name = "undefined"%string)); [reflexivity |].
  unfold pure at 1.
  scope_cases p;
    try match goal with |- context [?x || hasOwn ?h ?b ?n] =>
          destruct (x || hasOwn h b n); simpl end;
    scopes_ok.
Qed.

Lemma parseBlockStatement_enter_keeps (context : Z) (p : Parser) :
  scopesOk p -> keepsScopes (parseBlockStatement_enter context) p.
Proof.
  intros ((Hf & Hb & Hp & Hfp) & Hh & Hbf). unfold parseBlockStatement_enter.
  scope_cases p; destruct (has context Context.IfClause); simpl; scopes_ok.
Qed.

Lemma parseCatchClause_enter_keeps (p : Parser) :
  scopesOk p -> keepsScopes parseCatchClause_enter p.
Proof.
  intros ((Hf & Hb & Hp & Hfp) & Hh & Hbf). unfold parseCatchClause_enter.
  scope_cases p; scopes_ok.
Qed.

Lemma declare_keeps (d : Declaration) (p : Parser) :
  scopesOk p -> keepsScopes (declare d) p.
Proof.
  destruct d; simpl;
    auto using addVarName_keeps, addBlockName_keeps, addFunctionArg_keeps,
      addCatchArg_keeps.
Qed.

Lemma forEach_keeps {A : Type} (f : A -> M unit) (l : list A) :
  Forall (fun x => forall p, scopesOk p -> keepsScopes (f x) p) l ->
  forall p, scopesOk p -> keepsScopes (forEach f l) p.
Proof.
  induction 1 as [| x l Hx _ IH]; intros p Hok; simpl.
  - unfold keepsScopes, outcome, pure. auto.
  - apply keepsScopes_bind; [now apply Hx |].
    intros _ p' _ Hok'. now apply IH.
Qed.

Lemma ScopeEvent_nested_ind (P : ScopeEvent -> Prop) :
  (forall d, P (Declares d)) ->
  (forall context body, Forall P body -> P (InBlock context body)) ->
  (forall body, Forall P body -> P (InCatch body)) ->
  (forall body, Forall P body -> P (InFunction body)) ->
  forall e, P e.
Proof.
  intros Hd Hb Hc Hf. fix IH 1. intros [d | context body | body | body].
  - apply Hd.
  - apply Hb. induction body as [| e body IHb]; constructor; [apply IH | exact IHb].
  - apply Hc. induction body as [| e body IHb]; constructor; [apply IH | exact IHb].
  - apply Hf. induction body as [| e body IHb]; constructor; [apply IH | exact IHb].
Qed.

(** What a body leaves is restored to valid scopes by the three exits. *)
Lemma block_keeps {A : Type} (body : M A) (context : Z) (p : Parser) :
  (forall q, scopesOk q -> keepsScopes body q) ->
  scopesOk p ->
  keepsScopes (saved <- parseBlockStatement_enter context ;; body ;;
               parseBlockStatement_exit saved) p.
Proof.
  intros Hbody Hok.
  pose proof (parseBlockStatement_enter_keeps context p Hok) as He.
  unfold keepsScopes, outcome, bind in *.
  destruct (parseBlockStatement_enter context p) as [saved p1 | | |] eqn:E1;
    try assumption.
  assert (Hsaved : saved = (blockScope p, parentScope p)).
  { revert E1. unfold parseBlockStatement_enter, bind, get, gets, modify, pure.
    destruct (bool_decide _); simpl; congruence. }
  destruct He as (Hok1 & Hlen1 & Hf1).
  specialize (Hbody p1 Hok1).
  destruct (body p1) as [a p2 | | |] eqn:E2; try assumption.
  destruct Hbody as (((Hf & Hb & Hp & Hfp) & Hh & Hbf) & Hlen2 & Hf2).
  destruct Hok as ((Hf0 & Hb0 & Hp0 & Hfp0) & Hh0 & Hbf0).
  subst saved. unfold parseBlockStatement_exit, bind, modify, pure. simpl.
  destruct (parentScope p) as [q0 |] eqn:Eq0; simpl;
    destruct (blockScope p) as [b0 |] eqn:Eb0;
    destruct (functionScope p) as [f0 |] eqn:Ef0;
    try (specialize (Hf2 _ (Hf1 _ eq_refl)));
    scopes_ok.
Qed.

Lemma catch_keeps {A : Type} (body : M A) (p : Parser) :
  (forall q, scopesOk q -> keepsScopes body q) ->
  scopesOk p ->
  keepsScopes (saved <- parseCatchClause_enter ;; body ;;
               parseCatchClause_exit saved) p.
Proof.
  intros Hbody Hok.
  pose proof (parseCatchClause_enter_keeps p Hok) as He.
  unfold keepsScopes, outcome, bind in *.
  destruct (parseCatchClause_enter p) as [saved p1 | | |] eqn:E1;
    try assumption.
  assert (Hsaved : saved = (blockScope p, parentScope p)).
  { revert E1. unfold parseCatchClause_enter, bind, get, gets, modify, pure.
    destruct (bool_decide _); simpl; congruence. }
  destruct He as (Hok1 & Hlen1 & Hf1).
  specialize (Hbody p1 Hok1).
  destruct (body p1) as [a p2 | | |] eqn:E2; try assumption.
  destruct Hbody as (((Hf & Hb & Hp & Hfp) & Hh & Hbf) & Hlen2 & Hf2).
  destruct Hok as ((Hf0 & Hb0 & Hp0 & Hfp0) & Hh0 & Hbf0).
  subst saved. unfold parseCatchClause_exit, bind, modify, pure. simpl.
  destruct (parentScope p) as [q0 |] eqn:Eq0;
    destruct (blockScope p) as [b0 |] eqn:Eb0;
    destruct (functionScope p) as [f0 |] eqn:Ef0; simpl;
    try (specialize (Hf2 _ (Hf1 _ eq_refl)));
    scopes_ok.
Qed.

Lemma function_keeps {A : Type} (body : M A) (p : Parser) :
  (forall q, scopesOk q -> keepsScopes body q) ->
  scopesOk p ->
  keepsScopes (saved <- enterFunctionScope ;; body ;;
               exitFunctionScope saved) p.
Proof.
  intros Hbody Hok.
  destruct Hok as ((Hf0 & Hb0 & Hp0 & Hfp0) & Hh0 & Hbf0).
  unfold keepsScopes, outcome, enterFunctionScope, bind, get, gets, modify,
    pure in *.
  match goal with |- context [body ?q] => set (p1 := q) end.
  assert (Hok1 : scopesOk p1) by (unfold p1; scopes_ok).
  specialize (Hbody p1 Hok1).
  destruct (body p1) as [a p2 | | |] eqn:E2; try assumption.
  destruct Hbody as (((Hf & Hb & Hp & Hfp) & Hh & Hbf) & Hlen2 & Hf2).
  unfold exitFunctionScope, bind, modify. simpl. simpl in Hlen2.
  destruct (parentScope p) as [q0 |] eqn:Eq0;
    destruct (blockScope p) as [b0 |] eqn:Eb0;
    destruct (functionScope p) as [f0 |] eqn:Ef0; simpl;
    scopes_ok.
Qed.

Lemma track_keeps (e : ScopeEvent) :
  forall p, scopesOk p -> keepsScopes (track e) p.
Proof.
  induction e as [d | context body IH | body IH | body IH]
    using ScopeEvent_nested_ind; intros p Hok; simpl.
  - now apply declare_keeps.
  - apply block_keeps; [| exact Hok]. now apply forEach_keeps.
  - apply catch_keeps; [| exact Hok]. now apply forEach_keeps.
  - apply function_keeps; [| exact Hok]. now apply forEach_keeps.
Qed.

(** X1: from valid scopes, the scope bookkeeping of any nesting of
    declarations, blocks, catch clauses and functions returns with valid
    scopes, with the function scope object it started with and a heap
    that has lost no object, or throws [DuplicateIdentifier]; it never
    reads a property of an [undefined] scope. *)
Theorem scope_tracking_keeps_scopes (events : list ScopeEvent) (p : Parser) :
  scopesOk p ->
  keepsScopes (forEach track events) p.
Proof.
  intros Hok. apply forEach_keeps; [| exact Hok].
  apply Forall_forall. intros e _. apply track_keeps.
Qed.

End ScopeInvariants.

Lemma scope_tracking_keeps_scopes_witness :
  let p := script "var a; { let b; try { } catch (e) { function f(x) { let a } } }" in
  scopesOk p
  /\ keepsScopes
       (forEach track
          [Declares (VarName "a");
           InBlock Context.None
             [Declares (BlockName "b");
              InBlock Context.None [];
              InCatch
                [Declares (CatchArg "e" Shadowable);
                 InBlock Context.IfClause
                   [InFunction
                      [Declares (FunctionArg "x");
                       Declares (BlockName "a")]]]]]) p.
Proof.
  intros p.
  assert (Hok : scopesOk p).
  { unfold scopesOk, wfScopes. simpl. repeat split; try exact I.
    - intros [? HH]. discriminate HH.
    - intros r o q Hr. rewrite lookup_nil in Hr. discriminate.
    - intros [? HH]. discriminate HH. }
  split; [exact Hok |].
  exact (scope_tracking_keeps_scopes _ p Hok).
Defined.

Section Redeclaration.

Lemma getProp_own (h : list Scope) (r : nat) (o : Scope) (name : string)
    (v : ScopeMasks) :
  h !! r = Some o -> props o !! name = Some v -> getProp h r name = Some v.
Proof.
  intros Hr Hn. unfold getProp.
  assert (Hlen : (0 < length h)%nat) by (apply lookup_lt_Some in Hr; lia).
  destruct (length h); [lia |]. simpl. now rewrite Hr, Hn.
Qed.

Lemma hasOwn_own (h : list Scope) (r : nat) (o : Scope) (name : string)
    (v : ScopeMasks) :
  h !! r = Some o -> props o !! name = Some v -> hasOwn h r name = true.
Proof.
  intros Hr Hn. unfold hasOwn. rewrite Hr. apply bool_decide_eq_true_2. eauto.
Qed.

(** The heap after [scope[name] = v] holds [v] under [name] in [scope]. *)
Lemma lookup_alter_set (h : list Scope) (r : nat) (name : string)
    (v : ScopeMasks) :
  (r < length h)%nat ->
  exists o,
    alter (fun o => mkScope (proto o) (<[name := v]> (props o))) r h !! r
    = Some o
    /\ props o !! name = Some v.
Proof.
  intros Hr. destruct (lookup_lt_is_Some_2 h r Hr) as [o Ho].
  eexists. rewrite list_lookup_alter_eq, Ho. simpl. split; [reflexivity |].
  simpl. apply lookup_insert_eq.
Qed.

Ltac scope_run :=
  unfold addBlockName, addVarName, addFunctionArg, setScopeProperty,
    setProperty, initFunctionScope, initBlockScope, objectCreate, bind, get,
    gets, modify, pure, errorIf, error; simpl.

Ltac own_property :=
  match goal with
  | |- context [alter (fun o => mkScope (proto o) (<[?n := ?v]> (props o)))
                  ?r ?h] =>
      let o := fresh "o" in
      let Ho := fresh "Ho" in
      let Hn := fresh "Hn" in
      destruct (lookup_alter_set h r n v
                  ltac:(rewrite ?length_app; simpl; lia))
        as (o & Ho & Hn);
      try rewrite (getProp_own _ _ _ _ _ Ho Hn);
      try rewrite (hasOwn_own _ _ _ _ _ Ho Hn)
  end.

(** X2: in a function that has no scope yet, a name that is declared
    twice at the same level is rejected with [DuplicateIdentifier] when
    one of the two declarations is lexical, in either order, and when
    both are parameters; a [var] that repeats a parameter or a [var] is
    accepted. *)
Theorem redeclaration_at_function_level (name : string) (p : Parser) :
  functionScope p = None ->
  let rejected (first second : M unit) :=
    exists p', first p = Ok tt p'
               /\ second p' = Throw DuplicateIdentifier [name] p' in
  let accepted (first second : M unit) :=
    exists p' p'', first p = Ok tt p' /\ second p' = Ok tt p'' in
  (~ isGlobalValueName name ->
     rejected (addBlockName name) (addBlockName name)
     /\ rejected (addBlockName name) (addVarName name)
     /\ rejected (addVarName name) (addBlockName name)
     /\ rejected (addFunctionArg name) (addBlockName name))
  /\ rejected (addFunctionArg name) (addFunctionArg name)
  /\ accepted (addFunctionArg name) (addVarName name)
  /\ accepted (addVarName name) (addVarName name).
Proof.
  intros Ef rejected accepted.
  assert (Hg : ~ isGlobalValueName name ->
               bool_decide (name = "Infinity"%string)
               || bool_decide (name = "NaN"%string)
               || bool_decide (name = "undefined"%string) = false).
  { intros Hn. apply not_true_is_false. intros E.
    apply isGlobalValueName_test in E. contradiction. }
  split; [intros Hn; specialize (Hg Hn); repeat split |repeat split].
  - eexists. split.
    + scope_run. rewrite Hg. simpl. rewrite Ef. simpl. reflexivity.
    + scope_run. rewrite Hg. simpl. own_property. rewrite orb_true_r.
      reflexivity.
  - eexists. split.
    + scope_run. rewrite Hg. simpl. rewrite Ef. simpl. reflexivity.
    + scope_run. own_property. rewrite bool_decide_eq_true_2 by reflexivity.
      reflexivity.
  - eexists. split.
    + scope_run. rewrite Ef. simpl. reflexivity.
    + scope_run. rewrite Hg. simpl. own_property.
      rewrite bool_decide_eq_true_2 by reflexivity. reflexivity.
  - eexists. split.
    + scope_run. rewrite Ef. simpl. reflexivity.
    + scope_run. rewrite Hg. simpl. own_property.
      rewrite bool_decide_eq_true_2 by reflexivity. reflexivity.
  - eexists. split.
    + scope_run. rewrite Ef. simpl. reflexivity.
    + scope_run. unfold hasProperty. own_property.
      rewrite bool_decide_eq_true_2 by eauto. reflexivity.
  - do 2 eexists. split.
    + scope_run. rewrite Ef. simpl. reflexivity.
    + scope_run. own_property.
      rewrite bool_decide_eq_false_2 by discriminate. reflexivity.
  - do 2 eexists. split.
    + scope_run. rewrite Ef. simpl. reflexivity.
    + scope_run. own_property.
      rewrite bool_decide_eq_false_2 by discriminate. reflexivity.
Qed.

End Redeclaration.

Lemma redeclaration_at_function_level_witness :
  let p := script "let x; var x" in
  exists p', addBlockName "x" p = Ok tt p'
             /\ addVarName "x" p' = Throw DuplicateIdentifier ["x"%string] p'.
Proof.
  intros p.
  refine (proj1 (proj2 (proj1 (redeclaration_at_function_level "x" p eq_refl)
                          _))).
  intros [Hg | [Hg | Hg]]; discriminate Hg.
Defined.

Section Isolation.

(** A read through the prototype chain needs no more fuel than the
    index of the scope it starts from. *)
Lemma getProperty_old (h h' : list Scope) (name : string) :
  wfHeap h' ->
  (forall r, (r < length h)%nat -> h' !! r = h !! r) ->
  forall (r fuel fuel' : nat),
    (r < length h)%nat -> (r < fuel)%nat -> (r < fuel')%nat ->
    getProperty fuel' h' r name = getProperty fuel h r name.
Proof.
  intros Hwf Hsame r. induction r as [r IH] using lt_wf_ind.
  intros fuel fuel' Hr Hfuel Hfuel'.
  destruct fuel as [| fuel]; [lia |]. destruct fuel' as [| fuel']; [lia |].
  simpl. rewrite (Hsame r Hr).
  destruct (h !! r) as [o |] eqn:Ho; [| reflexivity].
  destruct (props o !! name); [reflexivity |].
  destruct (proto o) as [parent |] eqn:Hp; [| reflexivity].
  assert (Hlt : (parent < r)%nat).
  { apply (Hwf r o parent); [| exact Hp]. now rewrite (Hsame r Hr). }
  apply IH; lia.
Qed.

Lemma getProp_old (h h' : list Scope) (r : nat) (name : string) :
  wfHeap h' ->
  take (length h) h' = h ->
  (r < length h)%nat ->
  getProp h' r name = getProp h r name
  /\ hasOwn h' r name = hasOwn h r name.
Proof.
  intros Hwf Htake Hr.
  assert (Hsame : forall r, (r < length h)%nat -> h' !! r = h !! r).
  { intros r' Hr'. rewrite <- (lookup_take_lt h' (length h) r' Hr').
    now rewrite Htake. }
  assert (Hlen : (length h <= length h')%nat).
  { apply (f_equal length) in Htake. rewrite length_take in Htake. lia. }
  split.
  - unfold getProp. apply (getProperty_old h h'); try assumption; lia.
  - unfold hasOwn. now rewrite Hsame.
Qed.

Ltac older :=
  repeat match goal with
         | |- _ => assumption
         | |- _ => reflexivity
         | |- _ /\ _ => split
         | H : ?s = Some _ |- context [?s] => rewrite H
         | H : ?s = None |- context [?s] => rewrite H
         | |- scopesFrom _ _ => unfold scopesFrom; simpl
         | |- take _ (heap _) = _ => progress simpl
         | |- youngerThan _ _ => unfold youngerThan in *; simpl in *; lia
         | |- True => exact I
         | |- (_ <= _)%nat =>
             unfold youngerThan in *; simpl in *;
             rewrite ?length_app; simpl; lia
         | |- take _ (alter _ _ _) = _ =>
             rewrite take_alter_ge by (unfold youngerThan in *; simpl in *;
                                    rewrite ?length_app; simpl; lia)
         | |- take _ (_ ++ [_]) = _ =>
             rewrite take_app_le by (rewrite ?length_app; simpl; lia)
         end.

Ltac older_cases q :=
  unfold leavesOlder, setScopeProperty, setProperty, initFunctionScope,
    initBlockScope, objectCreate, bind, get, gets, modify, pure, errorIf,
    error;
  destruct (functionScope q) as [?f |] eqn:?Ef;
  destruct (blockScope q) as [?b |] eqn:?Eb;
  destruct (parentScope q) as [?r |] eqn:?Eq; simpl;
  rewrite ?Ef, ?Eb, ?Eq; simpl.

Ltac older_done :=
  let a := fresh in let q' := fresh in let E := fresh in
  intros a q' E; try discriminate E; inversion E; subst; clear E; older.

Lemma declare_leavesOlder (n : nat) (d : Declaration) (q : Parser) :
  scopesFrom n q -> (n <= length (heap q))%nat ->
  leavesOlder n (declare d) q.
Proof.
  intros (Hf & Hb & Hp) Hn. destruct d as [name | name | name | name type];
    simpl.
  - unfold addVarName. older_cases q;
      try match goal with |- context [bool_decide ?P] =>
            destruct (bool_decide P); simpl end;
      rewrite ?Ef; older_done.
  - unfold addBlockName. unfold leavesOlder, bind at 1, errorIf at 1.
    destruct (bool_decide (name = "Infinity"%string)
              || bool_decide (name = "NaN"%string)
              || bool_decide (name = "undefined"%string));
      [intros ? ? E; discriminate E |].
    unfold pure at 1.
    older_cases q;
      try match goal with |- context [?x || hasOwn ?h ?b ?n] =>
            destruct (x || hasOwn h b n); simpl end;
      older_done.
  - unfold addFunctionArg. older_cases q;
      try match goal with |- context [hasProperty ?h ?f ?n] =>
            destruct (hasProperty h f n); simpl end;
      older_done.
  - unfold addCatchArg. older_cases q; older_done.
Qed.

Lemma forEach_framed {A : Type} (n : nat) (f : A -> M unit) (l : list A) :
  (forall x q, scopesOk q -> keepsScopes (f x) q) ->
  Forall (fun x => framed n (f x)) l -> framed n (forEach f l).
Proof.
  intros Hkeeps.
  induction 1 as [| x l Hx _ IH]; intros q Hok Hfrom Hn; simpl.
  - intros a q' E. inversion E; subst. auto.
  - intros a q' E. unfold bind in E.
    destruct (f x q) as [[] q1 | | |] eqn:E1; try discriminate E.
    pose proof (Hkeeps x q Hok) as Hk.
    unfold keepsScopes, outcome in Hk. rewrite E1 in Hk.
    destruct Hk as (Hok1 & Hlen & _).
    destruct (Hx q Hok Hfrom Hn tt q1 E1) as [Hfrom1 Htake1].
    destruct (IH q1 Hok1 Hfrom1 ltac:(lia) a q' E) as [Hfrom' Htake'].
    split; [exact Hfrom' |]. congruence.
Qed.

Lemma block_framed {A : Type} (n : nat) (context : Z) (body : M A) :
  (forall q, scopesOk q -> keepsScopes body q) ->
  framed n body ->
  framed n (saved <- parseBlockStatement_enter context ;; body ;;
            parseBlockStatement_exit saved).
Proof.
  intros Hkeeps Hbody q Hok (Hf & Hb & Hp) Hn a q' E.
  pose proof (parseBlockStatement_enter_keeps context q Hok) as He.
  unfold keepsScopes, outcome in He. unfold bind in E.
  destruct (parseBlockStatement_enter context q) as [saved q1 | | |] eqn:E1;
    try discriminate E.
  destruct He as (Hok1 & _ & _).
  assert (H1 : saved = (blockScope q, parentScope q)
               /\ heap q1 = heap q /\ scopesFrom n q1).
  { revert E1. unfold parseBlockStatement_enter, bind, get, gets, modify, pure.
    destruct (blockScope q) as [b |] eqn:Eb; simpl;
      destruct (has context Context.IfClause); simpl;
      intros E1; inversion E1; subst; simpl; rewrite ?Eb;
      repeat split; simpl; try assumption; try exact I. }
  destruct H1 as (-> & Hh1 & Hfrom1).
  destruct (body q1) as [x q2 | | |] eqn:E2; try discriminate E.
  destruct (Hbody q1 Hok1 Hfrom1 ltac:(rewrite Hh1; exact Hn) x q2 E2)
    as [(Hf2 & Hb2 & Hp2) Htake2].
  revert E. unfold parseBlockStatement_exit, bind, modify, pure. simpl.
  destruct (parentScope q) as [r |] eqn:Eq; simpl;
    intros E; inversion E; subst; simpl;
    (split; [repeat split; simpl; assumption | congruence]).
Qed.

Lemma catch_framed {A : Type} (n : nat) (body : M A) :
  (forall q, scopesOk q -> keepsScopes body q) ->
  framed n body ->
  framed n (saved <- parseCatchClause_enter ;; body ;;
            parseCatchClause_exit saved).
Proof.
  intros Hkeeps Hbody q Hok (Hf & Hb & Hp) Hn a q' E.
  pose proof (parseCatchClause_enter_keeps q Hok) as He.
  unfold keepsScopes, outcome in He. unfold bind in E.
  destruct (parseCatchClause_enter q) as [saved q1 | | |] eqn:E1;
    try discriminate E.
  destruct He as (Hok1 & _ & _).
  assert (H1 : saved = (blockScope q, parentScope q)
               /\ heap q1 = heap q /\ scopesFrom n q1).
  { revert E1. unfold parseCatchClause_enter, bind, get, gets, modify, pure.
    destruct (blockScope q) as [b |] eqn:Eb; simpl;
      intros E1; inversion E1; subst; simpl; rewrite ?Eb;
      repeat split; simpl; try assumption; try exact I. }
  destruct H1 as (-> & Hh1 & Hfrom1).
  destruct (body q1) as [x q2 | | |] eqn:E2; try discriminate E.
  destruct (Hbody q1 Hok1 Hfrom1 ltac:(rewrite Hh1; exact Hn) x q2 E2)
    as [(Hf2 & Hb2 & Hp2) Htake2].
  revert E. unfold parseCatchClause_exit, bind, modify, pure. simpl.
  destruct (blockScope q) as [b |] eqn:Eb; simpl;
    intros E; inversion E; subst; simpl;
    (split; [repeat split; simpl; assumption | congruence]).
Qed.

Lemma function_framed {A : Type} (n : nat) (body : M A) :
  (forall q, scopesOk q -> keepsScopes body q) ->
  framed n body ->
  framed n (saved <- enterFunctionScope ;; body ;; exitFunctionScope saved).
Proof.
  intros Hkeeps Hbody q Hok (Hf & Hb & Hp) Hn a q' E.
  revert E. unfold enterFunctionScope, bind, get, gets, modify, pure.
  match goal with |- context [body ?x] => set (q1 := x) end.
  assert (Hok1 : scopesOk q1).
  { destruct Hok as ((? & ? & ? & ?) & ? & ?).
    unfold q1, scopesOk, wfScopes. simpl. repeat split; try assumption;
      try exact I; intros [? HH]; discriminate HH. }
  assert (Hfrom1 : scopesFrom n q1) by (unfold q1; repeat split; exact I).
  destruct (body q1) as [x q2 | | |] eqn:E2; try discriminate.
  destruct (Hbody q1 Hok1 Hfrom1 Hn x q2 E2) as [_ Htake2].
  unfold exitFunctionScope, bind, modify. simpl.
  intros E; inversion E; subst; simpl.
  split; [repeat split; simpl; assumption | exact Htake2].
Qed.

Lemma track_framed (n : nat) (e : ScopeEvent) : framed n (track e).
Proof.
  induction e as [d | context body IH | body IH | body IH]
    using ScopeEvent_nested_ind; simpl.
  - intros q _ Hfrom Hn. now apply declare_leavesOlder.
  - apply block_framed.
    + intros q Hq. apply forEach_keeps; [| exact Hq].
      apply Forall_forall. intros e _. apply track_keeps.
    + apply forEach_framed; [intros; now apply track_keeps | exact IH].
  - apply catch_framed.
    + intros q Hq. apply forEach_keeps; [| exact Hq].
      apply Forall_forall. intros e _. apply track_keeps.
    + apply forEach_framed; [intros; now apply track_keeps | exact IH].
  - apply function_framed.
    + intros q Hq. apply forEach_keeps; [| exact Hq].
      apply Forall_forall. intros e _. apply track_keeps.
    + apply forEach_framed; [intros; now apply track_keeps | exact IH].
Qed.

(** X3: the scope bookkeeping of a nested function, whatever it declares
    and however it nests blocks, catch clauses and further functions,
    returns with the three scope fields of the enclosing function as they
    were and with every object that the heap held before unchanged, so
    that each scope of the enclosing function binds what it bound; or it
    throws [DuplicateIdentifier]. *)
Theorem nested_function_isolation (body : list ScopeEvent) (p : Parser) :
  scopesOk p ->
  outcome (track (InFunction body))
    (fun _ p' =>
       functionScope p' = functionScope p
       /\ blockScope p' = blockScope p
       /\ parentScope p' = parentScope p
       /\ take (length (heap p)) (heap p') = heap p
       /\ forall r name,
            (r < length (heap p))%nat ->
            getProp (heap p') r name = getProp (heap p) r name
            /\ hasOwn (heap p') r name = hasOwn (heap p) r name)
    (fun type _ _ => type = DuplicateIdentifier) p.
Proof.
  intros Hok.
  pose proof (track_keeps (InFunction body) p Hok) as Hk.
  unfold keepsScopes, outcome in *.
  destruct (track (InFunction body) p) as [[] p' | | |] eqn:E;
    try assumption.
  destruct Hk as ((_ & Hwf & _) & Hlen & _).
  assert (Htake : take (length (heap p)) (heap p') = heap p).
  { revert E. simpl. unfold enterFunctionScope, bind, get, gets, modify, pure.
    match goal with |- context [forEach track body ?x] => set (q1 := x) end.
    assert (Hok1 : scopesOk q1).
    { destruct Hok as ((? & ? & ? & ?) & ? & ?).
      unfold q1, scopesOk, wfScopes. simpl. repeat split; try assumption;
        try exact I; intros [? HH]; discriminate HH. }
    assert (Hfrom1 : scopesFrom (length (heap p)) q1)
      by (unfold q1; repeat split; exact I).
    destruct (forEach track body q1) as [x q2 | | |] eqn:E2; try discriminate.
    assert (Hfr : framed (length (heap p)) (forEach track body)).
    { apply forEach_framed; [intros; now apply track_keeps |].
      apply Forall_forall. intros e _. apply track_framed. }
    destruct (Hfr q1 Hok1 Hfrom1 ltac:(simpl; lia) x q2 E2) as [_ Htake2].
    unfold exitFunctionScope, bind, modify. simpl.
    intros E; inversion E; subst; simpl. rewrite Htake2. simpl.
    apply firstn_all. }
  assert (Hfields : functionScope p' = functionScope p
                    /\ blockScope p' = blockScope p
                    /\ parentScope p' = parentScope p).
  { revert E. simpl. unfold enterFunctionScope, bind, get, gets, modify, pure.
    destruct (forEach track body _); try discriminate.
    unfold exitFunctionScope, bind, modify. simpl.
    intros E; inversion E; subst; simpl. auto. }
  destruct Hfields as (? & ? & ?). repeat (split; [assumption |]).
  intros r name Hr. now apply getProp_old.
Qed.

End Isolation.

Lemma nested_function_isolation_witness :
  let p := stateAfter (addVarName "a" ;; addBlockName "b")
             (script "var a; let b; function f(a) { let b; { var c } }") in
  scopesOk p
  /\ outcome
       (track (InFunction
                 [Declares (FunctionArg "a"); Declares (BlockName "b");
                  InBlock Context.None [Declares (VarName "c")]]))
       (fun _ p' =>
          functionScope p' = functionScope p
          /\ blockScope p' = blockScope p
          /\ parentScope p' = parentScope p
          /\ take (length (heap p)) (heap p') = heap p
          /\ forall r name,
               (r < length (heap p))%nat ->
               getProp (heap p') r name = getProp (heap p) r name
               /\ hasOwn (heap p') r name = hasOwn (heap p) r name)
       (fun type _ _ => type = DuplicateIdentifier) p.
Proof.
  intros p.
  assert (Hok : scopesOk p).
  { assert (Hheap : exists o, heap p = [o] /\ proto o = None)
      by (eexists; split; vm_compute; reflexivity).
    destruct Hheap as (o & Hheap & Hproto).
    unfold scopesOk, wfScopes. rewrite Hheap.
    change (functionScope p) with (Some 0%nat).
    change (blockScope p) with (Some 0%nat).
    change (parentScope p) with (Some 0%nat).
    simpl. repeat split; try lia; eauto.
    intros r o' q Hr Hq. destruct r as [| r]; simpl in Hr; [| discriminate].
    inversion Hr; subst. congruence. }
  split; [exact Hok |].
  exact (nested_function_isolation _ p Hok).
Defined.

Section CatchParameter.

Ltac own_property :=
  match goal with
  | |- context [alter (fun o => mkScope (proto o) (<[?n := ?v]> (props o)))
                  ?r ?h] =>
      let o := fresh "o" in
      let Ho := fresh "Ho" in
      let Hn := fresh "Hn" in
      destruct (lookup_alter_set h r n v
                  ltac:(rewrite ?length_app; simpl; lia))
        as (o & Ho & Hn);
      try rewrite (getProp_own _ _ _ _ _ Ho Hn);
      try rewrite (hasOwn_own _ _ _ _ _ Ho Hn)
  end.

(** X4: in the body of a catch clause, whose block shares the scope of
    the parameter, a lexical declaration of the name of the parameter is
    rejected with [DuplicateIdentifier] and a [var] of that name is
    accepted. *)
Theorem catch_parameter_redeclared (context : Z) (name : string) (p : Parser) :
  scopesOk p ->
  exists saved q,
    (parseCatchClause_enter ;; addCatchArg name Shadowable ;;
     parseBlockStatement_enter (setBits context Context.IfClause)) p
    = Ok saved q
    /\ addBlockName name q = Throw DuplicateIdentifier [name] q
    /\ exists q', addVarName name q = Ok tt q'.
Proof.
  intros ((Hf & Hb & Hp & Hfp) & Hh & Hbf).
  assert (Hif : has (setBits context Context.IfClause) Context.IfClause = true)
    by (apply has_setBits_same; discriminate).
  assert (Hthrow : forall q b,
            blockScope q = Some b -> is_Some (functionScope q) ->
            hasOwn (heap q) b name = true ->
            addBlockName name q = Throw DuplicateIdentifier [name] q).
  { intros q b Eb [f Ef] Ho. unfold addBlockName, initBlockScope, bind, get,
      gets, modify, pure, errorIf, error.
    destruct (bool_decide (name = "Infinity"%string)
              || bool_decide (name = "NaN"%string)
              || bool_decide (name = "undefined"%string)); [reflexivity |].
    simpl. rewrite Ef, Eb. simpl. rewrite Eb, Ho, orb_true_r. reflexivity. }
  assert (Hvar : forall q b f,
            blockScope q = Some b -> functionScope q = Some f ->
            getProp (heap q) b name = Some Shadowable ->
            exists q', addVarName name q = Ok tt q').
  { intros q b f Eb Ef Hg. unfold addVarName, initFunctionScope,
      setScopeProperty, setProperty, bind, get, gets, modify, pure, errorIf,
      error.
    rewrite Ef. simpl. rewrite Eb, Hg.
    rewrite bool_decide_eq_false_2 by discriminate. simpl. rewrite Ef.
    eauto. }
  unfold parseCatchClause_enter, addCatchArg, parseBlockStatement_enter,
    initBlockScope, setScopeProperty, setProperty, objectCreate, bind, get,
    gets, modify, pure.
  destruct (functionScope p) as [f |] eqn:Ef.
  - destruct (parentScope p) as [r |] eqn:Eq;
      [| exfalso; destruct Hfp as [? HH]; [eauto | discriminate HH]].
    destruct (blockScope p) as [b |] eqn:Eb; simpl;
      rewrite ?Ef, ?Eb, ?Eq, ?Hif; simpl; rewrite ?Hif; simpl;
      (do 2 eexists; split; [reflexivity |]);
      own_property;
      (split; [eapply Hthrow; simpl; eauto using hasOwn_own
              | eapply Hvar; simpl; eauto using getProp_own]).
  - destruct (blockScope p) as [b |] eqn:Eb;
      [exfalso; destruct Hbf as [? HH]; [eauto | discriminate HH] |].
    simpl; rewrite ?Ef, ?Eb, ?Hif; simpl; rewrite ?Hif; simpl;
      (do 2 eexists; split; [reflexivity |]);
      own_property;
      (split; [eapply Hthrow; simpl; eauto using hasOwn_own
              | eapply Hvar; simpl; eauto using getProp_own]).
Qed.

End CatchParameter.

Lemma catch_parameter_redeclared_witness :
  let p := script "try { } catch (e) { let e }" in
  exists saved q,
    (parseCatchClause_enter ;; addCatchArg "e" Shadowable ;;
     parseBlockStatement_enter (setBits Context.None Context.IfClause)) p
    = Ok saved q
    /\ addBlockName "e" q = Throw DuplicateIdentifier ["e"%string] q
    /\ exists q', addVarName "e" q = Ok tt q'.
Proof.
  intros p. apply catch_parameter_redeclared.
  unfold scopesOk, wfScopes. simpl. repeat split; try exact I.
  - intros [? HH]. discriminate HH.
  - intros r o q Hr. rewrite lookup_nil in Hr. discriminate.
  - intros [? HH]. discriminate HH.
Defined.

Section Blanks.
Context `{Imports}.

Lemma has_clearBits_same (m b : Z) : has (clearBits m b) b = false.
Proof.
  unfold has, clearBits. apply negb_false_iff, Z.eqb_eq.
  rewrite <- Z.land_assoc, (Z.land_comm (Z.lnot b)), Z.land_lnot_diag.
  apply Z.land_0_r.
Qed.

Lemma scanTokenCase_newline (context : Z) (c : Z) (q : Parser) :
  oneOf (Some c) [Chars.CarriageReturn; Chars.LineFeed] = true ->
  scanTokenCase context (Some c) q
  = (advanceNewline ;;
     p <- get ;;
     (if hasNext p && eqn (Some c) Chars.CarriageReturn
         && eqn (nextChar p) Chars.LineFeed
      then incrIndex else pure tt) ;;
     continue) q.
Proof. intros Hc. unfold scanTokenCase. now rewrite Hc. Qed.

Lemma scanTokenCase_separator (context : Z) (c : Z) (q : Parser) :
  oneOf (Some c) [Chars.CarriageReturn; Chars.LineFeed] = false ->
  oneOf (Some c) [Chars.LineSeparator; Chars.ParagraphSeparator] = true ->
  scanTokenCase context (Some c) q = (advanceNewline ;; continue) q.
Proof. intros Hc Hs. unfold scanTokenCase. now rewrite Hc, Hs. Qed.

Lemma scanTokenCase_space (context : Z) (c : Z) (q : Parser) :
  isLineBreak (Some c) = false ->
  isWhiteSpace (Some c) = true ->
  scanTokenCase context (Some c) q = (advance ;; continue) q.
Proof.
  intros Hb Hw. unfold scanTokenCase.
  assert (Hc : oneOf (Some c) [Chars.CarriageReturn; Chars.LineFeed] = false
               /\ oneOf (Some c) [Chars.LineSeparator;
                                   Chars.ParagraphSeparator] = false).
  { unfold isLineBreak, oneOf, existsb in *.
    destruct (eqn (Some c) Chars.LineFeed), (eqn (Some c) Chars.CarriageReturn),
      (eqn (Some c) Chars.LineSeparator),
      (eqn (Some c) Chars.ParagraphSeparator); simpl in *;
      try discriminate; auto. }
  destruct Hc as [-> ->]. now rewrite Hw.
Qed.

Lemma scanTokenLoop_S (fuel : nat) (context : Z) (q : Parser) :
  scanTokenLoop (S fuel) context q
  = if negb (hasNext q) then Ok EndOfSource q
    else
      match scanTokenCase context (nextChar q)
              (set_startLine (line q) (set_startColumn (column q)
                 (set_startPos (index q) q))) with
      | Ok (Some t) q' => Ok t q'
      | Ok None q' => scanTokenLoop fuel context q'
      | Throw e ps q' => Throw e ps q'
      | TypeError q' => TypeError q'
      | OutOfFuel => OutOfFuel
      end.
Proof.
  simpl. unfold bind, get, gets, modify, pure.
  destruct (negb (hasNext q)); [reflexivity |].
  destruct (scanTokenCase _ _ _) as [[t |] q' | | |]; reflexivity.
Qed.

Lemma hasNext_middle (q : Parser) (pre : JSString) (c : Z) (rest : JSString) :
  source q = pre ++ c :: rest -> index q = jslength pre ->
  hasNext q = true /\ nextChar q = Some c.
Proof.
  intros Hsrc Hidx. unfold hasNext, nextChar. rewrite Hsrc, Hidx. split.
  - apply Z.ltb_lt. unfold jslength. rewrite length_app. simpl. lia.
  - apply charCodeAt_middle.
Qed.

Lemma hasNext_end (q : Parser) :
  index q = jslength (source q) -> hasNext q = false.
Proof. intros E. unfold hasNext. rewrite E. apply Z.ltb_irrefl. Qed.

Lemma scanTokenLoop_blank (context : Z) (n : nat) :
  forall (rest pre : JSString) (fuel : nat) (q : Parser),
    (length rest <= n)%nat ->
    source q = pre ++ rest ->
    index q = jslength pre ->
    Forall isBlank rest ->
    (length rest < fuel)%nat ->
    exists q',
      scanTokenLoop fuel context q = Ok EndOfSource q'
      /\ index q' = jslength (source q)
      /\ has (flags q') Flags.LineTerminator
         = has (flags q) Flags.LineTerminator
           || existsb (fun c => isLineBreak (Some c)) rest.
Proof.
  induction n as [| n IH]; intros rest pre fuel q Hn Hsrc Hidx Hblank Hfuel;
    (destruct fuel as [| fuel]; [lia |]); rewrite scanTokenLoop_S.
  - destruct rest; [| simpl in Hn; lia]. rewrite app_nil_r in Hsrc.
    rewrite hasNext_end by (rewrite Hidx, Hsrc; reflexivity). simpl.
    exists q. rewrite orb_false_r, Hidx, Hsrc. auto.
  - destruct rest as [| c rest].
    { rewrite app_nil_r in Hsrc.
      rewrite hasNext_end by (rewrite Hidx, Hsrc; reflexivity). simpl.
      exists q. rewrite orb_false_r, Hidx, Hsrc. auto. }
    apply Forall_cons in Hblank as [Hc Hblank].
    destruct (hasNext_middle q pre c rest Hsrc Hidx) as [-> ->]. simpl negb.
    cbv iota.
    set (q0 := set_startLine _ _).
    assert (Hset : has (setBits (flags q) Flags.LineTerminator)
                     Flags.LineTerminator = true)
      by (apply has_setBits_same; discriminate).
    assert (Hnext : forall q1 : Parser,
              source q1 = source q -> index q1 = index q + 1 ->
              has (flags q1) Flags.LineTerminator
              = has (flags q) Flags.LineTerminator || isLineBreak (Some c) ->
              exists q',
                scanTokenLoop fuel context q1 = Ok EndOfSource q'
                /\ index q' = jslength (source q)
                /\ has (flags q') Flags.LineTerminator
                   = has (flags q) Flags.LineTerminator
                     || existsb (fun c => isLineBreak (Some c)) (c :: rest)).
    { intros q1 Hs1 Hi1 Hf1.
      destruct (IH rest (pre ++ [c]) fuel q1) as (q' & E & Hi & Hf).
      - simpl in Hn. lia.
      - rewrite Hs1, Hsrc, <- app_assoc. reflexivity.
      - rewrite Hi1, Hidx. unfold jslength. rewrite length_app. simpl. lia.
      - exact Hblank.
      - simpl in Hfuel. lia.
      - exists q'. split; [exact E |]. split; [now rewrite Hi, Hs1 |].
        rewrite Hf, Hf1. simpl. now rewrite orb_assoc. }
    destruct (isLineBreak (Some c)) eqn:Hlb.
    + destruct (oneOf (Some c) [Chars.CarriageReturn; Chars.LineFeed]) eqn:Hcr.
      * rewrite (scanTokenCase_newline context c q0 Hcr).
        unfold advanceNewline, incrIndex, continue, bind, get, gets, modify,
          pure.
        match goal with |- context [if ?b then _ else _] =>
          destruct b eqn:Hskip end.
        -- (* a carriage return and the line feed after it *)
           apply andb_prop in Hskip as [Hskip Hlf].
           destruct rest as [| c' rest'].
           { exfalso. apply andb_prop in Hskip as [Hskip _].
             revert Hskip. unfold hasNext. simpl. rewrite Hsrc, Hidx.
             intros E. apply Z.ltb_lt in E. unfold jslength in E.
             rewrite length_app in E. simpl in E. lia. }
           assert (Hc' : c' = Chars.LineFeed).
           { revert Hlf. unfold nextChar. simpl. rewrite Hsrc, Hidx.
             replace (jslength pre + 1) with (jslength (pre ++ [c]))
               by (unfold jslength; rewrite length_app; simpl; lia).
             change (c :: c' :: rest') with ([c] ++ c' :: rest').
             rewrite app_assoc, charCodeAt_middle. simpl.
             intros E. now apply Z.eqb_eq in E. }
           subst c'. apply Forall_cons in Hblank as [_ Hblank].
           match goal with |- context [scanTokenLoop fuel context ?x] =>
             set (q2 := x) end.
           destruct (IH rest' (pre ++ [c; Chars.LineFeed]) fuel q2)
             as (q' & E & Hi & Hf).
           ++ simpl in Hn. lia.
           ++ simpl. rewrite Hsrc, <- app_assoc. reflexivity.
           ++ simpl. rewrite Hidx. unfold jslength. rewrite length_app. simpl.
              lia.
           ++ exact Hblank.
           ++ simpl in Hfuel. lia.
           ++ exists q'. split; [exact E |]. split; [exact Hi |].
              rewrite Hf. simpl flags. rewrite Hset. simpl.
              rewrite Hlb. now rewrite !orb_true_r.
        -- apply Hnext; simpl; [reflexivity | reflexivity |].
           now rewrite Hset, orb_true_r.
      * assert (Hsep : oneOf (Some c) [Chars.LineSeparator;
                                        Chars.ParagraphSeparator] = true).
        { revert Hlb Hcr. unfold isLineBreak, oneOf, existsb.
          destruct (eqn (Some c) Chars.LineFeed),
            (eqn (Some c) Chars.CarriageReturn); simpl; try discriminate.
          now rewrite orb_false_r. }
        rewrite (scanTokenCase_separator context c q0 Hcr Hsep).
        unfold advanceNewline, continue, bind, modify, pure.
        apply Hnext; simpl; [reflexivity | reflexivity |].
        now rewrite Hset, orb_true_r.
    + destruct Hc as [Hw | Hb]; [| congruence].
      rewrite (scanTokenCase_space context c q0 Hlb Hw).
      unfold advance, continue, bind, modify, pure.
      apply Hnext; simpl; [reflexivity | reflexivity |].
      now rewrite orb_false_r.
Qed.

(** X5: from a cursor after which the source holds only white space and
    line terminators, also none at all, [scanToken] returns [EndOfSource]
    with the cursor at the end of the source, and leaves the
    [LineTerminator] flag set exactly when a line terminator was among
    them. *)
Theorem blanks_scan_to_end_of_source (context : Z) (p : Parser)
    (pre rest : JSString) :
  source p = pre ++ rest ->
  index p = jslength pre ->
  Forall isBlank rest ->
  exists p',
    scanToken context p = Ok EndOfSource p'
    /\ index p' = jslength (source p)
    /\ has (flags p') Flags.LineTerminator
       = existsb (fun c => isLineBreak (Some c)) rest.
Proof.
  intros Hsrc Hidx Hblank. unfold scanToken, bind, modify.
  match goal with |- context [scanTokenLoop _ context ?x] => set (q := x) end.
  destruct (scanTokenLoop_blank context (length rest) rest pre (fuelOf q) q)
    as (q' & E & Hi & Hf); try assumption.
  - lia.
  - unfold fuelOf, q. simpl. rewrite Hsrc, length_app. lia.
  - exists q'. split; [exact E |]. split; [exact Hi |].
    rewrite Hf. unfold q. simpl flags. now rewrite has_clearBits_same.
Qed.

End Blanks.

Lemma blanks_scan_to_end_of_source_witness :
  let p := atIndex 2 (script "a; 
	 ") in
  exists p',
    @scanToken Example.imports Context.None p = Ok EndOfSource p'
    /\ index p' = 6
    /\ has (flags p') Flags.LineTerminator = true.
Proof.
  intros p.
  refine (@blanks_scan_to_end_of_source Example.imports Context.None p
            (units "a;") [32; 10; 9; 32] eq_refl eq_refl _).
  repeat constructor; (left; reflexivity) || (right; reflexivity).
Defined.

Section Strings.
Context `{Imports}.

Lemma scanStringLoop_S (fuel : nat) (context : Z) (quote : num) (start : Z)
    (ret : JSString) (ch : num) (q : Parser) :
  scanStringLoop (S fuel) context quote start ret ch q
  = if negb (hasNext q) then Ok (start, ret, ch) q
    else if eqnn (nextChar q) quote then Ok (start, ret, nextChar q) q
    else if eqn (nextChar q) Chars.Backslash then
      (esc <- scanStringEscape context ;;
       advance ;;
       start' <- gets index ;;
       scanStringLoop fuel context quote start'
         ((ret ++ slice (source q) start (index q)) ++ esc) (nextChar q)) q
    else if isLineBreak (nextChar q) then Throw UnterminatedString [] q
    else scanStringLoop fuel context quote start ret (nextChar q) (advanced q).
Proof.
  simpl. unfold bind at 1, get at 1, gets at 1.
  destruct (negb (hasNext q)); [reflexivity |].
  destruct (eqnn (nextChar q) quote); [reflexivity |].
  destruct (eqn (nextChar q) Chars.Backslash).
  - reflexivity.
  - destruct (isLineBreak (nextChar q)); reflexivity.
Qed.

(** The loop over code units that are taken as they are: it stops at
    the end of the source, at the quote or at a line terminator. *)
Lemma scanStringLoop_plain (context : Z) (quote : Z) (rest : JSString) :
  forall (body pre : JSString) (fuel : nat) (start : Z) (ret : JSString)
         (ch : num) (q : Parser),
    source q = pre ++ body ++ rest ->
    index q = jslength pre ->
    Forall (isPlainIn quote) body ->
    (length body < fuel)%nat ->
    scanStringLoop fuel context (Some quote) start ret ch q
    = match rest with
      | [] => Ok (start, ret, lastRead ch body []) (movedBy (jslength body) q)
      | c :: _ =>
          if c =? quote
          then Ok (start, ret, Some c) (movedBy (jslength body) q)
          else if c =? Chars.Backslash
          then scanStringLoop (fuel - length body) context (Some quote) start
                 ret (lastRead ch body []) (movedBy (jslength body) q)
          else if isLineBreak (Some c)
          then Throw UnterminatedString [] (movedBy (jslength body) q)
          else scanStringLoop (fuel - length body) context (Some quote) start
                 ret (lastRead ch body []) (movedBy (jslength body) q)
      end.
Proof.
  induction body as [| d body IH]; intros pre fuel start ret ch q Hsrc Hidx
    Hbody Hfuel.
  - simpl in Hsrc. change (jslength []) with 0. rewrite movedBy_0.
    simpl length. rewrite Nat.sub_0_r. unfold lastRead. simpl.
    destruct rest as [| c rest']; destruct fuel as [| fuel]; try lia.
    + rewrite scanStringLoop_S, hasNext_end; [reflexivity |].
      rewrite Hidx, Hsrc, app_nil_r. reflexivity.
    + destruct (hasNext_middle q pre c rest' Hsrc Hidx) as [Hn Hc].
      destruct (c =? quote) eqn:Eq;
        [| destruct (c =? Chars.Backslash) eqn:Eb;
           [| destruct (isLineBreak (Some c)) eqn:El]]; try reflexivity.
      * rewrite scanStringLoop_S, Hn, Hc. simpl. now rewrite Eq.
      * rewrite scanStringLoop_S, Hn, Hc. simpl. now rewrite Eq, Eb, El.
  - destruct fuel as [| fuel]; [simpl in Hfuel; lia |].
    apply Forall_cons in Hbody as [(Hq & Hb & Hl) Hbody].
    change ((d :: body) ++ rest) with (d :: body ++ rest) in Hsrc.
    destruct (hasNext_middle q pre d (body ++ rest) Hsrc Hidx) as [Hn Hc].
    rewrite scanStringLoop_S, Hn, Hc. simpl negb. cbv iota.
    unfold eqnn, eqn.
    rewrite (proj2 (Z.eqb_neq d quote) Hq), (proj2 (Z.eqb_neq d _) Hb), Hl.
    change (advanced q) with (movedBy 1 q).
    rewrite (IH (pre ++ [d]) fuel start ret (Some d) (movedBy 1 q)).
    + rewrite movedBy_add.
      replace (1 + jslength body) with (jslength (d :: body))
        by (unfold jslength; simpl length; lia).
      replace (lastRead (Some d) body []) with (lastRead ch (d :: body) []).
      2:{ unfold lastRead. rewrite last_cons. destruct (last body); reflexivity. }
      simpl length. simpl Nat.sub. reflexivity.
    + simpl. rewrite Hsrc, <- app_assoc. reflexivity.
    + simpl. rewrite Hidx. unfold jslength. rewrite length_app. simpl. lia.
    + exact Hbody.
    + simpl in Hfuel. lia.
Qed.

(** X6: a string literal without escapes scans to its own text: between
    two equal quotes, code units that are no quote of that kind, no
    backslash and no line terminator give a [StringLiteral] whose value
    is exactly these code units, with the cursor after the closing quote
    and, under the [raw] option, the whole literal as raw text. *)
Theorem plain_string_round_trip (context : Z) (quote : Z) (p : Parser)
    (pre body rest : JSString) :
  source p = pre ++ (quote :: body ++ [quote]) ++ rest ->
  index p = jslength pre ->
  Forall (isPlainIn quote) body ->
  scanString context (Some quote) p
  = Ok StringLiteral
      (recordRaw (quote :: body ++ [quote])
         (set_tokenValue (VString body) (movedBy (jslength body + 2) p))).
Proof.
  intros Hsrc Hidx Hbody.
  assert (Hsrc' : source p = (pre ++ [quote]) ++ body ++ quote :: rest).
  { rewrite Hsrc. simpl. rewrite <- !app_assoc. reflexivity. }
  unfold scanString, advance. unfold bind at 1, gets at 1.
  unfold bind at 1, modify at 1. unfold bind at 1, get at 1, gets at 1.
  change (set_column (column p + 1) (set_index (index p + 1) p))
    with (movedBy 1 p).
  assert (Hnext : hasNext (movedBy 1 p) = true).
  { unfold hasNext. simpl. apply Z.ltb_lt. rewrite Hsrc', Hidx.
    unfold jslength. rewrite !length_app. simpl. lia. }
  rewrite Hnext. unfold errorIf at 1. simpl negb. cbv iota.
  unfold bind at 1, pure at 1. unfold bind at 1.
  rewrite (scanStringLoop_plain context quote (quote :: rest) body
             (pre ++ [quote]));
    [ | exact Hsrc'
      | simpl; rewrite Hidx; unfold jslength; rewrite length_app; simpl; lia
      | exact Hbody
      | unfold fuelOf; simpl; rewrite Hsrc', !length_app; simpl; lia ].
  rewrite Z.eqb_refl, movedBy_add.
  unfold errorIf, error, bind, get, gets, modify, pure.
  change (eqnn (Some quote) (Some quote)) with (quote =? quote).
  rewrite Z.eqb_refl. simpl negb. cbv iota.
  assert (Hret : (if negb (index p + 1 =? index p + (1 + jslength body))
                  then [] ++ slice (source p) (index p + 1)
                               (index p + (1 + jslength body))
                  else []) = body).
  { rewrite Hsrc', Hidx.
    replace (jslength pre + 1) with (jslength (pre ++ [quote]))
      by (unfold jslength; rewrite length_app; simpl; lia).
    replace (jslength pre + (1 + jslength body))
      with (jslength (pre ++ [quote]) + jslength body)
      by (unfold jslength; rewrite length_app; simpl; lia).
    rewrite slice_middle.
    destruct body as [| d body]; simpl.
    - rewrite Z.add_0_r, Z.eqb_refl. reflexivity.
    - replace (_ =? _) with false; [reflexivity |].
      symmetry. apply Z.eqb_neq. unfold jslength. simpl length. lia. }
  change (negb true) with false. cbv beta iota.
  simpl index. simpl source. rewrite Hret.
  change (flags (set_tokenValue _ _)) with (flags p).
  unfold recordRaw.
  change (flags (set_tokenValue _ _)) with (flags p).
  replace (jslength body + 2) with (1 + jslength body + 1) by lia.
  rewrite <- (movedBy_add (1 + jslength body) 1).
  destruct (has (flags p) Flags.OptionsRaw); [| reflexivity].
  cbv beta iota. simpl source. simpl index. do 2 f_equal. rewrite Hsrc, Hidx.
  replace (jslength pre + (1 + jslength body) + 1)
    with (jslength pre + jslength (quote :: body ++ [quote]))
    by (unfold jslength; simpl length; rewrite length_app; simpl; lia).
  apply slice_middle.
Qed.

(** X7: a string literal without escapes that meets a line terminator
    or the end of the source before its closing quote is fatal, error
    [UnterminatedString]. *)
Theorem plain_string_unterminated (context : Z) (quote : Z) (p : Parser)
    (pre body rest : JSString) :
  source p = pre ++ (quote :: body) ++ rest ->
  index p = jslength pre ->
  isLineBreak (Some quote) = false ->
  Forall (isPlainIn quote) body ->
  stopsBefore (fun c => isLineBreak (Some c) = false) rest ->
  exists p', scanString context (Some quote) p
             = Throw UnterminatedString [] p'.
Proof.
  intros Hsrc Hidx Hquote Hbody Hrest.
  assert (Hsrc' : source p = (pre ++ [quote]) ++ body ++ rest).
  { rewrite Hsrc. simpl. rewrite <- !app_assoc. reflexivity. }
  unfold scanString, advance. unfold bind at 1, gets at 1.
  unfold bind at 1, modify at 1. unfold bind at 1, get at 1, gets at 1.
  change (set_column (column p + 1) (set_index (index p + 1) p))
    with (movedBy 1 p).
  destruct (hasNext (movedBy 1 p)) eqn:Hnext; [| eexists; reflexivity].
  unfold errorIf at 1. simpl negb. cbv iota.
  unfold bind at 1, pure at 1. unfold bind at 1.
  rewrite (scanStringLoop_plain context quote rest body (pre ++ [quote]));
    [ | exact Hsrc'
      | simpl; rewrite Hidx; unfold jslength; rewrite length_app; simpl; lia
      | exact Hbody
      | unfold fuelOf; simpl; rewrite Hsrc', !length_app; simpl; lia ].
  destruct rest as [| c rest'].
  - unfold errorIf, error, bind, get, gets, modify, pure.
    assert (Hch : eqnn (lastRead NaN body []) (Some quote) = false).
    { unfold lastRead. destruct (last body) as [d |] eqn:El; [| reflexivity].
      simpl. apply Z.eqb_neq. apply last_Some in El as [l' ->].
      apply Forall_app in Hbody as [_ Hd]. apply Forall_cons in Hd as [Hd _].
      apply Hd. }
    rewrite Hch. simpl. eexists. reflexivity.
  - simpl in Hrest.
    assert (Hlb : isLineBreak (Some c) = true)
      by (destruct (isLineBreak (Some c)); [reflexivity | tauto]).
    destruct (Z.eqb_spec c quote) as [-> | _]; [congruence |].
    destruct (Z.eqb_spec c Chars.Backslash) as [-> | _];
      [discriminate Hlb |].
    rewrite Hlb. eexists. reflexivity.
Qed.

End Strings.

Lemma plain_string_round_trip_witness :
  let p := atIndex 4 (script "x = 'it is'; y") in
  @scanString Example.imports Context.None (Some Chars.SingleQuote) p
  = Ok StringLiteral
      (recordRaw (units "'it is'")
         (set_tokenValue (VString (units "it is")) (movedBy 7 p))).
Proof.
  intros p.
  refine (@plain_string_round_trip Example.imports Context.None
            Chars.SingleQuote p (units "x = ") (units "it is") (units "; y")
            eq_refl eq_refl _).
  repeat constructor; discriminate.
Defined.

Lemma plain_string_unterminated_witness :
  let p := script "'it is" in
  exists p', @scanString Example.imports Context.None (Some Chars.SingleQuote) p
             = Throw UnterminatedString [] p'.
Proof.
  intros p.
  refine (@plain_string_unterminated Example.imports Context.None
            Chars.SingleQuote p [] (units "it is") [] eq_refl eq_refl
            eq_refl _ I).
  repeat constructor; discriminate.
Defined.

Section Comments.
Context `{Imports}.

Lemma skipMultiLineCommentLoop_S (fuel : nat) (q : Parser) :
  skipMultiLineCommentLoop (S fuel) q
  = if negb (hasNext q) then Ok false q
    else if eqn (nextChar q) Chars.Asterisk then
      if eqn (nextChar (advanced q)) Chars.Slash
      then Ok true (advanced (advanced q))
      else skipMultiLineCommentLoop fuel (advanced q)
    else if isLineBreak (nextChar q) then
      (newlineThenLineFeed ;; skipMultiLineCommentLoop fuel) q
    else skipMultiLineCommentLoop fuel (advanced q).
Proof.
  simpl. unfold bind at 1, get at 1, gets at 1.
  destruct (negb (hasNext q)); [reflexivity |].
  destruct (eqn (nextChar q) Chars.Asterisk).
  - unfold consume, advance, bind, gets, modify, pure. fold (advanced q).
    destruct (eqn (nextChar (advanced q)) Chars.Slash); reflexivity.
  - destruct (isLineBreak (nextChar q)); reflexivity.
Qed.

Lemma commentEnd_cons (a b : Z) (t : JSString) :
  commentEnd (a :: b :: t)
  = if (a =? Chars.Asterisk) && (b =? Chars.Slash) then Some 2
    else (fun k => k + 1) <$> commentEnd (b :: t).
Proof. reflexivity. Qed.

Lemma commentEnd_bounds (t : JSString) (k : Z) :
  commentEnd t = Some k -> 2 <= k <= jslength t.
Proof.
  revert k. induction t as [| a t IH]; intros k; [discriminate |].
  destruct t as [| b t']; [discriminate |].
  rewrite commentEnd_cons.
  destruct ((a =? Chars.Asterisk) && (b =? Chars.Slash)).
  - intros E. inversion E. unfold jslength. simpl. lia.
  - destruct (commentEnd (b :: t')) as [k' |] eqn:Ek; [| discriminate].
    simpl. intros E. inversion E. specialize (IH k' eq_refl).
    unfold jslength in *. simpl length in *. lia.
Qed.

(** The loop stops after the first [*/] at or after the cursor, or at the
    end of the source when there is none. *)
Lemma skipMultiLineCommentLoop_run (n : nat) :
  forall (t pre : JSString) (fuel : nat) (q : Parser),
    (length t <= n)%nat ->
    source q = pre ++ t ->
    index q = jslength pre ->
    (length t < fuel)%nat ->
    exists q',
      skipMultiLineCommentLoop fuel q
      = Ok (bool_decide (is_Some (commentEnd t))) q'
      /\ index q' = index q + default (jslength t) (commentEnd t)
      /\ source q' = source q
      /\ comments q' = comments q /\ startPos q' = startPos q
      /\ has (flags q') Flags.OptionsOnComment
         = has (flags q) Flags.OptionsOnComment.
Proof.
  induction n as [| n IH]; intros t pre fuel q Hn Hsrc Hidx Hfuel;
    (destruct fuel as [| fuel]; [lia |]); rewrite skipMultiLineCommentLoop_S.
  - destruct t; [| simpl in Hn; lia]. rewrite app_nil_r in Hsrc.
    rewrite hasNext_end by (rewrite Hidx, Hsrc; reflexivity). simpl.
    exists q. rewrite Z.add_0_r. auto 10.
  - destruct t as [| a t].
    { rewrite app_nil_r in Hsrc.
      rewrite hasNext_end by (rewrite Hidx, Hsrc; reflexivity). simpl.
      exists q. rewrite Z.add_0_r. auto 10. }
    destruct (hasNext_middle q pre a t Hsrc Hidx) as [-> ->]. simpl negb.
    cbv iota.
    assert (Hstep : forall q1 : Parser,
              source q1 = source q -> index q1 = index q + 1 ->
              comments q1 = comments q -> startPos q1 = startPos q ->
              has (flags q1) Flags.OptionsOnComment
              = has (flags q) Flags.OptionsOnComment ->
              exists q',
                skipMultiLineCommentLoop fuel q1
                = Ok (bool_decide (is_Some (commentEnd t))) q'
                /\ index q' = index q + 1 + default (jslength t) (commentEnd t)
                /\ source q' = source q
                /\ comments q' = comments q /\ startPos q' = startPos q
                /\ has (flags q') Flags.OptionsOnComment
                   = has (flags q) Flags.OptionsOnComment).
    { intros q1 Hs1 Hi1 Hc1 Hp1 Hf1.
      destruct (IH t (pre ++ [a]) fuel q1) as (q' & E & Hi & Hs & Hc & Hp & Hf).
      - simpl in Hn. lia.
      - rewrite Hs1, Hsrc, <- app_assoc. reflexivity.
      - rewrite Hi1, Hidx. unfold jslength. rewrite length_app. simpl. lia.
      - simpl in Hfuel. lia.
      - exists q'. split; [exact E |]. rewrite Hi, Hi1, Hs, Hc, Hp, Hf.
        repeat split; congruence. }
    unfold eqn at 1.
    destruct (Z.eqb_spec a Chars.Asterisk) as [-> | Ha].
    + (* an asterisk *)
      destruct t as [| b t'].
      * (* the last code unit *)
        assert (Hnc : nextChar (advanced q) = None).
        { unfold nextChar. simpl. rewrite Hsrc, Hidx.
          replace (jslength pre + 1) with (jslength (pre ++ [Chars.Asterisk]))
            by (unfold jslength; rewrite length_app; simpl; lia).
          apply charCodeAt_end. }
        rewrite Hnc. simpl eqn. cbv iota.
        destruct (Hstep (advanced q)) as (q' & E & Hi & Hrest);
          try reflexivity.
        exists q'. split; [exact E |]. split; [| exact Hrest].
        rewrite Hi. simpl. unfold jslength. simpl. lia.
      * assert (Hnc : nextChar (advanced q) = Some b).
        { unfold nextChar. simpl. rewrite Hsrc, Hidx.
          replace (jslength pre + 1) with (jslength (pre ++ [Chars.Asterisk]))
            by (unfold jslength; rewrite length_app; simpl; lia).
          change (Chars.Asterisk :: b :: t')
            with ([Chars.Asterisk] ++ b :: t').
          rewrite app_assoc. apply charCodeAt_middle. }
        rewrite Hnc. unfold eqn. rewrite commentEnd_cons.
        change (Chars.Asterisk =? Chars.Asterisk) with true. simpl andb.
        destruct (Z.eqb_spec b Chars.Slash) as [-> | Hb].
        -- exists (advanced (advanced q)). simpl. repeat split; try reflexivity.
           lia.
        -- destruct (Hstep (advanced q)) as (q' & E & Hi & Hrest);
             try reflexivity.
           exists q'.
           destruct (commentEnd (b :: t')) as [k |] eqn:Ek; simpl in *.
           ++ split; [exact E |]. split; [lia | exact Hrest].
           ++ split; [exact E |]. split; [| exact Hrest].
              rewrite Hi. unfold jslength. simpl length. lia.
    + assert (Hend : commentEnd (a :: t) = (fun k => k + 1) <$> commentEnd t).
      { destruct t; [reflexivity |]. rewrite commentEnd_cons.
        rewrite (proj2 (Z.eqb_neq a Chars.Asterisk) Ha). reflexivity. }
      assert (Hfin : forall q',
                index q' = index q + 1 + default (jslength t) (commentEnd t) ->
                index q' = index q
                           + default (jslength (a :: t)) (commentEnd (a :: t))).
      { intros q' ->. rewrite Hend. destruct (commentEnd t); simpl;
          unfold jslength; simpl length; lia. }
      assert (Hdec : bool_decide (is_Some (commentEnd (a :: t)))
                     = bool_decide (is_Some (commentEnd t))).
      { rewrite Hend. destruct (commentEnd t); reflexivity. }
      rewrite Hdec.
      destruct (isLineBreak (Some a)) eqn:Hlb.
      * (* a line terminator, and the line feed after it *)
        unfold newlineThenLineFeed, advanceNewline, incrIndex, bind, get,
          gets, modify, pure.
        match goal with |- context [if ?b then _ else _] =>
          destruct b eqn:Hskip end.
        -- apply andb_prop in Hskip as [Hskip Hlf].
           destruct t as [| b t'].
           { exfalso. revert Hskip. unfold hasNext. simpl. rewrite Hsrc, Hidx.
             intros E. apply Z.ltb_lt in E. unfold jslength in E.
             rewrite length_app in E. simpl in E. lia. }
           assert (Hb : b = Chars.LineFeed).
           { revert Hlf. unfold nextChar. simpl. rewrite Hsrc, Hidx.
             replace (jslength pre + 1) with (jslength (pre ++ [a]))
               by (unfold jslength; rewrite length_app; simpl; lia).
             change (a :: b :: t') with ([a] ++ b :: t').
             rewrite app_assoc, charCodeAt_middle. simpl.
             intros E. now apply Z.eqb_eq in E. }
           subst b.
           match goal with |- context [skipMultiLineCommentLoop fuel ?x] =>
             set (q2 := x) end.
           destruct (IH t' (pre ++ [a; Chars.LineFeed]) fuel q2)
             as (q' & E & Hi & Hs & Hc & Hp & Hf).
           ++ simpl in Hn. lia.
           ++ simpl. rewrite Hsrc, <- app_assoc. reflexivity.
           ++ simpl. rewrite Hidx. unfold jslength. rewrite length_app. simpl.
              lia.
           ++ simpl in Hfuel. lia.
           ++ assert (Hlf' : commentEnd (Chars.LineFeed :: t')
                            = (fun k => k + 1) <$> commentEnd t')
                by (destruct t'; reflexivity).
              exists q'. rewrite Hlf'.
              split; [destruct (commentEnd t'); exact E |].
              split.
              ** apply Hfin. rewrite Hi, Hlf'. simpl index.
                 destruct (commentEnd t'); simpl; unfold jslength;
                   simpl length; lia.
              ** rewrite Hs, Hc, Hp, Hf. simpl. repeat split.
                 apply has_setBits_other. reflexivity.
        -- destruct (Hstep (set_line (line q + 1)
                              (set_column 0
                                 (set_index (index q + 1)
                                    (set_flags (setBits (flags q)
                                                  Flags.LineTerminator) q)))))
             as (q' & E & Hi & Hrest); try reflexivity.
           { simpl. apply has_setBits_other. reflexivity. }
           exists q'. split; [exact E |]. split; [now apply Hfin | exact Hrest].
      * destruct (Hstep (advanced q)) as (q' & E & Hi & Hrest);
          try reflexivity.
        exists q'. split; [exact E |]. split; [now apply Hfin | exact Hrest].
Qed.

(** X8: [skipMultiLineComment] ends a comment after the first [*/] at or
    after the cursor, and collects the text before it when comments are
    collected; when no [*/] follows, the comment is fatal, error
    [UnterminatedComment]. *)
Theorem multiline_comment_ends_at_first_close (p : Parser)
    (pre t : JSString) :
  source p = pre ++ t ->
  index p = jslength pre ->
  match commentEnd t with
  | Some k =>
      exists p',
        skipMultiLineComment p = Ok tt p'
        /\ index p' = index p + k
        /\ comments p'
           = if has (flags p) Flags.OptionsOnComment
             then comments
                    (stateAfter
                       (collectComment "MultiLineComment"
                          (take (Z.to_nat (k - 2)) t) (startPos p)
                          (index p + k)) p)
             else comments p
  | None =>
      exists p', skipMultiLineComment p = Throw UnterminatedComment [] p'
  end.
Proof.
  intros Hsrc Hidx.
  destruct (skipMultiLineCommentLoop_run (length t) t pre (fuelOf p) p)
    as (q & E & Hi & Hs & Hc & Hp & Hf); try assumption.
  - lia.
  - unfold fuelOf. rewrite Hsrc, length_app. lia.
  - unfold skipMultiLineComment, bind, gets. rewrite E.
    destruct (commentEnd t) as [k |] eqn:Ek.
    + rewrite bool_decide_eq_true_2 by eauto.
      unfold errorIf, get, gets, pure. change (negb true) with false.
      cbv beta iota. rewrite Hf.
      simpl in Hi. destruct (commentEnd_bounds t k Ek) as [Hk2 Hkt].
      destruct (has (flags p) Flags.OptionsOnComment).
      * eexists. split; [reflexivity |]. split.
        -- unfold collectComment, modify. destruct (comments q) as [[] |];
             simpl; exact Hi.
        -- assert (Hval : slice (source q) (index p) (index q - 2)
                          = take (Z.to_nat (k - 2)) t).
           { rewrite Hs, Hsrc, Hi, Hidx.
             rewrite <- (take_drop (Z.to_nat (k - 2)) t) at 1.
             replace (jslength pre + k - 2)
               with (jslength pre + jslength (take (Z.to_nat (k - 2)) t)).
             - apply slice_middle.
             - unfold jslength in *. rewrite length_take. lia. }
           rewrite Hval, Hp, Hi.
           unfold stateAfter, collectComment, modify. rewrite Hc.
           destruct (comments p) as [[] |] eqn:Ecp; simpl; congruence.
      * exists q. auto.
    + rewrite bool_decide_eq_false_2 by (intros [? HH]; discriminate HH).
      eexists. reflexivity.
Qed.

End Comments.

Lemma multiline_comment_ends_at_first_close_witness :
  let p := atIndex 2 (script "/* a **/ b */") in
  exists p',
    @skipMultiLineComment p = Ok tt p'
    /\ index p' = 2 + 6
    /\ comments p' = None.
Proof.
  intros p.
  exact (multiline_comment_ends_at_first_close p (units "/*")
           (units " a **/ b */") eq_refl eq_refl).
Defined.

Section LineComments.
Context `{Imports}.

Lemma skipSingleLineCommentLoop_S (fuel : nat) (q : Parser) :
  skipSingleLineCommentLoop (S fuel) q
  = if negb (hasNext q) then Ok tt q
    else if isLineBreak (nextChar q) then newlineThenLineFeed q
    else skipSingleLineCommentLoop fuel (advanced q).
Proof.
  simpl. unfold bind at 1, get at 1, gets at 1.
  destruct (negb (hasNext q)); [reflexivity |].
  destruct (isLineBreak (nextChar q)); reflexivity.
Qed.

Lemma skipSingleLineCommentLoop_run (rest : JSString) :
  stopsBefore (fun c => isLineBreak (Some c) = false) rest ->
  forall (body pre : JSString) (fuel : nat) (q : Parser),
    source q = pre ++ body ++ rest ->
    index q = jslength pre ->
    Forall (fun c => isLineBreak (Some c) = false) body ->
    (length body < fuel)%nat ->
    exists q',
      skipSingleLineCommentLoop fuel q = Ok tt q'
      /\ index q' = index q + jslength body + jslength (lineEnd rest)
      /\ source q' = source q
      /\ comments q' = comments q /\ startPos q' = startPos q
      /\ flags q' = match rest with
                    | [] => flags q
                    | _ => setBits (flags q) Flags.LineTerminator
                    end.
Proof.
  intros Hrest. induction body as [| d body IH];
    intros pre fuel q Hsrc Hidx Hbody Hfuel;
    (destruct fuel as [| fuel]; [simpl in Hfuel; lia |]);
    rewrite skipSingleLineCommentLoop_S.
  - simpl in Hsrc. destruct rest as [| c rest'].
    + rewrite app_nil_r in Hsrc.
      rewrite hasNext_end by (rewrite Hidx, Hsrc; reflexivity). simpl.
      exists q. repeat split. change (jslength []) with 0. lia.
    + destruct (hasNext_middle q pre c rest' Hsrc Hidx) as [-> ->].
      simpl in Hrest.
      assert (Hlb : isLineBreak (Some c) = true)
        by (destruct (isLineBreak (Some c)); [reflexivity | tauto]).
      rewrite Hlb. simpl negb. cbv iota.
      unfold newlineThenLineFeed, advanceNewline, incrIndex, bind, get, gets,
        modify, pure.
      match goal with |- context [if ?b then _ else _] =>
        destruct b eqn:Hskip end.
      * apply andb_prop in Hskip as [Hskip Hlf].
        destruct rest' as [| c' rest''].
        { exfalso. revert Hskip. unfold hasNext. simpl. rewrite Hsrc, Hidx.
          intros E. apply Z.ltb_lt in E. unfold jslength in E.
          rewrite length_app in E. simpl in E. lia. }
        assert (Hc' : c' = Chars.LineFeed).
        { revert Hlf. unfold nextChar. simpl. rewrite Hsrc, Hidx.
          replace (jslength pre + 1) with (jslength (pre ++ [c]))
            by (unfold jslength; rewrite length_app; simpl; lia).
          change (c :: c' :: rest'') with ([c] ++ c' :: rest'').
          rewrite app_assoc, charCodeAt_middle. simpl.
          intros E. now apply Z.eqb_eq in E. }
        subst c'. eexists. split; [reflexivity |].
        split; [| repeat split].
        unfold lineEnd, jslength, Chars.LineFeed. simpl. lia.
      * eexists. split; [reflexivity |].
        split; [| repeat split].
        change (jslength []) with 0. simpl index.
        destruct rest' as [| c' rest'']; [unfold jslength; simpl; lia |].
        assert (Hc' : (c' =? Chars.LineFeed) = false).
        { apply andb_false_iff in Hskip as [Hskip | Hlf].
          - exfalso. revert Hskip. unfold hasNext. simpl. rewrite Hsrc, Hidx.
            intros E. apply Z.ltb_ge in E. unfold jslength in E.
            rewrite length_app in E. simpl in E. lia.
          - revert Hlf. unfold nextChar. simpl. rewrite Hsrc, Hidx.
            replace (jslength pre + 1) with (jslength (pre ++ [c]))
              by (unfold jslength; rewrite length_app; simpl; lia).
            change (c :: c' :: rest'') with ([c] ++ c' :: rest'').
            rewrite app_assoc, charCodeAt_middle. simpl. auto. }
        unfold lineEnd. rewrite Hc'. unfold jslength. simpl. lia.
  - apply Forall_cons in Hbody as [Hd Hbody].
    change ((d :: body) ++ rest) with (d :: body ++ rest) in Hsrc.
    destruct (hasNext_middle q pre d (body ++ rest) Hsrc Hidx) as [-> ->].
    rewrite Hd. simpl negb. cbv iota.
    destruct (IH (pre ++ [d]) fuel (advanced q))
      as (q' & E & Hi & Hs & Hc & Hp & Hf).
    + simpl. rewrite Hsrc, <- app_assoc. reflexivity.
    + simpl. rewrite Hidx. unfold jslength. rewrite length_app. simpl. lia.
    + exact Hbody.
    + simpl in Hfuel. lia.
    + exists q'. split; [exact E |]. simpl in *. rewrite Hi.
      repeat split; try assumption.
      unfold jslength. simpl length. lia.
Qed.

(** X9: [skipSingleLineComment] never fails: it moves the cursor over the
    code units up to the first line terminator, over that terminator and
    over a line feed right after it, or to the end of the source; it sets
    the [LineTerminator] flag when it met a terminator, and collects the
    text with its terminator when comments are collected. *)
Theorem single_line_comment_ends_after_line (offset : Z) (p : Parser)
    (pre body rest : JSString) :
  source p = pre ++ body ++ rest ->
  index p = jslength pre ->
  Forall (fun c => isLineBreak (Some c) = false) body ->
  stopsBefore (fun c => isLineBreak (Some c) = false) rest ->
  exists p',
    skipSingleLineComment offset p = Ok tt p'
    /\ index p' = index p + jslength (body ++ lineEnd rest)
    /\ has (flags p') Flags.LineTerminator
       = match rest with
         | [] => has (flags p) Flags.LineTerminator
         | _ => true
         end
    /\ comments p'
       = if has (flags p) Flags.OptionsOnComment
         then comments
                (stateAfter
                   (collectComment "SingleLineComment" (body ++ lineEnd rest)
                      (startPos p) (index p + jslength (body ++ lineEnd rest)))
                   p)
         else comments p.
Proof.
  intros Hsrc Hidx Hbody Hrest.
  destruct (skipSingleLineCommentLoop_run rest Hrest body pre (fuelOf p) p)
    as (q & E & Hi & Hs & Hc & Hp & Hf); try assumption.
  { unfold fuelOf. rewrite Hsrc, !length_app. lia. }
  assert (Hlen : jslength (body ++ lineEnd rest)
                 = jslength body + jslength (lineEnd rest))
    by (unfold jslength; rewrite length_app; lia).
  assert (Hflag : has (flags q) Flags.OptionsOnComment
                  = has (flags p) Flags.OptionsOnComment).
  { rewrite Hf. destruct rest; [reflexivity |].
    apply has_setBits_other. reflexivity. }
  assert (Hlt : has (flags q) Flags.LineTerminator
                = match rest with
                  | [] => has (flags p) Flags.LineTerminator
                  | _ => true
                  end).
  { rewrite Hf. destruct rest; [reflexivity |].
    apply has_setBits_same. discriminate. }
  assert (Hval : slice (source q) (index p) (index q)
                 = body ++ lineEnd rest).
  { rewrite Hs, Hi, Hidx, <- Z.add_assoc, <- Hlen.
    assert (Hsplit : exists rest', rest = lineEnd rest ++ rest').
    { destruct rest as [| c [| c' rest'']]; simpl.
      - exists []. reflexivity.
      - exists []. reflexivity.
      - destruct (c' =? Chars.LineFeed); eexists; reflexivity. }
    destruct Hsplit as [rest' Hsplit].
    rewrite Hsrc. rewrite Hsplit at 1. rewrite (app_assoc body).
    apply slice_middle. }
  unfold skipSingleLineComment, bind, get, gets, pure. cbv beta. rewrite E.
  cbv beta iota. rewrite Hflag.
  destruct (has (flags p) Flags.OptionsOnComment).
  - eexists. split; [reflexivity |].
    unfold collectComment, modify, stateAfter. rewrite Hval, Hc, Hp, Hi.
    rewrite <- Z.add_assoc, <- Hlen.
    destruct (comments p) as [[] |] eqn:Ecp; simpl;
      (split; [lia |]); (split; [exact Hlt |]); congruence.
  - exists q. rewrite Hlen. repeat split; try assumption. lia.
Qed.

End LineComments.

Lemma single_line_comment_ends_after_line_witness :
  let p := atIndex 2 (script "// note
x") in
  exists p',
    skipSingleLineComment 2 p = Ok tt p'
    /\ index p' = 8
    /\ has (flags p') Flags.LineTerminator = true
    /\ comments p' = None.
Proof.
  intros p.
  refine (single_line_comment_ends_after_line 2 p (units "//") (units " note")
            [10; 120] eq_refl eq_refl _ _).
  - repeat constructor.
  - simpl. discriminate.
Defined.

Section Int32.

Lemma int32_range (z : Z) : -2147483648 <= int32 z < 2147483648.
Proof.
  unfold int32.
  pose proof (Z.mod_pos_bound (z + 2147483648) 4294967296 ltac:(lia)). lia.
Qed.

Lemma int32_small (z : Z) : -2147483648 <= z < 2147483648 -> int32 z = z.
Proof. intros Hz. unfold int32. rewrite Z.mod_small; lia. Qed.

Lemma int32_idem (z : Z) : int32 (int32 z) = int32 z.
Proof. apply int32_small, int32_range. Qed.

Lemma int32_eq_mod (z : Z) :
  exists q, int32 z = z + q * 4294967296.
Proof.
  unfold int32. exists (- ((z + 2147483648) / 4294967296)).
  rewrite Z.mod_eq by lia. lia.
Qed.

Lemma int32_add_multiple (z q : Z) : int32 (z + q * 4294967296) = int32 z.
Proof.
  unfold int32.
  replace (z + q * 4294967296 + 2147483648)
    with (z + 2147483648 + q * 4294967296) by lia.
  now rewrite Z_mod_plus_full.
Qed.

Lemma int32_scale (m a b : Z) : int32 (m * int32 a + b) = int32 (m * a + b).
Proof.
  destruct (int32_eq_mod a) as [q ->].
  replace (m * (a + q * 4294967296) + b)
    with (m * a + b + (m * q) * 4294967296) by lia.
  apply int32_add_multiple.
Qed.

Lemma land_scaled_digit (k m d : Z) :
  0 <= k -> 0 <= d < 2 ^ k -> Z.land (m * 2 ^ k) d = 0.
Proof.
  intros Hk Hd. apply Z.bits_inj'. intros n Hn.
  rewrite Z.land_spec, Z.bits_0.
  destruct (Z.lt_ge_cases n k) as [Hlt | Hge].
  - rewrite Z.mul_pow2_bits_low by lia. reflexivity.
  - apply andb_false_intro2.
    destruct (Z.eq_dec d 0) as [-> | Hd0]; [apply Z.bits_0 |].
    apply Z.bits_above_log2; [lia |].
    apply Z.log2_lt_pow2; [lia |].
    apply Z.lt_le_trans with (2 ^ k); [lia |].
    apply Z.pow_le_mono_r; lia.
Qed.

(** [code << k | d] on 32-bit integers is [2 ^ k * code + d] wrapped to
    32 bits, for a digit [d] below [2 ^ k]. *)
Lemma or32_shl32_digit (k code d : Z) :
  0 < k < 32 -> 0 <= d < 2 ^ k ->
  or32 (shl32 code k) d = int32 (2 ^ k * code + d).
Proof.
  intros Hk Hd.
  assert (Hpow : 2 ^ k <= 2147483648).
  { change 2147483648 with (2 ^ 31). apply Z.pow_le_mono_r; lia. }
  unfold or32, shl32. rewrite int32_idem, (int32_small d) by lia.
  rewrite Z.mod_small by lia. rewrite Z.shiftl_mul_pow2 by lia.
  rewrite <- (Z.add_0_r (int32 code * 2 ^ k)), (Z.mul_comm (int32 code)).
  rewrite int32_scale, Z.add_0_r.
  (* the wrapped product is a multiple of [2 ^ k] *)
  assert (Hmul : exists m, int32 (2 ^ k * code) = m * 2 ^ k).
  { unfold int32.
    assert (H32 : 4294967296 = 2 ^ k * 2 ^ (32 - k)).
    { rewrite <- Z.pow_add_r by lia. now replace (k + (32 - k)) with 32 by lia. }
    assert (H31 : 2147483648 = 2 ^ k * 2 ^ (31 - k)).
    { rewrite <- Z.pow_add_r by lia. now replace (k + (31 - k)) with 31 by lia. }
    assert (Hmod : (2 ^ k * code + 2147483648) mod 4294967296
                   = 2 ^ k * ((code + 2 ^ (31 - k)) mod 2 ^ (32 - k))).
    { rewrite <- Z.mul_mod_distr_l;
        [| apply Z.pow_nonzero; lia | apply Z.pow_nonzero; lia].
      f_equal; lia. }
    rewrite Hmod.
    exists ((code + 2 ^ (31 - k)) mod 2 ^ (32 - k) - 2 ^ (31 - k)). lia. }
  destruct Hmul as [m Hm].
  pose proof (int32_range (2 ^ k * code)) as Hr.
  rewrite Hm in *.
  rewrite <- Z.lxor_lor by (now apply land_scaled_digit; lia).
  rewrite <- Z.add_nocarry_lxor by (now apply land_scaled_digit; lia).
  assert (Hk0 : 0 < 2 ^ k) by (apply Z.pow_pos_nonneg; lia).
  assert (Hbound : m * 2 ^ k + d < 2147483648).
  { assert (H31 : 2147483648 = 2 ^ (31 - k) * 2 ^ k).
    { rewrite <- Z.pow_add_r by lia. now replace (31 - k + k) with 31 by lia. }
    assert (Hm' : m < 2 ^ (31 - k)) by nia.
    nia. }
  rewrite <- (int32_small (m * 2 ^ k + d)) by lia.
  rewrite <- Hm. destruct (int32_eq_mod (2 ^ k * code)) as [q ->].
  replace (2 ^ k * code + q * 4294967296 + d)
    with (2 ^ k * code + d + q * 4294967296) by lia.
  apply int32_add_multiple.
Qed.

(** The code that a digit loop accumulates is the number that the digits
    denote, wrapped to 32 bits. *)
Lemma fold_or32_shl32 (k : Z) (digit : Z -> Z) (ds : JSString) (v : Z) :
  0 < k < 32 ->
  Forall (fun d => 0 <= digit d < 2 ^ k) ds ->
  fold_left (fun code d => or32 (shl32 code k) (digit d)) ds (int32 v)
  = int32 (radixValue k digit ds v).
Proof.
  intros Hk. revert v. induction ds as [| d ds IH]; intros v Hds; simpl.
  - reflexivity.
  - apply Forall_cons in Hds as [Hd Hds].
    rewrite or32_shl32_digit by assumption.
    rewrite int32_scale. unfold radixValue in *. simpl. now apply IH.
Qed.

End Int32.

Section HexLiterals.
Context `{Imports}.

Lemma scanHexadecimalDigitLoop_S (fuel : nat) (ch : num) (code : Z)
    (q : Parser) :
  scanHexadecimalDigitLoop (S fuel) ch code q
  = if negb (hasNext q) then Ok (ch, code) q
    else if toHex (nextChar q) <? 0 then Ok (nextChar q, code) q
    else scanHexadecimalDigitLoop fuel (nextChar q)
           (or32 (shl32 code 4) (toHex (nextChar q))) (advanced q).
Proof.
  simpl. unfold bind at 1, get at 1, gets at 1.
  destruct (negb (hasNext q)); [reflexivity |].
  destruct (toHex (nextChar q) <? 0); reflexivity.
Qed.

Lemma scanHexadecimalDigitLoop_run (rest : JSString) :
  stopsBefore (fun c => 0 <= toHex (Some c)) rest ->
  forall (hs pre : JSString) (fuel : nat) (ch : num) (code : Z) (q : Parser),
    source q = pre ++ hs ++ rest ->
    index q = jslength pre ->
    Forall (fun h => 0 <= toHex (Some h)) hs ->
    (length hs < fuel)%nat ->
    scanHexadecimalDigitLoop fuel ch code q
    = Ok (lastRead ch hs rest,
          fold_left (fun code h => or32 (shl32 code 4) (toHex (Some h)))
            hs code)
        (movedBy (jslength hs) q).
Proof.
  intros Hrest. induction hs as [| h hs IH];
    intros pre fuel ch code q Hsrc Hidx Hhs Hfuel;
    (destruct fuel as [| fuel]; [simpl in Hfuel; lia |]);
    rewrite scanHexadecimalDigitLoop_S.
  - simpl in Hsrc. change (jslength []) with 0. rewrite movedBy_0.
    destruct rest as [| c rest'].
    + rewrite app_nil_r in Hsrc.
      rewrite hasNext_end by (rewrite Hidx, Hsrc; reflexivity). reflexivity.
    + destruct (hasNext_middle q pre c rest' Hsrc Hidx) as [-> ->].
      simpl in Hrest. simpl negb. cbv iota.
      replace (toHex (Some c) <? 0) with true
        by (symmetry; apply Z.ltb_lt; lia).
      reflexivity.
  - apply Forall_cons in Hhs as [Hh Hhs].
    change ((h :: hs) ++ rest) with (h :: hs ++ rest) in Hsrc.
    destruct (hasNext_middle q pre h (hs ++ rest) Hsrc Hidx) as [-> ->].
    simpl negb. cbv iota.
    replace (toHex (Some h) <? 0) with false
      by (symmetry; apply Z.ltb_ge; lia).
    change (advanced q) with (movedBy 1 q).
    rewrite (IH (pre ++ [h]) fuel).
    + rewrite movedBy_add. f_equal.
      * f_equal. unfold lastRead. destruct rest; [| reflexivity].
        rewrite last_cons. destruct (last hs); reflexivity.
      * f_equal. unfold jslength. simpl length. lia.
    + simpl. rewrite Hsrc, <- app_assoc. reflexivity.
    + simpl. rewrite Hidx. unfold jslength. rewrite length_app. simpl. lia.
    + exact Hhs.
    + simpl in Hfuel. lia.
Qed.

(** X10: a literal [0x] or [0X] with hexadecimal digits scans, when the
    [next] option is off, to a numeric literal whose value is the number
    that the digits denote wrapped to a signed 32-bit integer, with the
    cursor after the last digit. *)
Theorem hexadecimal_literal_value (context : Z) (first : num) (p : Parser)
    (pre : JSString) (x h : Z) (hs rest : JSString) :
  source p = pre ++ (Chars.Zero :: x :: h :: hs) ++ rest ->
  index p = jslength pre ->
  x = Chars.LowerX \/ x = Chars.UpperX ->
  Forall (fun h => 0 <= toHex (Some h) < 16) (h :: hs) ->
  stopsBefore (fun c => 0 <= toHex (Some c)) rest ->
  has (flags p) Flags.OptionsNext = false ->
  scanZero context first p
  = Ok NumericLiteral
      (recordRaw
         (slice (source p) (startPos p) (index p + jslength (h :: hs) + 2))
         (set_tokenValue
            (VNumber
               (numberOfZ
                  (int32 (radixValue 4 (fun h => toHex (Some h)) (h :: hs) 0))))
            (movedBy (jslength (h :: hs) + 2) p))).
Proof.
  intros Hsrc Hidx Hx Hhs Hrest Hnext.
  assert (Hlen : index p + 1 + 1 < jslength (source p)).
  { rewrite Hsrc, Hidx. unfold jslength. rewrite !length_app. simpl. lia. }
  assert (Hch : charCodeAt (source p) (index p + 1) = Some x).
  { rewrite Hsrc, Hidx.
    replace (jslength pre + 1) with (jslength (pre ++ [Chars.Zero]))
      by (unfold jslength; rewrite length_app; simpl; lia).
    change ((Chars.Zero :: x :: h :: hs) ++ rest)
      with ([Chars.Zero] ++ x :: (h :: hs) ++ rest).
    rewrite app_assoc. apply charCodeAt_middle. }
  unfold scanZero, bind, get, gets. rewrite Hch.
  replace (index p + 1 + 1 <? jslength (source p)) with true
    by (symmetry; now apply Z.ltb_lt).
  replace (oneOf (Some x) [Chars.LowerX; Chars.UpperX]) with true
    by (destruct Hx as [-> | ->]; reflexivity).
  simpl andb. cbv iota.
  assert (Hsrc' : source p = (pre ++ [Chars.Zero; x]) ++ h :: hs ++ rest).
  { rewrite Hsrc, <- app_assoc. reflexivity. }
  apply Forall_cons in Hhs as [Hh Hhs].
  destruct (hasNext_middle (movedBy 2 p) (pre ++ [Chars.Zero; x]) h
              (hs ++ rest)) as [Hn Hc].
  { exact Hsrc'. }
  { simpl. rewrite Hidx. unfold jslength. rewrite length_app. simpl. lia. }
  change (true && true) with true. cbv beta iota.
  unfold scanHexadecimalDigit, advanceTwice, advance, errorIf.
  cbv beta iota delta [bind gets get modify pure].
  change (set_column (column p + 2) (set_index (index p + 2) p))
    with (movedBy 2 p).
  rewrite Hn, Hc. change (negb true) with false. cbv beta iota.
  replace (toHex (Some h) <? 0) with false
    by (symmetry; apply Z.ltb_ge; lia).
  cbv beta iota.
  change (set_column (column (movedBy 2 p) + 1)
            (set_index (index (movedBy 2 p) + 1) (movedBy 2 p)))
    with (movedBy 1 (movedBy 2 p)).
  rewrite (scanHexadecimalDigitLoop_run rest Hrest hs
             (pre ++ [Chars.Zero; x; h]));
    [ | simpl; rewrite Hsrc, <- app_assoc; reflexivity
      | simpl; rewrite Hidx; unfold jslength; rewrite length_app; simpl; lia
      | eapply Forall_impl; [exact Hhs | simpl; intros; lia]
      | unfold fuelOf; change (source (movedBy 2 p)) with (source p);
        rewrite Hsrc', !length_app; simpl length; rewrite ?length_app; lia ].
  rewrite !movedBy_add. cbv beta iota.
  change (flags (set_tokenValue _ _)) with (flags p). rewrite Hnext.
  rewrite andb_false_l. cbv beta iota.
  unfold snd.
  rewrite <- (int32_small (toHex (Some h))) by lia.
  rewrite (fold_or32_shl32 4 (fun h => toHex (Some h)) hs) by (lia || exact Hhs).
  replace (radixValue 4 (fun h0 => toHex (Some h0)) hs (toHex (Some h)))
    with (radixValue 4 (fun h0 => toHex (Some h0)) (h :: hs) 0)
    by (unfold radixValue; simpl; f_equal; lia).
  replace (2 + (1 + jslength hs)) with (jslength (h :: hs) + 2)
    by (unfold jslength; simpl length; lia).
  unfold recordRaw. change (flags (set_tokenValue _ _)) with (flags p).
  destruct (has (flags p) Flags.OptionsRaw); [| reflexivity].
  do 2 f_equal. simpl. f_equal. lia.
Qed.

End HexLiterals.

Lemma hexadecimal_literal_value_witness :
  let p := script "0xFFFFFFFF;" in
  @scanZero Example.imports Context.None (Some Chars.Zero) p
  = Ok NumericLiteral
      (set_tokenValue (VNumber (numberOfZ (-1))) (movedBy 10 p)).
Proof.
  intros p.
  refine (@hexadecimal_literal_value Example.imports Context.None
            (Some Chars.Zero) p [] Chars.LowerX 70 (units "FFFFFFF")
            (units ";") eq_refl eq_refl _ _ _ eq_refl).
  - now left.
  - repeat constructor; vm_compute; congruence.
  - simpl. vm_compute. congruence.
Defined.

Section OctalLiterals.
Context `{Imports}.

Lemma scanOctalDigitsLoop_S (fuel : nat) (ch : num) (code : Z) (q : Parser) :
  scanOctalDigitsLoop (S fuel) ch code q
  = if negb (hasNext q) then Ok (ch, code) q
    else if negb (isDigit (nextChar q)) then Ok (nextChar q, code) q
    else if ltn (nextChar q) Chars.Zero || geqn (nextChar q) Chars.Eight
    then Throw InvalidBinaryDigit [] q
    else scanOctalDigitsLoop fuel (nextChar q)
           (or32 (shl32 code 3) (toInt32 (nextChar q) - Chars.Zero))
           (advanced q).
Proof.
  simpl. unfold bind at 1, get at 1, gets at 1.
  destruct (negb (hasNext q)); [reflexivity |].
  destruct (negb (isDigit (nextChar q))); [reflexivity |].
  unfold errorIf, error, bind, pure.
  destruct (ltn (nextChar q) Chars.Zero || geqn (nextChar q) Chars.Eight);
    reflexivity.
Qed.

Lemma octal_digit_checks (d : Z) :
  Chars.Zero <= d < Chars.Eight ->
  ltn (Some d) Chars.Zero || geqn (Some d) Chars.Eight = false
  /\ toInt32 (Some d) - Chars.Zero = d - 48
  /\ 0 <= d - 48 < 2 ^ 3.
Proof.
  unfold Chars.Zero, Chars.Eight. intros Hd. split; [| split].
  - apply orb_false_intro; simpl; [apply Z.ltb_ge | apply Z.leb_gt]; lia.
  - unfold toInt32. simpl. rewrite int32_small; lia.
  - change (2 ^ 3) with 8. lia.
Qed.

(** The loop over octal digits: it stops at the end of the source or at a
    code unit that is no digit, and a digit [8] or [9] is fatal. *)
Lemma scanOctalDigitsLoop_run (rest : JSString) :
  forall (ds pre : JSString) (fuel : nat) (ch : num) (code : Z) (q : Parser),
    source q = pre ++ ds ++ rest ->
    index q = jslength pre ->
    Forall isOctalDigit ds ->
    (length ds < fuel)%nat ->
    scanOctalDigitsLoop fuel ch code q
    = match rest with
      | c :: _ =>
          if negb (isDigit (Some c))
          then Ok (Some c,
                   fold_left (fun code d => or32 (shl32 code 3) (d - 48))
                     ds code) (movedBy (jslength ds) q)
          else if ltn (Some c) Chars.Zero || geqn (Some c) Chars.Eight
          then Throw InvalidBinaryDigit [] (movedBy (jslength ds) q)
          else scanOctalDigitsLoop (fuel - length ds) (lastRead ch ds [])
                 (fold_left (fun code d => or32 (shl32 code 3) (d - 48))
                    ds code) (movedBy (jslength ds) q)
      | [] => Ok (lastRead ch ds [],
                  fold_left (fun code d => or32 (shl32 code 3) (d - 48))
                    ds code) (movedBy (jslength ds) q)
      end.
Proof.
  induction ds as [| d ds IH]; intros pre fuel ch code q Hsrc Hidx Hds Hfuel;
    (destruct fuel as [| fuel]; [simpl in Hfuel; lia |]).
  - simpl in Hsrc. change (jslength []) with 0. rewrite movedBy_0.
    simpl length. rewrite Nat.sub_0_r. unfold lastRead. simpl fold_left.
    simpl last.
    destruct rest as [| c rest'].
    + rewrite app_nil_r in Hsrc. rewrite scanOctalDigitsLoop_S.
      rewrite hasNext_end by (rewrite Hidx, Hsrc; reflexivity). reflexivity.
    + destruct (hasNext_middle q pre c rest' Hsrc Hidx) as [Hn Hc].
      destruct (negb (isDigit (Some c))) eqn:Ed;
        [| destruct (ltn (Some c) Chars.Zero || geqn (Some c) Chars.Eight)
             eqn:Eo]; try reflexivity.
      * rewrite scanOctalDigitsLoop_S, Hn, Hc, Ed. reflexivity.
      * rewrite scanOctalDigitsLoop_S, Hn, Hc, Ed, Eo. reflexivity.
  - apply Forall_cons in Hds as [[Hdig Hd] Hds].
    change ((d :: ds) ++ rest) with (d :: ds ++ rest) in Hsrc.
    destruct (hasNext_middle q pre d (ds ++ rest) Hsrc Hidx) as [Hn Hc].
    destruct (octal_digit_checks d Hd) as (Ho & Hv & _).
    rewrite scanOctalDigitsLoop_S, Hn, Hc, Hdig, Ho, Hv.
    change (negb true) with false. cbv iota.
    change (advanced q) with (movedBy 1 q).
    rewrite (IH (pre ++ [d]) fuel (Some d)).
    + rewrite movedBy_add.
      replace (1 + jslength ds) with (jslength (d :: ds))
        by (unfold jslength; simpl length; lia).
      replace (lastRead (Some d) ds []) with (lastRead ch (d :: ds) []).
      2:{ unfold lastRead. rewrite last_cons. destruct (last ds); reflexivity. }
      simpl length. simpl Nat.sub. simpl fold_left. reflexivity.
    + simpl. rewrite Hsrc, <- app_assoc. reflexivity.
    + simpl. rewrite Hidx. unfold jslength. rewrite length_app. simpl. lia.
    + exact Hds.
    + simpl in Hfuel. lia.
Qed.

(** X11: a literal [0o] or [0O] with octal digits scans, in sloppy mode
    and with the [next] option off, to a numeric literal whose value is
    the number that the digits denote wrapped to a signed 32-bit integer
    when no digit follows them; a digit [8] or [9] after them is fatal,
    error [InvalidBinaryDigit]; and in strict mode the literal itself is
    fatal, error [StrictOctalEscape]. *)
Theorem octal_literal_value (context : Z) (first : num) (p : Parser)
    (pre : JSString) (o d : Z) (ds rest : JSString) :
  source p = pre ++ (Chars.Zero :: o :: d :: ds) ++ rest ->
  index p = jslength pre ->
  o = Chars.LowerO \/ o = Chars.UpperO ->
  Chars.Zero <= d < Chars.Eight ->
  Forall isOctalDigit ds ->
  stopsBefore isOctalDigit rest ->
  has (flags p) Flags.OptionsNext = false ->
  scanZero context first p
  = if has context Context.Strict then Throw StrictOctalEscape [] p
    else
      match rest with
      | c :: _ =>
          if isDigit (Some c)
          then Throw InvalidBinaryDigit []
                 (movedBy (jslength (d :: ds) + 2) p)
          else
            Ok NumericLiteral
              (recordRaw
                 (slice (source p) (startPos p)
                    (index p + jslength (d :: ds) + 2))
                 (set_tokenValue
                    (VNumber
                       (numberOfZ
                          (int32 (radixValue 3 (fun d => d - 48) (d :: ds) 0))))
                    (movedBy (jslength (d :: ds) + 2) p)))
      | [] =>
          Ok NumericLiteral
            (recordRaw
               (slice (source p) (startPos p)
                  (index p + jslength (d :: ds) + 2))
               (set_tokenValue
                  (VNumber
                     (numberOfZ
                        (int32 (radixValue 3 (fun d => d - 48) (d :: ds) 0))))
                  (movedBy (jslength (d :: ds) + 2) p)))
      end.
Proof.
  intros Hsrc Hidx Hx Hd Hds Hrest Hnext.
  assert (Hlen : index p + 1 + 1 < jslength (source p)).
  { rewrite Hsrc, Hidx. unfold jslength. rewrite !length_app. simpl. lia. }
  assert (Hch : charCodeAt (source p) (index p + 1) = Some o).
  { rewrite Hsrc, Hidx.
    replace (jslength pre + 1) with (jslength (pre ++ [Chars.Zero]))
      by (unfold jslength; rewrite length_app; simpl; lia).
    change ((Chars.Zero :: o :: d :: ds) ++ rest)
      with ([Chars.Zero] ++ o :: (d :: ds) ++ rest).
    rewrite app_assoc. apply charCodeAt_middle. }
  unfold scanZero, bind, get, gets. rewrite Hch.
  replace (index p + 1 + 1 <? jslength (source p)) with true
    by (symmetry; now apply Z.ltb_lt).
  replace (oneOf (Some o) [Chars.LowerX; Chars.UpperX]) with false
    by (destruct Hx as [-> | ->]; reflexivity).
  replace (oneOf (Some o) [Chars.LowerB; Chars.UpperB]) with false
    by (destruct Hx as [-> | ->]; reflexivity).
  replace (oneOf (Some o) [Chars.LowerO; Chars.UpperO]) with true
    by (destruct Hx as [-> | ->]; reflexivity).
  change (true && false) with false. change (true && true) with true.
  cbv beta iota.
  unfold scanOctalDigits. unfold errorIf at 1. unfold bind at 1.
  destruct (has context Context.Strict); [reflexivity |].
  unfold pure at 1.
  assert (Hsrc' : source p = (pre ++ [Chars.Zero; o]) ++ d :: ds ++ rest).
  { rewrite Hsrc, <- app_assoc. reflexivity. }
  destruct (hasNext_middle (movedBy 2 p) (pre ++ [Chars.Zero; o]) d
              (ds ++ rest)) as [Hn Hc].
  { exact Hsrc'. }
  { simpl. rewrite Hidx. unfold jslength. rewrite length_app. simpl. lia. }
  destruct (octal_digit_checks d Hd) as (Ho & Hv & Hr).
  unfold advanceTwice, advance, errorIf.
  cbv beta iota delta [bind gets get modify pure].
  change (set_column (column p + 2) (set_index (index p + 2) p))
    with (movedBy 2 p).
  rewrite Hn, Hc, Ho. change (negb true) with false. cbv beta iota.
  change (set_column (column (movedBy 2 p) + 1)
            (set_index (index (movedBy 2 p) + 1) (movedBy 2 p)))
    with (movedBy 1 (movedBy 2 p)).
  rewrite (scanOctalDigitsLoop_run rest ds (pre ++ [Chars.Zero; o; d]));
    [ | simpl; rewrite Hsrc, <- app_assoc; reflexivity
      | simpl; rewrite Hidx; unfold jslength; rewrite length_app; simpl; lia
      | exact Hds
      | unfold fuelOf; change (source (movedBy 2 p)) with (source p);
        rewrite Hsrc', !length_app; simpl length; rewrite ?length_app; lia ].
  rewrite !movedBy_add.
  replace (2 + (1 + jslength ds)) with (jslength (d :: ds) + 2)
    by (unfold jslength; simpl length; lia).
  assert (Hval : fold_left (fun code d0 => or32 (shl32 code 3) (d0 - 48)) ds
                   (default 0 (Some d) - Chars.Zero)
                 = int32 (radixValue 3 (fun d0 => d0 - 48) (d :: ds) 0)).
  { change (default 0 (Some d) - Chars.Zero) with (d - 48).
    rewrite <- (int32_small (d - 48)) by (change (2 ^ 3) with 8 in Hr; lia).
    rewrite (fold_or32_shl32 3 (fun d0 => d0 - 48) ds).
    - unfold radixValue. simpl. do 2 f_equal; lia.
    - lia.
    - eapply Forall_impl; [exact Hds |]. intros d0 [_ Hd0].
      apply (octal_digit_checks d0 Hd0). }
  rewrite Hval.
  assert (Hfin : forall r : num,
            (modify (set_tokenValue
                       (VNumber
                          (numberOfZ
                             (int32 (radixValue 3 (fun d0 => d0 - 48)
                                       (d :: ds) 0))))) ;;
             p0 <- get ;;
             if has (flags p0) Flags.OptionsNext && eqn r Chars.LowerN
             then scanBigInt
             else
               (if has (flags p0) Flags.OptionsRaw
                then modify (set_tokenRaw
                               (slice (source p0) (startPos p0) (index p0)))
                else pure tt) ;;
               pure NumericLiteral) (movedBy (jslength (d :: ds) + 2) p)
            = Ok NumericLiteral
                (recordRaw
                   (slice (source p) (startPos p)
                      (index p + jslength (d :: ds) + 2))
                   (set_tokenValue
                      (VNumber
                         (numberOfZ
                            (int32 (radixValue 3 (fun d0 => d0 - 48)
                                      (d :: ds) 0))))
                      (movedBy (jslength (d :: ds) + 2) p)))).
  { intros r. cbv beta iota delta [bind gets get modify pure].
    change (flags (set_tokenValue _ _)) with (flags p). rewrite Hnext.
    rewrite andb_false_l. cbv beta iota. unfold recordRaw.
    change (flags (set_tokenValue _ _)) with (flags p).
    destruct (has (flags p) Flags.OptionsRaw); [| reflexivity].
    do 2 f_equal. simpl. f_equal. lia. }
  destruct rest as [| c rest'].
  - cbv beta iota. unfold fst, snd. apply (Hfin (lastRead (Some d) ds [])).
  - destruct (isDigit (Some c)) eqn:Ec.
    + change (negb true) with false. cbv iota.
      replace (ltn (Some c) Chars.Zero || geqn (Some c) Chars.Eight) with true;
        [reflexivity |].
      symmetry. simpl in Hrest. unfold isOctalDigit in Hrest. simpl.
      destruct (Z.ltb_spec c Chars.Zero); [reflexivity |].
      destruct (Z.leb_spec Chars.Eight c); [reflexivity |].
      exfalso. apply Hrest. split; [exact Ec | lia].
    + change (negb false) with true. cbv beta iota. unfold fst, snd.
      apply (Hfin (Some c)).
Qed.

End OctalLiterals.

Lemma octal_literal_value_witness :
  let p := script "0o17 018" in
  @scanZero Example.imports Context.None (Some Chars.Zero) p
  = Ok NumericLiteral
      (set_tokenValue (VNumber (numberOfZ 15)) (movedBy 4 p))
  /\ @scanZero Example.imports Context.None (Some Chars.Zero)
       (script "0o18")
     = Throw InvalidBinaryDigit [] (movedBy 3 (script "0o18")).
Proof.
  intros p. split.
  - refine (@octal_literal_value Example.imports Context.None
              (Some Chars.Zero) p [] Chars.LowerO 49 [55] (units " 018")
              eq_refl eq_refl _ _ _ _ eq_refl).
    + now left.
    + unfold Chars.Zero, Chars.Eight. lia.
    + repeat constructor. unfold Chars.Zero, Chars.Eight. lia.
    + simpl. intros [E _]. discriminate E.
  - refine (@octal_literal_value Example.imports Context.None
              (Some Chars.Zero) (script "0o18") [] Chars.LowerO 49 []
              [56] eq_refl eq_refl _ _ _ _ eq_refl).
    + now left.
    + unfold Chars.Zero, Chars.Eight. lia.
    + constructor.
    + simpl. intros [_ E]. unfold Chars.Eight in E. lia.
Defined.

Section ProbeAnswers.
Context `{Imports}.

(** X12: when the token after the cursor scans to [t], the three
    lookahead probes return, and answer about that token and not about
    the current one: [nextTokenIsLeftParen] whether [t] is a left
    parenthesis, [isLexical] whether [t] starts a binding pattern, and
    [nextTokenIsFunctionKeyword] whether [t] is [function] and was scanned
    without leaving the line of the cursor. *)
Theorem probes_answer_about_next_token (context : Z) (p q : Parser)
    (t : Token) :
  scanToken context p = Ok t q ->
  (exists p', nextTokenIsLeftParen context p
              = Ok (bool_decide (t = LeftParen)) p')
  /\ (exists p', isLexical context p = Ok (isBindingPattern t) p')
  /\ (exists p', nextTokenIsFunctionKeyword context p
                 = Ok ((line p =? line q) && bool_decide (t = FunctionKeyword))
                     p').
Proof.
  intros E.
  unfold nextTokenIsLeftParen, isLexical, nextTokenIsFunctionKeyword,
    nextToken, rewindState, saveState.
  cbv beta iota delta [bind gets get modify pure]. rewrite E. cbv beta iota.
  repeat split; eexists; reflexivity.
Qed.

End ProbeAnswers.

Lemma probes_answer_about_next_token_witness :
  let p := atIndex 5 (script "async function f() {}") in
  exists p', @nextTokenIsFunctionKeyword Example.imports Context.None p
             = Ok true p'.
Proof.
  intros p.
  assert (E : @scanToken Example.imports Context.None p
              = Ok FunctionKeyword
                  (stateAfter (@scanToken Example.imports Context.None) p))
    by (vm_compute; reflexivity).
  destruct (proj2 (proj2 (@probes_answer_about_next_token Example.imports
                            Context.None p _ FunctionKeyword E)))
    as [p' Hp'].
  exists p'. rewrite Hp'. f_equal.
Defined.

Section Templates.
Context `{Imports}.

Lemma scanTemplateLoop_plain (fuel : nat) (context : Z) (ret : JSString)
    (c : Z) (q : Parser) :
  isPlainInTemplate c ->
  exists q1,
    source q1 = source q /\ index q1 = index q + 1
    /\ scanTemplateLoop (S fuel) context ret (Some c) q
       = if negb (hasNext q1) then Throw UnterminatedTemplate [] q1
         else scanTemplateLoop fuel context (ret ++ fromCodePoint (Some c))
                (nextChar q1) q1.
Proof.
  intros (Hb & Hd & Hs & Hr). simpl. unfold eqn.
  rewrite (proj2 (Z.eqb_neq c _) Hb), (proj2 (Z.eqb_neq c _) Hd),
    (proj2 (Z.eqb_neq c _) Hs), (proj2 (Z.eqb_neq c _) Hr).
  destruct ((c =? Chars.LineFeed) || _);
    unfold advance, errorIf, error;
    cbv beta iota delta [bind gets get modify pure].
  - exists (movedBy 1 (set_line (line q + 1) (set_column (-1) q))).
    split; [reflexivity |]. split; [reflexivity |].
    destruct (negb (hasNext _)); reflexivity.
  - exists (movedBy 1 q).
    split; [reflexivity |]. split; [reflexivity |].
    destruct (negb (hasNext _)); reflexivity.
Qed.

(** A dollar sign that no left brace follows is appended as it is. *)
Lemma scanTemplateLoop_dollar (fuel : nat) (context : Z) (ret : JSString)
    (x : Z) (q : Parser) :
  charCodeAt (source q) (index q + 1) = Some x ->
  x <> Chars.LeftBrace ->
  scanTemplateLoop (S fuel) context ret (Some Chars.Dollar) q
  = if negb (hasNext (movedBy 1 q))
    then Throw UnterminatedTemplate [] (movedBy 1 q)
    else scanTemplateLoop fuel context (ret ++ [Chars.Dollar])
           (nextChar (movedBy 1 q)) (movedBy 1 q).
Proof.
  intros Hx Hb. simpl. unfold eqn.
  change (Chars.Dollar =? Chars.Backtick) with false.
  change (Chars.Dollar =? Chars.Dollar) with true. cbv iota.
  unfold advance, errorIf, error.
  cbv beta iota delta [bind gets get modify pure].
  rewrite Hx. rewrite (proj2 (Z.eqb_neq x _) Hb), andb_false_r.
  change (set_column (column q + 1) (set_index (index q + 1) q))
    with (movedBy 1 q).
  destruct (negb (hasNext (movedBy 1 q))); reflexivity.
Qed.

(** The loop over a text without substitution, from its first code unit
    under the cursor to the code unit that follows it. *)
Lemma scanTemplateLoop_run (context : Z) (c' : Z) (rest : JSString) :
  c' <> Chars.LeftBrace ->
  forall (body pre : JSString) (fuel : nat) (ret : JSString) (q : Parser),
    source q = pre ++ body ++ c' :: rest ->
    index q = jslength pre ->
    templateText body ->
    Forall (fun c => c <> Chars.Dollar -> fromCodePoint (Some c) = [c]) body ->
    (length body < fuel)%nat ->
    exists q',
      source q' = source q /\ index q' = index q + jslength body
      /\ scanTemplateLoop fuel context ret
           (charCodeAt (body ++ [c']) 0) q
         = scanTemplateLoop (fuel - length body) context (ret ++ body)
             (Some c') q'.
Proof.
  intros Hc'.
  induction body as [| c body IH]; intros pre fuel ret q Hsrc Hidx Hbody Hcp
    Hfuel.
  - exists q. simpl. rewrite Nat.sub_0_r, app_nil_r, Z.add_0_r. auto.
  - destruct fuel as [| fuel]; [simpl in Hfuel; lia |].
    destruct Hbody as [Hc Hbody].
    apply Forall_cons in Hcp as [Hcc Hcp].
    (* the code unit after [c] *)
    assert (Hx : charCodeAt (source q) (index q + 1)
                 = charCodeAt (body ++ [c']) 0
                 /\ exists x, charCodeAt (body ++ [c']) 0 = Some x
                              /\ (head body = Some x \/ (body = [] /\ x = c'))).
    { rewrite Hsrc, Hidx.
      replace (jslength pre + 1) with (jslength (pre ++ [c]))
        by (unfold jslength; rewrite length_app; simpl; lia).
      change (pre ++ (c :: body) ++ c' :: rest)
        with (pre ++ [c] ++ body ++ c' :: rest).
      rewrite app_assoc.
      destruct body as [| d body'].
      - simpl app. rewrite charCodeAt_middle. split; [reflexivity |].
        exists c'. split; [reflexivity | now right].
      - change ((d :: body') ++ c' :: rest) with (d :: body' ++ c' :: rest).
        rewrite charCodeAt_middle. split; [reflexivity |].
        exists d. split; [reflexivity | now left]. }
    destruct Hx as (Hx & x & Hxx & Hxh).
    assert (Hstep : exists q1,
              source q1 = source q /\ index q1 = index q + 1
              /\ scanTemplateLoop (S fuel) context ret (Some c) q
                 = if negb (hasNext q1) then Throw UnterminatedTemplate [] q1
                   else scanTemplateLoop fuel context (ret ++ [c])
                          (nextChar q1) q1).
    { destruct Hc as [Hc | [-> Hnb]].
      - destruct (scanTemplateLoop_plain fuel context ret c q Hc)
          as (q1 & Hs1 & Hi1 & E1).
        exists q1. split; [exact Hs1 |]. split; [exact Hi1 |].
        rewrite E1, Hcc; [reflexivity |]. destruct Hc as (_ & Hd & _).
        exact Hd.
      - exists (movedBy 1 q). split; [reflexivity |]. split; [reflexivity |].
        apply (scanTemplateLoop_dollar fuel context ret x q).
        + rewrite Hx. exact Hxx.
        + destruct Hxh as [Hh | [_ ->]]; [| exact Hc'].
          intros ->. apply Hnb. exact Hh. }
    destruct Hstep as (q1 & Hs1 & Hi1 & E1).
    assert (Hsrc1 : source q1 = (pre ++ [c]) ++ body ++ c' :: rest)
      by (rewrite Hs1, Hsrc, <- app_assoc; reflexivity).
    assert (Hidx1 : index q1 = jslength (pre ++ [c]))
      by (rewrite Hi1, Hidx; unfold jslength; rewrite length_app; simpl; lia).
    assert (Hn : hasNext q1 = true /\ nextChar q1
                 = charCodeAt (body ++ [c']) 0).
    { destruct body as [| d body'].
      - destruct (hasNext_middle q1 (pre ++ [c]) c' rest Hsrc1 Hidx1).
        split; assumption.
      - destruct (hasNext_middle q1 (pre ++ [c]) d (body' ++ c' :: rest)
                    Hsrc1 Hidx1). split; assumption. }
    destruct Hn as [Hn Hc1].
    destruct (IH (pre ++ [c]) fuel (ret ++ [c]) q1 Hsrc1 Hidx1 Hbody Hcp)
      as (q' & Hs' & Hi' & E').
    { simpl in Hfuel. lia. }
    exists q'. split; [congruence |]. split.
    + rewrite Hi', Hi1. unfold jslength. simpl length. lia.
    + change (charCodeAt ((c :: body) ++ [c']) 0) with (Some c).
      rewrite E1, Hn, Hc1. change (negb true) with false. cbv iota.
      rewrite E'. simpl length. simpl Nat.sub.
      rewrite <- app_assoc. reflexivity.
Qed.

(** X13: a template without substitution, escape and carriage return
    scans to its own text: the code units between the backticks are the
    value and the raw text of a [TemplateTail], line feeds and dollar
    signs that no left brace follows among them, and the cursor is after
    the closing backtick; when [${] follows the text instead, the token
    is a [TemplateCont] with the cursor after the brace. *)
Theorem plain_template_round_trip (context : Z) (p : Parser)
    (pre body rest : JSString) (close : JSString) :
  source p = pre ++ (Chars.Backtick :: body ++ close) ++ rest ->
  index p = jslength pre ->
  templateText body ->
  Forall (fun c => c <> Chars.Dollar -> fromCodePoint (Some c) = [c]) body ->
  close = [Chars.Backtick] \/ close = [Chars.Dollar; Chars.LeftBrace] ->
  exists p',
    scanTemplate context p
    = Ok (if bool_decide (close = [Chars.Backtick])
          then TemplateTail else TemplateCont) p'
    /\ tokenValue p' = VString body
    /\ tokenRaw p' = body
    /\ index p' = index p + jslength (Chars.Backtick :: body ++ close).
Proof.
  intros Hsrc Hidx Hbody Hcp Hclose.
  assert (Hc : exists c' close', close = c' :: close')
    by (destruct Hclose as [-> | ->]; eauto).
  destruct Hc as (c' & close' & Hc).
  assert (Hsrc' : source p
                  = (pre ++ [Chars.Backtick]) ++ body ++ c' :: close' ++ rest).
  { rewrite Hsrc, Hc. simpl. rewrite <- !app_assoc. reflexivity. }
  unfold scanTemplate, advance, errorIf.
  cbv beta iota delta [bind gets get modify pure].
  change (set_column (column p + 1) (set_index (index p + 1) p))
    with (movedBy 1 p).
  assert (Hidx1 : index (movedBy 1 p) = jslength (pre ++ [Chars.Backtick])).
  { simpl. rewrite Hidx. unfold jslength. rewrite length_app. simpl. lia. }
  assert (Hn : hasNext (movedBy 1 p) = true
               /\ nextChar (movedBy 1 p) = charCodeAt (body ++ [c']) 0).
  { destruct body as [| d body'].
    - destruct (hasNext_middle (movedBy 1 p) (pre ++ [Chars.Backtick]) c'
                  (close' ++ rest) Hsrc' Hidx1). split; assumption.
    - destruct (hasNext_middle (movedBy 1 p) (pre ++ [Chars.Backtick]) d
                  (body' ++ c' :: close' ++ rest) Hsrc' Hidx1).
      split; assumption. }
  destruct Hn as [Hn Hch]. rewrite Hn, Hch.
  change (negb true) with false. cbv beta iota.
  assert (Hnb : c' <> Chars.LeftBrace)
    by (destruct Hclose as [-> | ->]; inversion Hc; discriminate).
  destruct (scanTemplateLoop_run context c' (close' ++ rest) Hnb body
              (pre ++ [Chars.Backtick]) (fuelOf (movedBy 1 p)) []
              (movedBy 1 p) Hsrc' Hidx1 Hbody Hcp)
    as (q & Hs & Hi & E).
  { unfold fuelOf. change (source (movedBy 1 p)) with (source p).
    rewrite Hsrc', !length_app. simpl. lia. }
  rewrite E. simpl app.
  assert (Hfuel : exists fuel',
            (fuelOf (movedBy 1 p) - length body = S fuel')%nat).
  { unfold fuelOf. change (source (movedBy 1 p)) with (source p).
    rewrite Hsrc', !length_app. simpl.
    exists (length pre + 1 + length (close' ++ rest) + 1)%nat.
    rewrite length_app. lia. }
  destruct Hfuel as [fuel' ->].
  assert (Hraw : slice (source q) (index p + 1) (index q) = body).
  { rewrite Hs. change (source (movedBy 1 p)) with (source p).
    rewrite Hi, Hidx1, Hsrc'.
    replace (index p + 1) with (jslength (pre ++ [Chars.Backtick]))
      by (rewrite <- Hidx1; reflexivity).
    apply slice_middle. }
  simpl in Hi.
  destruct Hclose as [-> | ->]; inversion Hc; subst c' close'.
  - (* the closing backtick *)
    simpl scanTemplateLoop. unfold eqn.
    change (Chars.Backtick =? Chars.Backtick) with true. cbv beta iota.
    rewrite bool_decide_eq_true_2 by reflexivity.
    eexists. split; [reflexivity |]. simpl.
    replace (index q + 1 - 1) with (index q) by lia.
    rewrite Hraw. repeat split.
    rewrite Hi. unfold jslength. simpl length. rewrite length_app. simpl. lia.
  - (* a substitution *)
    simpl scanTemplateLoop. unfold eqn.
    change (Chars.Dollar =? Chars.Backtick) with false.
    change (Chars.Dollar =? Chars.Dollar) with true. cbv beta iota.
    cbv beta iota delta [bind gets get modify pure].
    assert (Hbrace : (index q + 1 <? jslength (source q))
                     && eqn (charCodeAt (source q) (index q + 1))
                          Chars.LeftBrace = true).
    { rewrite Hs. change (source (movedBy 1 p)) with (source p).
      rewrite Hsrc', Hi, Hidx.
      apply andb_true_intro. split.
      - apply Z.ltb_lt. unfold jslength. rewrite !length_app. simpl. lia.
      - replace (jslength pre + 1 + jslength body + 1)
          with (jslength (((pre ++ [Chars.Backtick]) ++ body)
                          ++ [Chars.Dollar]))
          by (unfold jslength; rewrite !length_app; simpl; lia).
        replace ((pre ++ [Chars.Backtick]) ++ body
                 ++ Chars.Dollar :: [Chars.LeftBrace] ++ rest)
          with ((((pre ++ [Chars.Backtick]) ++ body) ++ [Chars.Dollar])
                ++ Chars.LeftBrace :: rest)
          by (rewrite <- !app_assoc; reflexivity).
        rewrite charCodeAt_middle. reflexivity. }
    unfold eqn in Hbrace. rewrite Hbrace. cbv beta iota.
    rewrite bool_decide_eq_false_2 by discriminate.
    eexists. split; [reflexivity |]. simpl.
    replace (index q + 1 + 1 - 2) with (index q) by lia.
    rewrite Hraw. repeat split.
    rewrite Hi. unfold jslength. simpl length. rewrite length_app. simpl. lia.
Qed.

End Templates.

Lemma plain_template_round_trip_witness :
  let p := script "`a$
$b$` + c" in
  exists p',
    @scanTemplate Example.imports Context.None p = Ok TemplateTail p'
    /\ tokenValue p' = VString (units "a$
$b$")
    /\ tokenRaw p' = units "a$
$b$"
    /\ index p' = 8.
Proof.
  intros p.
  refine (@plain_template_round_trip Example.imports Context.None p []
            [97; 36; 10; 36; 98; 36] (units " + c") [Chars.Backtick]
            eq_refl eq_refl _ _ _).
  - simpl. unfold isPlainInTemplate.
    repeat split;
      first [ left; repeat split; discriminate
            | right; split; [reflexivity | discriminate] ].
  - repeat constructor.
  - now left.
Defined.

Section RegExpBodies.
Context `{Imports}.

(** One turn of the first loop that goes on to the next code unit. *)
Lemma scanRegExpBody_next (fuel : nat) (i st st' c : Z) (q : Parser) :
  charCodeAt (source q) i = Some c ->
  i + 1 < jslength (source q) ->
  (has st RegExpState.Escape = true
   /\ st' = clearBits st RegExpState.Escape)
  \/ (has st RegExpState.Escape = false /\
      ((c = Chars.Slash /\ st <> 0 /\ st' = st)
       \/ (c = Chars.Backslash /\ st' = setBits st RegExpState.Escape)
       \/ (c = Chars.LeftBracket /\ st' = setBits st RegExpState.Class)
       \/ (c = Chars.RightBracket /\ st' = Z.land st RegExpState.Escape)
       \/ (plainInBody c = true /\ c <> Chars.RightBracket /\ st' = st))) ->
  scanRegExpBody (S fuel) i st q
  = scanRegExpBody fuel (i + 1) st' (columnsAhead 1 q).
Proof.
  intros Hc Hlen Hcase. simpl.
  unfold errorIf, error. cbv beta iota delta [bind gets get modify pure].
  change (source (set_column (column q + 1) q)) with (source q).
  rewrite Hc.
  replace (jslength (source q) <=? i + 1) with false
    by (symmetry; apply Z.leb_gt; lia).
  change (set_column (column q + 1) q) with (columnsAhead 1 q).
  destruct Hcase as [[He ->] | [He Hcase]]; rewrite He; [reflexivity |].
  unfold eqn.
  destruct Hcase as [(-> & Hst & ->) | [(-> & ->) | [(-> & ->)
    | [(-> & ->) | (Hp & Hb & ->)]]]].
  - change (Chars.Slash =? Chars.Slash) with true. cbv iota.
    rewrite (proj2 (Z.eqb_neq st 0) Hst). reflexivity.
  - reflexivity.
  - reflexivity.
  - reflexivity.
  - unfold plainInBody in Hp. apply negb_true_iff in Hp.
    simpl in Hp. repeat (apply orb_false_elim in Hp as [? Hp]).
    rewrite (proj2 (Z.eqb_neq c _) Hb).
    repeat match goal with E : (c =? _) = false |- _ =>
      rewrite E; clear E end.
    simpl. repeat match goal with E : (c =? _) = false |- _ =>
      rewrite E; clear E end. reflexivity.
Qed.

Lemma scanRegExpBody_unit (fuel : nat) (st st' c : Z) (pre rest : JSString)
    (q : Parser) :
  source q = pre ++ c :: rest ->
  rest <> [] ->
  (has st RegExpState.Escape = true
   /\ st' = clearBits st RegExpState.Escape)
  \/ (has st RegExpState.Escape = false /\
      ((c = Chars.Slash /\ st <> 0 /\ st' = st)
       \/ (c = Chars.Backslash /\ st' = setBits st RegExpState.Escape)
       \/ (c = Chars.LeftBracket /\ st' = setBits st RegExpState.Class)
       \/ (c = Chars.RightBracket /\ st' = Z.land st RegExpState.Escape)
       \/ (plainInBody c = true /\ c <> Chars.RightBracket /\ st' = st))) ->
  scanRegExpBody (S fuel) (jslength pre) st q
  = scanRegExpBody fuel (jslength (pre ++ [c])) st' (columnsAhead 1 q).
Proof.
  intros Hsrc Hrest Hcase.
  replace (jslength (pre ++ [c])) with (jslength pre + 1)
    by (unfold jslength; rewrite length_app; simpl; lia).
  apply (scanRegExpBody_next fuel (jslength pre) st st' c q);
    [rewrite Hsrc; apply charCodeAt_middle | | exact Hcase].
  rewrite Hsrc. unfold jslength. rewrite length_app. simpl.
  destruct rest; [congruence | simpl; lia].
Qed.

(** A member of a class that is a code unit of its own keeps the loop in
    the class. *)
Lemma plainInClass_case (c : Z) :
  plainInClass c = true ->
  has RegExpState.Class RegExpState.Escape = false /\
  ((c = Chars.Slash /\ RegExpState.Class <> 0
    /\ RegExpState.Class = RegExpState.Class)
   \/ (c = Chars.Backslash
       /\ RegExpState.Class = setBits RegExpState.Class RegExpState.Escape)
   \/ (c = Chars.LeftBracket
       /\ RegExpState.Class = setBits RegExpState.Class RegExpState.Class)
   \/ (c = Chars.RightBracket
       /\ RegExpState.Class = Z.land RegExpState.Class RegExpState.Escape)
   \/ (plainInBody c = true /\ c <> Chars.RightBracket
       /\ RegExpState.Class = RegExpState.Class)).
Proof.
  intros Hp. split; [reflexivity |].
  destruct (Z.eqb_spec c Chars.Slash) as [-> | Hs].
  { left. repeat split. discriminate. }
  destruct (Z.eqb_spec c Chars.LeftBracket) as [-> | Hl].
  { right. right. left. split; reflexivity. }
  right. right. right. right.
  unfold plainInClass in Hp. apply negb_true_iff in Hp. simpl in Hp.
  repeat (apply orb_false_elim in Hp as [? Hp]).
  repeat split.
  - unfold plainInBody. apply negb_true_iff. simpl.
    rewrite (proj2 (Z.eqb_neq c _) Hs), (proj2 (Z.eqb_neq c _) Hl).
    repeat match goal with E : (c =? _) = false |- _ =>
      rewrite E; clear E end. reflexivity.
  - intros ->. discriminate.
Qed.

(** The first loop over the members of a class. *)
Lemma scanRegExpBody_class :
  forall (members : list ClassAtom) (pre rest : JSString) (fuel : nat)
         (q : Parser),
    let text := concat (map classText members) in
    source q = pre ++ text ++ rest ->
    rest <> [] ->
    Forall classAtomOk members ->
    (length text < fuel)%nat ->
    scanRegExpBody fuel (jslength pre) RegExpState.Class q
    = scanRegExpBody (fuel - length text) (jslength (pre ++ text))
        RegExpState.Class (columnsAhead (length text) q).
Proof.
  induction members as [| m members IH]; intros pre rest fuel q text Hsrc
    Hrest Hok Hfuel; subst text.
  - simpl. rewrite app_nil_r, Nat.sub_0_r. unfold columnsAhead.
    simpl. rewrite Z.add_0_r. now destruct q.
  - apply Forall_cons in Hok as [Hm Hok]. simpl concat in *.
    assert (Hne : forall a : JSString, a ++ rest <> []).
    { intros a E. apply app_eq_nil in E. tauto. }
    destruct m as [c | c]; simpl classText in *.
    + destruct fuel as [| fuel]; [simpl in Hfuel; lia |].
      simpl app in Hsrc.
      rewrite (scanRegExpBody_unit fuel _ RegExpState.Class c pre _ q Hsrc
                 (Hne _) (or_intror (plainInClass_case c Hm))).
      rewrite (IH (pre ++ [c]) rest fuel (columnsAhead 1 q)); trivial.
      * rewrite columnsAhead_add, <- app_assoc. reflexivity.
      * change (source (columnsAhead 1 q)) with (source q).
        rewrite Hsrc, <- app_assoc. reflexivity.
      * simpl in Hfuel. lia.
    + destruct fuel as [| [| fuel]]; [simpl in Hfuel; lia ..|].
      simpl app in Hsrc.
      rewrite (scanRegExpBody_unit (S fuel) _ 3 Chars.Backslash pre _ q Hsrc);
        [| discriminate | right; split; [reflexivity |]; right; left;
           split; reflexivity].
      assert (Hsrc1 : source (columnsAhead 1 q)
                 = (pre ++ [Chars.Backslash])
                   ++ c :: concat (map classText members) ++ rest)
        by (change (source (columnsAhead 1 q)) with (source q);
            rewrite Hsrc, <- app_assoc; reflexivity).
      rewrite (scanRegExpBody_unit fuel 3 RegExpState.Class c _ _ _ Hsrc1
                 (Hne _) (or_introl (conj eq_refl eq_refl))).
      rewrite columnsAhead_add.
      rewrite (IH ((pre ++ [Chars.Backslash]) ++ [c]) rest fuel
                 (columnsAhead (1 + 1) q)); trivial.
      * rewrite columnsAhead_add, <- !app_assoc. reflexivity.
      * change (source (columnsAhead (1 + 1) q)) with (source q).
        rewrite Hsrc, <- !app_assoc. reflexivity.
      * simpl in Hfuel. lia.
Qed.

(** The first loop over a body, outside a class at both ends. *)
Lemma scanRegExpBody_atoms :
  forall (atoms : list RegExpAtom) (pre rest : JSString) (fuel : nat)
         (q : Parser),
    let text := bodyText atoms in
    source q = pre ++ text ++ rest ->
    rest <> [] ->
    Forall atomOk atoms ->
    (length text < fuel)%nat ->
    scanRegExpBody fuel (jslength pre) RegExpState.Empty q
    = scanRegExpBody (fuel - length text) (jslength (pre ++ text))
        RegExpState.Empty (columnsAhead (length text) q).
Proof.
  induction atoms as [| a atoms IH]; intros pre rest fuel q text Hsrc
    Hrest Hok Hfuel; subst text.
  - simpl. rewrite app_nil_r, Nat.sub_0_r. unfold columnsAhead.
    simpl. rewrite Z.add_0_r. now destruct q.
  - apply Forall_cons in Hok as [Ha Hok].
    unfold bodyText in *. simpl concat in *. fold (bodyText atoms) in *.
    assert (Hne : forall a : JSString, a ++ rest <> []).
    { intros b E. apply app_eq_nil in E. tauto. }
    destruct a as [c | c | members]; simpl atomText in *.
    + (* a code unit *)
      destruct fuel as [| fuel]; [simpl in Hfuel; lia |].
      simpl app in Hsrc.
      assert (Hcase : has RegExpState.Empty RegExpState.Escape = false /\
        ((c = Chars.Slash /\ RegExpState.Empty <> 0
          /\ RegExpState.Empty = RegExpState.Empty)
         \/ (c = Chars.Backslash /\ RegExpState.Empty
               = setBits RegExpState.Empty RegExpState.Escape)
         \/ (c = Chars.LeftBracket /\ RegExpState.Empty
               = setBits RegExpState.Empty RegExpState.Class)
         \/ (c = Chars.RightBracket /\ RegExpState.Empty
               = Z.land RegExpState.Empty RegExpState.Escape)
         \/ (plainInBody c = true /\ c <> Chars.RightBracket
             /\ RegExpState.Empty = RegExpState.Empty))).
      { split; [reflexivity |].
        destruct (Z.eqb_spec c Chars.RightBracket) as [-> | Hb].
        - right. right. right. left. split; reflexivity.
        - right. right. right. right. auto. }
      rewrite (scanRegExpBody_unit fuel _ RegExpState.Empty c pre _ q Hsrc
                 (Hne _) (or_intror Hcase)).
      rewrite (IH (pre ++ [c]) rest fuel (columnsAhead 1 q)); trivial.
      * rewrite columnsAhead_add, <- app_assoc. reflexivity.
      * change (source (columnsAhead 1 q)) with (source q).
        rewrite Hsrc, <- app_assoc. reflexivity.
      * simpl in Hfuel. lia.
    + (* an escape *)
      destruct fuel as [| [| fuel]]; [simpl in Hfuel; lia ..|].
      simpl app in Hsrc.
      rewrite (scanRegExpBody_unit (S fuel) _ 1 Chars.Backslash pre _ q Hsrc);
        [| discriminate | right; split; [reflexivity |]; right; left;
           split; reflexivity].
      assert (Hsrc1 : source (columnsAhead 1 q)
                 = (pre ++ [Chars.Backslash])
                   ++ c :: bodyText atoms ++ rest)
        by (change (source (columnsAhead 1 q)) with (source q);
            rewrite Hsrc, <- app_assoc; reflexivity).
      rewrite (scanRegExpBody_unit fuel 1 RegExpState.Empty c _ _ _ Hsrc1
                 (Hne _) (or_introl (conj eq_refl eq_refl))).
      rewrite columnsAhead_add.
      rewrite (IH ((pre ++ [Chars.Backslash]) ++ [c]) rest fuel
                 (columnsAhead (1 + 1) q)); trivial.
      * rewrite columnsAhead_add, <- !app_assoc. reflexivity.
      * change (source (columnsAhead (1 + 1) q)) with (source q).
        rewrite Hsrc, <- !app_assoc. reflexivity.
      * simpl in Hfuel. lia.
    + (* a class *)
      set (inner := concat (map classText members)) in *.
      assert (Hlen : length (Chars.LeftBracket :: inner
                             ++ [Chars.RightBracket])
                     = S (S (length inner)))
        by (simpl; rewrite length_app; simpl; lia).
      rewrite length_app, Hlen in Hfuel.
      destruct fuel as [| fuel]; [lia |].
      assert (Hsrc0 : source q
                 = pre ++ Chars.LeftBracket
                   :: inner ++ Chars.RightBracket :: bodyText atoms ++ rest).
      { rewrite Hsrc. simpl. rewrite <- !app_assoc. reflexivity. }
      rewrite (scanRegExpBody_unit fuel _ RegExpState.Class Chars.LeftBracket
                 pre _ q Hsrc0);
        [| intros E; apply app_eq_nil in E; destruct E; discriminate
         | right; split; [reflexivity |]; right; right; left;
           split; reflexivity].
      assert (Hsrc1 : source (columnsAhead 1 q)
                 = (pre ++ [Chars.LeftBracket]) ++ inner
                   ++ Chars.RightBracket :: bodyText atoms ++ rest)
        by (change (source (columnsAhead 1 q)) with (source q);
            rewrite Hsrc0, <- app_assoc; reflexivity).
      rewrite (scanRegExpBody_class members (pre ++ [Chars.LeftBracket]) _
                 fuel (columnsAhead 1 q) Hsrc1); [| discriminate | exact Ha
                 | fold inner; lia].
      fold inner. rewrite columnsAhead_add.
      destruct (fuel - length inner)%nat as [| fuel'] eqn:Ef; [lia |].
      assert (Hsrc2 : source (columnsAhead (1 + length inner) q)
                 = ((pre ++ [Chars.LeftBracket]) ++ inner)
                   ++ Chars.RightBracket :: bodyText atoms ++ rest)
        by (change (source (columnsAhead (1 + length inner) q))
              with (source q);
            rewrite Hsrc0, <- !app_assoc; reflexivity).
      rewrite (scanRegExpBody_unit fuel' _ RegExpState.Empty
                 Chars.RightBracket _ _ _ Hsrc2 (Hne _));
        [| right; split; [reflexivity |]; right; right; right; left;
           split; reflexivity].
      rewrite columnsAhead_add.
      rewrite (IH (((pre ++ [Chars.LeftBracket]) ++ inner)
                   ++ [Chars.RightBracket]) rest fuel'
                 (columnsAhead (1 + length inner + 1) q)); trivial.
      * rewrite columnsAhead_add.
        rewrite (length_app (Chars.LeftBracket :: inner
                             ++ [Chars.RightBracket]) (bodyText atoms)), Hlen.
        replace (S fuel - (S (S (length inner)) + length (bodyText atoms)))%nat
          with (fuel' - length (bodyText atoms))%nat by lia.
        replace (1 + length inner + 1 + length (bodyText atoms))%nat
          with (S (S (length inner)) + length (bodyText atoms))%nat by lia.
        f_equal. f_equal. rewrite <- !app_assoc. simpl.
        rewrite <- !app_assoc. reflexivity.
      * change (source (columnsAhead (1 + length inner + 1) q))
          with (source q).
        rewrite Hsrc0, <- !app_assoc. reflexivity.
      * lia.
Qed.

(** The slash that is met outside a class and an escape ends the loop. *)
Lemma scanRegExpBody_close (fuel : nat) (pre rest : JSString) (q : Parser) :
  source q = pre ++ Chars.Slash :: rest ->
  scanRegExpBody (S fuel) (jslength pre) RegExpState.Empty q
  = Ok (inl (jslength pre + 1)) (columnsAhead 1 q).
Proof.
  intros Hsrc. simpl.
  unfold errorIf, error. cbv beta iota delta [bind gets get modify pure].
  rewrite Hsrc, charCodeAt_middle. reflexivity.
Qed.

(** X14: a regular expression literal made of code units, escapes and
    classes, closed by a slash outside them and followed by different
    flags and a code unit that is no identifier part, scans to a
    [RegularExpression] whose pattern is the text before that slash and
    whose flags are the flags: a slash in a class or after a backslash
    does not close the literal. *)
Theorem regexp_literal_round_trip (p : Parser) (pre : JSString)
    (atoms : list RegExpAtom) (fs : JSString) (c : Z) (post : JSString) :
  source p = pre ++ bodyText atoms ++ Chars.Slash :: fs ++ c :: post ->
  startPos p + 1 = jslength pre ->
  Forall atomOk atoms ->
  Forall (fun f => isIdentifierPart (Some f) = true
                   /\ isRegExpFlag (has (flags p) Flags.OptionsNext) f) fs ->
  NoDup fs ->
  isIdentifierPart (Some c) = false ->
  exists p',
    scanRegularExpression p = Ok RegularExpression p'
    /\ tokenRegExp p' = Some (bodyText atoms, fs)
    /\ tokenValue p' = tryCreate (bodyText atoms) fs
    /\ index p' = jslength (pre ++ bodyText atoms ++ Chars.Slash :: fs)
    /\ endPos p' = index p.
Proof.
  intros Hsrc Hstart Hok Hfs Hnd Hc.
  set (body := bodyText atoms) in *.
  assert (Hlen : length (source p)
                 = (length pre + length body + 1 + length fs + 1
                    + length post)%nat).
  { rewrite Hsrc, !length_app. simpl. rewrite length_app. simpl. lia. }
  unfold scanRegularExpression.
  cbv beta iota delta [bind gets get modify pure].
  rewrite Hstart.
  rewrite (scanRegExpBody_atoms atoms pre (Chars.Slash :: fs ++ c :: post)
             (fuelOf p) p Hsrc); [| discriminate | exact Hok
             | fold body; unfold fuelOf; lia].
  fold body.
  destruct (fuelOf p - length body)%nat as [| fuel'] eqn:Ef;
    [unfold fuelOf in Ef; lia |].
  assert (Hsrc1 : source (columnsAhead (length body) p)
                  = (pre ++ body) ++ Chars.Slash :: fs ++ c :: post)
    by (change (source (columnsAhead (length body) p)) with (source p);
        rewrite Hsrc, <- app_assoc; reflexivity).
  rewrite (scanRegExpBody_close fuel' _ _ _ Hsrc1). rewrite columnsAhead_add.
  set (q := columnsAhead (length body + 1) p).
  assert (Hsrc2 : source q = ((pre ++ body) ++ [Chars.Slash]) ++ fs ++ c :: post)
    by (change (source q) with (source p); rewrite Hsrc, <- !app_assoc;
        reflexivity).
  replace (jslength (pre ++ body) + 1)
    with (jslength ((pre ++ body) ++ [Chars.Slash]))
    by (unfold jslength; rewrite (length_app _ [Chars.Slash]); simpl; lia).
  destruct (scanRegExpFlags_flags q ((pre ++ body) ++ [Chars.Slash]) fs c
              post (fuelOf p) Hsrc2 Hfs Hnd) as (_ & _ & Hflags).
  { unfold fuelOf. lia. }
  rewrite (Hflags Hc). clear Hflags.
  set (q' := columnsAhead (length fs) q).
  change (source (set_index _ (set_endPos (index q') q'))) with (source p).
  change (flags (set_index _ (set_endPos (index q') q'))) with (flags p).
  assert (Hpat : slice (source p) (jslength pre)
                   (jslength ((pre ++ body) ++ [Chars.Slash]) - 1) = body).
  { replace (jslength ((pre ++ body) ++ [Chars.Slash]) - 1)
      with (jslength pre + jslength body)
      by (unfold jslength; rewrite !length_app; simpl; lia).
    rewrite Hsrc. apply slice_middle. }
  assert (Hfl : slice (source p) (jslength ((pre ++ body) ++ [Chars.Slash]))
                  (jslength (((pre ++ body) ++ [Chars.Slash]) ++ fs)) = fs).
  { replace (jslength (((pre ++ body) ++ [Chars.Slash]) ++ fs))
      with (jslength ((pre ++ body) ++ [Chars.Slash]) + jslength fs)
      by (unfold jslength; rewrite (length_app _ fs); lia).
    change (source p) with (source q). rewrite Hsrc2. apply slice_middle. }
  simpl index. rewrite Hpat, Hfl.
  assert (Hidx : jslength (((pre ++ body) ++ [Chars.Slash]) ++ fs)
                 = jslength (pre ++ body ++ Chars.Slash :: fs)).
  { f_equal. rewrite <- !app_assoc. reflexivity. }
  destruct (has (flags p) Flags.OptionsRaw);
    (eexists; split; [reflexivity |]; simpl; rewrite Hidx; repeat split).
Qed.

End RegExpBodies.

Lemma regexp_literal_round_trip_witness :
  let p := stateAfter (@nextToken Example.imports Context.None)
             (script "/a\/[/]/gi;") in
  exists p',
    @scanRegularExpression Example.imports p = Ok RegularExpression p'
    /\ tokenRegExp p' = Some (units "a\/[/]", units "gi")
    /\ tokenValue p'
       = @tryCreate Example.imports (units "a\/[/]") (units "gi")
    /\ index p' = 10
    /\ endPos p' = 1.
Proof.
  intros p.
  refine (@regexp_literal_round_trip Example.imports p [Chars.Slash]
            [BodyUnit 97; BodyEscape 47; BodyClass [ClassUnit 47]]
            (units "gi") 59 [] _ _ _ _ _ _).
  - vm_compute. reflexivity.
  - vm_compute. reflexivity.
  - repeat constructor.
  - repeat constructor; vm_compute; eauto.
  - apply (bool_decide_unpack _). vm_compute. exact I.
  - vm_compute. reflexivity.
Defined.

Section RegExpCutShort.
Context `{Imports}.

(** X15: a regular expression body that is cut short.  When a line
    terminator follows the body outside a class and an escape, the
    method reports no error: it answers the token that was current, with
    the cursor after the line terminator.  When the source ends with a
    code unit of the body, the error is a fatal [UnterminatedRegExp]. *)
Theorem regexp_body_cut_short (p : Parser) (pre : JSString)
    (atoms : list RegExpAtom) (c : Z) (rest : JSString) :
  source p = pre ++ bodyText atoms ++ c :: rest ->
  startPos p + 1 = jslength pre ->
  Forall atomOk atoms ->
  (oneOf (Some c) [Chars.CarriageReturn; Chars.LineFeed;
                   Chars.LineSeparator; Chars.ParagraphSeparator] = true ->
   scanRegularExpression p
   = Ok (token p)
       (set_index (jslength (pre ++ bodyText atoms) + 1)
          (columnsAhead (length (bodyText atoms) + 1) p)))
  /\ (plainInBody c = true -> rest = [] ->
      scanRegularExpression p
      = Throw UnterminatedRegExp []
          (columnsAhead (length (bodyText atoms) + 1) p)).
Proof.
  intros Hsrc Hstart Hok.
  set (body := bodyText atoms) in *.
  assert (Hlen : length (source p)
                 = (length pre + length body + 1 + length rest)%nat).
  { rewrite Hsrc, !length_app. simpl. lia. }
  unfold scanRegularExpression.
  cbv beta iota delta [bind gets get modify pure].
  rewrite Hstart.
  rewrite (scanRegExpBody_atoms atoms pre (c :: rest) (fuelOf p) p Hsrc);
    [| discriminate | exact Hok | fold body; unfold fuelOf; lia].
  fold body.
  destruct (fuelOf p - length body)%nat as [| fuel'] eqn:Ef;
    [unfold fuelOf in Ef; lia |].
  assert (Hc : charCodeAt (source p) (jslength (pre ++ body)) = Some c)
    by (rewrite Hsrc, app_assoc; apply charCodeAt_middle).
  simpl scanRegExpBody. unfold errorIf, error.
  cbv beta iota delta [bind gets get modify pure].
  change (source (columnsAhead (length body) p)) with (source p).
  change (source (set_column _ (columnsAhead (length body) p)))
    with (source p).
  change (set_column (column (columnsAhead (length body) p) + 1)
            (columnsAhead (length body) p))
    with (columnsAhead 1 (columnsAhead (length body) p)).
  rewrite columnsAhead_add, Hc.
  change (has RegExpState.Empty RegExpState.Escape) with false. cbv iota.
  unfold eqn. split.
  - intros Hlb. simpl in Hlb.
    destruct (Z.eqb_spec c Chars.Slash) as [-> | _]; [discriminate Hlb |].
    destruct (Z.eqb_spec c Chars.Backslash) as [-> | _]; [discriminate Hlb |].
    destruct (Z.eqb_spec c Chars.LeftBracket) as [-> | _];
      [discriminate Hlb |].
    destruct (Z.eqb_spec c Chars.RightBracket) as [-> | _];
      [discriminate Hlb |].
    simpl. rewrite Hlb. reflexivity.
  - intros Hp ->.
    replace (jslength (source p) <=? jslength (pre ++ body) + 1) with true
      by (symmetry; apply Z.leb_le; unfold jslength;
          rewrite Hlen, length_app; simpl; lia).
    unfold plainInBody in Hp. apply negb_true_iff in Hp. simpl in Hp.
    repeat (apply orb_false_elim in Hp as [? Hp]).
    repeat match goal with E : (c =? _) = false |- _ =>
      rewrite E end.
    destruct (Z.eqb_spec c Chars.RightBracket) as [-> | _];
      [reflexivity |].
    simpl. repeat match goal with E : (c =? _) = false |- _ =>
      rewrite E; clear E end. reflexivity.
Qed.

End RegExpCutShort.

Lemma regexp_body_cut_short_witness :
  (let p := stateAfter (@nextToken Example.imports Context.None)
              (script "/ab
/") in
   @scanRegularExpression Example.imports p
   = Ok Divide (set_index 4 (columnsAhead 3 p)))
  /\ (let p := stateAfter (@nextToken Example.imports Context.None)
                 (script "/[/]a") in
      @scanRegularExpression Example.imports p
      = Throw UnterminatedRegExp [] (columnsAhead 4 p)).
Proof.
  split; intros p.
  - refine (proj1 (@regexp_body_cut_short Example.imports p [Chars.Slash]
                     [BodyUnit 97; BodyUnit 98] 10 [Chars.Slash] _ _ _) _).
    + vm_compute. reflexivity.
    + vm_compute. reflexivity.
    + repeat constructor.
    + reflexivity.
  - refine (proj2 (@regexp_body_cut_short Example.imports p [Chars.Slash]
                     [BodyClass [ClassUnit 47]] 97 [] _ _ _) _ _).
    + vm_compute. reflexivity.
    + vm_compute. reflexivity.
    + repeat constructor.
    + reflexivity.
    + reflexivity.
Defined.

Section Identifiers.
Context `{Imports}.

Lemma scanIdentifierLoop_run (rest : JSString) (start : Z) (ret : JSString) :
  endsIdentifier rest ->
  forall (name pre : JSString) (fuel : nat) (q : Parser),
    source q = pre ++ name ++ rest ->
    index q = jslength pre ->
    Forall (fun c => isIdentifierPart (Some c) = true) name ->
    (length name < fuel)%nat ->
    scanIdentifierLoop fuel start ret q
    = Ok (start, ret) (movedBy (jslength name) q).
Proof.
  intros Hrest.
  induction name as [| c name IH]; intros pre fuel q Hsrc Hidx Hname Hfuel;
    (destruct fuel as [| fuel]; [simpl in Hfuel; lia |]).
  - change (jslength []) with 0. rewrite movedBy_0. simpl in Hsrc.
    simpl. cbv beta iota delta [bind gets get modify pure].
    destruct rest as [| c rest'].
    + rewrite hasNext_end; [reflexivity |].
      rewrite Hidx, Hsrc, app_nil_r. reflexivity.
    + destruct Hrest as [Hid Hb].
      destruct (hasNext_middle q pre c rest' Hsrc Hidx) as [-> ->].
      change (negb true) with false. cbv iota. rewrite Hid.
      unfold eqn. rewrite (proj2 (Z.eqb_neq c _) Hb). reflexivity.
  - apply Forall_cons in Hname as [Hc Hname]. simpl in Hsrc.
    simpl scanIdentifierLoop. unfold advance.
    cbv beta iota delta [bind gets get modify pure].
    destruct (hasNext_middle q pre c (name ++ rest) Hsrc Hidx) as [-> ->].
    change (negb true) with false. cbv iota. rewrite Hc.
    change (set_column (column q + 1) (set_index (index q + 1) q))
      with (movedBy 1 q).
    rewrite (IH (pre ++ [c]) fuel (movedBy 1 q)); trivial.
    + rewrite movedBy_add. f_equal. f_equal.
      unfold jslength. simpl length. lia.
    + change (source (movedBy 1 q)) with (source q).
      rewrite Hsrc, <- app_assoc. reflexivity.
    + simpl. rewrite Hidx. unfold jslength. rewrite length_app. simpl. lia.
    + simpl in Hfuel. lia.
Qed.

(** X16: a name made of identifier parts, up to the end of the source or
    a code unit that is neither an identifier part nor a backslash, scans
    to its own text as the token value, with the cursor after the name.
    The token is [Identifier] unless the name has 2 to 11 code units,
    starts with a lower-case letter and is in the keyword table, and then
    it is the keyword's token. *)
Theorem identifier_scans_to_its_text (context : Z) (p : Parser)
    (pre name rest : JSString) :
  source p = pre ++ name ++ rest ->
  index p = jslength pre ->
  Forall (fun c => isIdentifierPart (Some c) = true) name ->
  endsIdentifier rest ->
  exists t,
    scanIdentifier context p
    = Ok t (set_tokenValue (VString name) (movedBy (jslength name) p))
    /\ (t <> Identifier ->
        descKeyword name = Some t /\ 2 <= jslength name <= 11
        /\ exists c, head name = Some c
                     /\ Chars.LowerA <= c <= Chars.LowerZ)
    /\ (descKeyword name = None -> t = Identifier)
    /\ (forall k c, descKeyword name = Some k -> 2 <= jslength name <= 11 ->
        head name = Some c -> Chars.LowerA <= c <= Chars.LowerZ -> t = k).
Proof.
  intros Hsrc Hidx Hname Hrest.
  unfold scanIdentifier. cbv beta iota delta [bind gets get modify pure].
  rewrite (scanIdentifierLoop_run rest (index p) [] Hrest name pre (fuelOf p)
             p Hsrc Hidx Hname)
    by (unfold fuelOf; rewrite Hsrc, !length_app; lia).
  cbv beta iota zeta delta [errorIf error bind gets get modify pure fst snd].
  change (index (movedBy (jslength name) p)) with (index p + jslength name).
  change (source (movedBy (jslength name) p)) with (source p).
  assert (Hslice : slice (source p) (index p) (index p + jslength name)
                   = name)
    by (rewrite Hsrc, Hidx; apply slice_middle).
  rewrite Hslice. change ([] ++ name) with name.
  assert (Hret : (if index p <? index p + jslength name then name else [])
                 = name).
  { destruct name as [| c name']; [now rewrite Z.add_0_r, Z.ltb_irrefl |].
    replace (index p <? index p + jslength (c :: name')) with true;
      [reflexivity |].
    symmetry. apply Z.ltb_lt. unfold jslength. simpl length. lia. }
  rewrite Hret.
  replace (index p + jslength name - index p =? jslength name) with true
    by (symmetry; apply Z.eqb_eq; lia).
  change (negb true) with false. rewrite !andb_false_l. cbv beta iota.
  destruct ((2 <=? jslength name) && (jslength name <=? 11)) eqn:Elen.
  - apply andb_prop in Elen as [E2 E11].
    apply Z.leb_le in E2. apply Z.leb_le in E11.
    destruct name as [| c name']; [unfold jslength in E2; simpl in E2; lia |].
    change (charCodeAt (c :: name') 0) with (Some c).
    unfold geqn, leqn.
    destruct ((Chars.LowerA <=? c) && (c <=? Chars.LowerZ)) eqn:Elow.
    + apply andb_prop in Elow as [El Eh].
      apply Z.leb_le in El. apply Z.leb_le in Eh.
      destruct (descKeyword (c :: name')) as [t |] eqn:Ek.
      * exists t. split; [reflexivity |]. split; [| split].
        -- intros _. split; [reflexivity |]. split; [lia |].
           exists c. split; [reflexivity | lia].
        -- discriminate.
        -- intros k c' Hk _ _ _. congruence.
      * exists Identifier. split; [reflexivity |]. split; [| split].
        -- congruence.
        -- reflexivity.
        -- discriminate.
    + exists Identifier. split; [reflexivity |]. split; [| split].
      * congruence.
      * reflexivity.
      * intros k c' _ _ Hh Hr. simpl in Hh. inversion Hh; subst c'.
        apply andb_false_iff in Elow as [E | E]; apply Z.leb_gt in E; lia.
  - exists Identifier. split; [reflexivity |]. split; [| split].
    + congruence.
    + reflexivity.
    + intros k c' _ Hr _ _.
      apply andb_false_iff in Elen as [E | E]; apply Z.leb_gt in E; lia.
Qed.

End Identifiers.

Lemma identifier_scans_to_its_text_witness :
  exists t,
    @scanIdentifier Example.imports Context.None (script "while(x)")
    = Ok t (set_tokenValue (VString (units "while"))
              (movedBy 5 (script "while(x)")))
    /\ (t <> Identifier ->
        @descKeyword Example.imports (units "while") = Some t
        /\ 2 <= 5 <= 11
        /\ exists c, head (units "while") = Some c
                     /\ Chars.LowerA <= c <= Chars.LowerZ)
    /\ (@descKeyword Example.imports (units "while") = None
        -> t = Identifier)
    /\ (forall k c, @descKeyword Example.imports (units "while") = Some k ->
        2 <= 5 <= 11 -> head (units "while") = Some c ->
        Chars.LowerA <= c <= Chars.LowerZ -> t = k).
Proof.
  refine (@identifier_scans_to_its_text Example.imports Context.None
            (script "while(x)") [] (units "while") (units "(x)")
            eq_refl eq_refl _ _).
  - repeat constructor.
  - split; [reflexivity | discriminate].
Defined.

Create HintDb frames.

Section ScannerFrame.
Context `{Imports}.

Lemma untouched_refl (p : Parser) : untouched p p.
Proof. unfold untouched. tauto. Qed.

Lemma untouched_trans (p q r : Parser) :
  untouched p q -> untouched q r -> untouched p r.
Proof. unfold untouched. intuition congruence. Qed.

Lemma frames_pure {A : Type} (a : A) : frames (pure a).
Proof. intros p. apply untouched_refl. Qed.

Lemma frames_gets {A : Type} (f : Parser -> A) : frames (gets f).
Proof. intros p. apply untouched_refl. Qed.

Lemma frames_get : frames get.
Proof. intros p. apply untouched_refl. Qed.

Lemma frames_error {A : Type} type params : frames (@error A type params).
Proof. intros p. apply untouched_refl. Qed.

Lemma frames_errorIf (c : bool) type params : frames (errorIf c type params).
Proof. intros p. destruct c; apply untouched_refl. Qed.

Lemma frames_outOfFuel {A : Type} : frames (@outOfFuel A).
Proof. intros p. exact I. Qed.

Lemma frames_modify (f : Parser -> Parser) :
  (forall p, untouched p (f p)) -> frames (modify f).
Proof. intros Hf p. apply Hf. Qed.

Lemma frames_bind {A B : Type} (m : M A) (k : A -> M B) :
  frames m -> (forall a, frames (k a)) -> frames (bind m k).
Proof.
  intros Hm Hk p. unfold bind. specialize (Hm p).
  destruct (m p) as [a q | | |]; trivial.
  specialize (Hk a q). destruct (k a q); trivial;
    eapply untouched_trans; eassumption.
Qed.

Lemma frames_fuel {A : Type} (loop : nat -> M A) :
  (forall fuel, frames (loop fuel)) -> frames (fun p => loop (fuelOf p) p).
Proof. intros Hl p. apply Hl. Qed.

Ltac frame_write :=
  let p := fresh "p" in
  intros p; destruct p; unfold untouched; simpl; repeat split.

Ltac frame :=
  repeat first
    [ apply frames_pure | apply frames_get | apply frames_gets
    | apply frames_error | apply frames_errorIf | apply frames_outOfFuel
    | solve [auto with frames]
    | apply frames_bind; [| intros ?]
    | apply frames_modify; solve [frame_write]
    | match goal with
      | |- frames (fun q => _) =>
          let q := fresh "q" in
          intros q; cbv beta;
          match goal with
          | |- match ?m q with _ => _ end =>
              let Hm := fresh in
              assert (Hm : frames m) by (solve [auto with frames]);
              exact (Hm q)
          end
      end
    | match goal with
      | |- frames (if ?b then _ else _) => destruct b
      | |- frames (match ?x with _ => _ end) => destruct x
      end
    | progress cbv beta zeta ].

Lemma frames_advance : frames advance.
Proof. unfold advance. frame. Qed.

Lemma frames_advanceTwice : frames advanceTwice.
Proof. unfold advanceTwice. frame. Qed.

Lemma frames_advanceNewline : frames advanceNewline.
Proof. unfold advanceNewline. frame. Qed.

Lemma frames_incrIndex : frames incrIndex.
Proof. unfold incrIndex. frame. Qed.

#[local] Hint Resolve frames_advance frames_advanceTwice
  frames_advanceNewline frames_incrIndex : frames.

Lemma frames_consume (code : Z) : frames (consume code).
Proof. unfold consume. frame. Qed.

Lemma frames_nextUnicodeChar : frames nextUnicodeChar.
Proof. unfold nextUnicodeChar. frame. Qed.

Lemma frames_collectComment type value start end_ :
  frames (collectComment type value start end_).
Proof.
  unfold collectComment. apply frames_modify. intros p.
  destruct p as [? ? ? ? ? ? ? ? ? ? ? ? ? ? ? ? ? ? ? c ? ?].
  destruct c as [[] |]; unfold untouched; simpl; repeat split.
Qed.

Lemma frames_newlineThenLineFeed : frames newlineThenLineFeed.
Proof. unfold newlineThenLineFeed. frame. Qed.

#[local] Hint Resolve frames_consume frames_nextUnicodeChar
  frames_collectComment frames_newlineThenLineFeed : frames.

Lemma frames_skipShebangCommentLoop (fuel : nat) : frames (skipShebangCommentLoop fuel).
Proof. induction fuel as [| fuel IH]; simpl; frame. Qed.

#[local] Hint Resolve frames_skipShebangCommentLoop : frames.

Lemma frames_skipShebangComment  :
  frames (skipShebangComment ).
Proof. unfold skipShebangComment. frame. Qed.

#[local] Hint Resolve frames_skipShebangComment : frames.

Lemma frames_skipSingleLineCommentLoop (fuel : nat) : frames (skipSingleLineCommentLoop fuel).
Proof. induction fuel as [| fuel IH]; simpl; frame. Qed.

#[local] Hint Resolve frames_skipSingleLineCommentLoop : frames.

Lemma frames_skipSingleLineComment (offset : Z) :
  frames (skipSingleLineComment offset).
Proof. unfold skipSingleLineComment. frame. Qed.

#[local] Hint Resolve frames_skipSingleLineComment : frames.

Lemma frames_skipMultiLineCommentLoop (fuel : nat) : frames (skipMultiLineCommentLoop fuel).
Proof. induction fuel as [| fuel IH]; simpl; frame. Qed.

#[local] Hint Resolve frames_skipMultiLineCommentLoop : frames.

Lemma frames_skipMultiLineComment  :
  frames (skipMultiLineComment ).
Proof. unfold skipMultiLineComment. frame. Qed.

#[local] Hint Resolve frames_skipMultiLineComment : frames.

Lemma frames_peekBracedEscapeLoop (fuel : nat) :
  forall (ch : num) (code : Z), frames (peekBracedEscapeLoop fuel ch code).
Proof. induction fuel as [| fuel IH]; intros; simpl; frame. Qed.

#[local] Hint Resolve frames_peekBracedEscapeLoop : frames.

Lemma frames_peekHexDigits (fuel : nat) :
  forall (ch : num) (code : Z), frames (peekHexDigits fuel ch code).
Proof. induction fuel as [| fuel IH]; intros; simpl; frame. Qed.

#[local] Hint Resolve frames_peekHexDigits : frames.

Lemma frames_peekExtendedUnicodeEscape  :
  frames (peekExtendedUnicodeEscape ).
Proof. unfold peekExtendedUnicodeEscape. frame. Qed.

#[local] Hint Resolve frames_peekExtendedUnicodeEscape : frames.

Lemma frames_peekUnicodeEscape  :
  frames (peekUnicodeEscape ).
Proof. unfold peekUnicodeEscape. frame. Qed.

#[local] Hint Resolve frames_peekUnicodeEscape : frames.

Lemma frames_scanIdentifierLoop (fuel : nat) :
  forall (start : Z) (ret : JSString), frames (scanIdentifierLoop fuel start ret).
Proof. induction fuel as [| fuel IH]; intros; simpl; frame. Qed.

#[local] Hint Resolve frames_scanIdentifierLoop : frames.

Lemma frames_scanIdentifier (context : Z) :
  frames (scanIdentifier context).
Proof. unfold scanIdentifier. frame. Qed.

#[local] Hint Resolve frames_scanIdentifier : frames.

Lemma frames_scanOctalEscapeLow (context : Z) (cp : Z) :
  frames (scanOctalEscapeLow context cp).
Proof. unfold scanOctalEscapeLow. frame. Qed.

#[local] Hint Resolve frames_scanOctalEscapeLow : frames.

Lemma frames_scanOctalEscapeHigh (context : Z) (cp : Z) :
  frames (scanOctalEscapeHigh context cp).
Proof. unfold scanOctalEscapeHigh. frame. Qed.

#[local] Hint Resolve frames_scanOctalEscapeHigh : frames.

Lemma frames_scanHexEscape  :
  frames (scanHexEscape ).
Proof. unfold scanHexEscape. frame. Qed.

#[local] Hint Resolve frames_scanHexEscape : frames.

Lemma frames_scanStringEscape (context : Z) :
  frames (scanStringEscape context).
Proof. unfold scanStringEscape. frame. Qed.

#[local] Hint Resolve frames_scanStringEscape : frames.

Lemma frames_scanStringLoop (fuel : nat) :
  forall (context : Z) (quote : num) (start : Z) (ret : JSString) (ch : num), frames (scanStringLoop fuel context quote start ret ch).
Proof. induction fuel as [| fuel IH]; intros; simpl; frame. Qed.

#[local] Hint Resolve frames_scanStringLoop : frames.

Lemma frames_scanString (context : Z) (quote : num) :
  frames (scanString context quote).
Proof. unfold scanString. frame. Qed.

#[local] Hint Resolve frames_scanString : frames.

Lemma frames_scanTemplateLoop (fuel : nat) :
  forall (context : Z) (ret : JSString) (ch : num), frames (scanTemplateLoop fuel context ret ch).
Proof. induction fuel as [| fuel IH]; intros; simpl; frame. Qed.

#[local] Hint Resolve frames_scanTemplateLoop : frames.

Lemma frames_scanTemplate (context : Z) :
  frames (scanTemplate context).
Proof. unfold scanTemplate. frame. Qed.

#[local] Hint Resolve frames_scanTemplate : frames.

Lemma frames_scanBigInt  :
  frames (scanBigInt ).
Proof. unfold scanBigInt. frame. Qed.

#[local] Hint Resolve frames_scanBigInt : frames.

Lemma frames_scanNumberLiteralLoop (fuel : nat) :
  forall (ch : num) (code : float), frames (scanNumberLiteralLoop fuel ch code).
Proof. induction fuel as [| fuel IH]; intros; simpl; frame. Qed.

#[local] Hint Resolve frames_scanNumberLiteralLoop : frames.

Lemma frames_scanNumberLiteral (context : Z) :
  frames (scanNumberLiteral context).
Proof. unfold scanNumberLiteral. frame. Qed.

#[local] Hint Resolve frames_scanNumberLiteral : frames.

Lemma frames_scanOctalDigitsLoop (fuel : nat) :
  forall (ch : num) (code : Z), frames (scanOctalDigitsLoop fuel ch code).
Proof. induction fuel as [| fuel IH]; intros; simpl; frame. Qed.

#[local] Hint Resolve frames_scanOctalDigitsLoop : frames.

Lemma frames_scanOctalDigits (context : Z) :
  frames (scanOctalDigits context).
Proof. unfold scanOctalDigits. frame. Qed.

#[local] Hint Resolve frames_scanOctalDigits : frames.

Lemma frames_scanHexadecimalDigitLoop (fuel : nat) :
  forall (ch : num) (code : Z), frames (scanHexadecimalDigitLoop fuel ch code).
Proof. induction fuel as [| fuel IH]; intros; simpl; frame. Qed.

#[local] Hint Resolve frames_scanHexadecimalDigitLoop : frames.

Lemma frames_scanHexadecimalDigit  :
  frames (scanHexadecimalDigit ).
Proof. unfold scanHexadecimalDigit. frame. Qed.

#[local] Hint Resolve frames_scanHexadecimalDigit : frames.

Lemma frames_scanBinaryDigitsLoop (fuel : nat) :
  forall (ch : num) (code : Z), frames (scanBinaryDigitsLoop fuel ch code).
Proof. induction fuel as [| fuel IH]; intros; simpl; frame. Qed.

#[local] Hint Resolve frames_scanBinaryDigitsLoop : frames.

Lemma frames_scanBinaryDigits (context : Z) :
  frames (scanBinaryDigits context).
Proof. unfold scanBinaryDigits. frame. Qed.

#[local] Hint Resolve frames_scanBinaryDigits : frames.

Lemma frames_skipDigitsLoop (fuel : nat) : frames (skipDigitsLoop fuel).
Proof. induction fuel as [| fuel IH]; simpl; frame. Qed.

#[local] Hint Resolve frames_skipDigitsLoop : frames.

Lemma frames_skipDigits  :
  frames (skipDigits ).
Proof. unfold skipDigits. frame. Qed.

#[local] Hint Resolve frames_skipDigits : frames.

Lemma frames_scanExponent (state end_ : Z) :
  frames (scanExponent state end_).
Proof. unfold scanExponent. frame. Qed.

#[local] Hint Resolve frames_scanExponent : frames.

Lemma frames_scanNumber (context : Z) (ch : num) :
  frames (scanNumber context ch).
Proof. unfold scanNumber. frame. Qed.

#[local] Hint Resolve frames_scanNumber : frames.

Lemma frames_returns (t : Token) :
  frames (returns t).
Proof. unfold returns. frame. Qed.

#[local] Hint Resolve frames_returns : frames.

Lemma frames_continue  :
  frames (continue ).
Proof. unfold continue. frame. Qed.

#[local] Hint Resolve frames_continue : frames.

Lemma frames_scanHyphen (context : Z) :
  frames (scanHyphen context).
Proof. unfold scanHyphen. frame. Qed.

#[local] Hint Resolve frames_scanHyphen : frames.

Lemma frames_consumeHTMLOpen (context : Z) :
  frames (consumeHTMLOpen context).
Proof. unfold consumeHTMLOpen. frame. Qed.

#[local] Hint Resolve frames_consumeHTMLOpen : frames.

Lemma frames_scanLessThan (context : Z) :
  frames (scanLessThan context).
Proof. unfold scanLessThan. frame. Qed.

#[local] Hint Resolve frames_scanLessThan : frames.

Lemma frames_scanPeriod (context : Z) (first : num) :
  frames (scanPeriod context first).
Proof. unfold scanPeriod. frame. Qed.

#[local] Hint Resolve frames_scanPeriod : frames.

Lemma frames_scanZero (context : Z) (first : num) :
  frames (scanZero context first).
Proof. unfold scanZero. frame. Qed.

#[local] Hint Resolve frames_scanZero : frames.

Lemma frames_lift (m : M Token) :
  frames m -> frames (lift m).
Proof. intros Hm. unfold lift. frame. Qed.

#[local] Hint Resolve frames_lift : frames.

Lemma frames_scanTokenCase (context : Z) (first : num) :
  frames (scanTokenCase context first).
Proof. unfold scanTokenCase. frame. Qed.

#[local] Hint Resolve frames_scanTokenCase : frames.

Lemma frames_scanTokenLoop (fuel : nat) :
  forall (context : Z), frames (scanTokenLoop fuel context).
Proof. induction fuel as [| fuel IH]; intros; simpl; frame. Qed.

#[local] Hint Resolve frames_scanTokenLoop : frames.

Lemma frames_scanToken (context : Z) :
  frames (scanToken context).
Proof. unfold scanToken. frame. Qed.

#[local] Hint Resolve frames_scanToken : frames.

Lemma frames_nextToken (context : Z) :
  frames (nextToken context).
Proof. unfold nextToken. frame. Qed.

#[local] Hint Resolve frames_nextToken : frames.

(** X17: scanning a token, whether it returns or throws, writes to
    neither the source text, the label set, the scope fields, the scope
    objects nor the error location. *)
Theorem scanning_leaves_scopes_and_source (context : Z) (p q : Parser) :
  (exists t, nextToken context p = Ok t q)
  \/ (exists type params, nextToken context p = Throw type params q) ->
  untouched p q.
Proof.
  pose proof (frames_nextToken context p) as Hf.
  intros [[t E] | (type & params & E)]; rewrite E in Hf; exact Hf.
Qed.

Lemma rewindState_after_scan (p q : Parser) :
  untouched p q ->
  rewindState (saveState p) q = Ok tt (set_comments (comments q) p).
Proof.
  intros (Hs & Hl & Hb & Hp & Hf & He & Hh).
  destruct p, q. simpl in *. subst.
  reflexivity.
Qed.

(** X18: a lookahead probe that returns leaves the parser as it was
    before the probe, but for the comments that the scan of the next
    token has collected. *)
Theorem probes_restore_parser (context : Z) (p p' : Parser) (b : bool) :
  nextTokenIsLeftParen context p = Ok b p'
  \/ isLexical context p = Ok b p'
  \/ nextTokenIsFunctionKeyword context p = Ok b p' ->
  exists t q,
    scanToken context p = Ok t q /\ p' = set_comments (comments q) p.
Proof.
  pose proof (frames_scanToken context p) as Hf.
  unfold nextTokenIsLeftParen, isLexical, nextTokenIsFunctionKeyword,
    nextToken.
  cbv beta iota delta [bind gets get modify pure].
  destruct (scanToken context p) as [t q | | |];
    try (intros [E | [E | E]]; discriminate E).
  assert (Hq : untouched p (set_token t q))
    by (destruct q; exact Hf).
  pose proof (rewindState_after_scan p (set_token t q) Hq) as Hr.
  change (comments (set_token t q)) with (comments q) in Hr.
  rewrite Hr.
  intros [E | [E | E]]; inversion E; subst; eauto.
Qed.

End ScannerFrame.

Lemma probes_restore_parser_witness :
  let p := set_comments (Some (CommentsArray []))
             (set_flags Flags.OptionsOnComment (script "f /*c*/ (x)")) in
  let p1 := stateAfter (@nextToken Example.imports Context.None) p in
  exists t q,
    @scanToken Example.imports Context.None p1 = Ok t q
    /\ stateAfter (@nextTokenIsLeftParen Example.imports Context.None) p1
       = set_comments (comments q) p1
    /\ comments q <> comments p1.
Proof.
  intros p p1.
  destruct (@probes_restore_parser Example.imports Context.None p1
              (stateAfter (@nextTokenIsLeftParen Example.imports Context.None)
                 p1) true) as (t & q & E & Hq).
  - left. vm_compute. reflexivity.
  - exists t, q. split; [exact E |]. split; [exact Hq |].
    intros Hc. rewrite Hc in Hq.
    apply (f_equal comments) in Hq. vm_compute in Hq. discriminate Hq.
Defined.

Lemma scanning_leaves_scopes_and_source_witness :
  let p := script "let x = 1" in
  untouched p (stateAfter (@nextToken Example.imports Context.None) p).
Proof.
  intros p.
  apply (@scanning_leaves_scopes_and_source Example.imports Context.None).
  left. exists LetKeyword. vm_compute. reflexivity.
Defined.

(** X19: with the cursor inside the source, [nextUnicodeChar] moves it by
    one code unit and answers the code unit it then stands on ([NaN] at
    the end of the source).  A high surrogate is answered alone: the code
    unit that the method reads as the low surrogate is the high surrogate
    itself, so that a pair is never combined into a code point. *)
Theorem nextUnicodeChar_answers_one_unit (p : Parser) :
  0 <= index p ->
  hasNext p = true ->
  nextUnicodeChar p = Ok (nextChar (advanced p)) (advanced p).
Proof.
  intros H0 Hn. apply Z.ltb_lt in Hn.
  unfold nextUnicodeChar, advance.
  cbv beta iota delta [bind gets get modify pure].
  change (set_column (column p + 1) (set_index (index p + 1) p))
    with (advanced p).
  destruct (nextChar (advanced p)) as [hi |] eqn:Ehi.
  - unfold ltn, gtn.
    destruct (Z.ltb_spec hi 55296) as [| Hlo]; [reflexivity |].
    destruct (Z.ltb_spec 56319 hi) as [| Hhi]; [reflexivity |].
    change (false || false) with false. cbv beta iota.
    destruct (index (advanced p) =? jslength (source (advanced p)));
      [reflexivity |].
    cbv beta iota. rewrite Ehi.
    replace (hi <? 56320) with true by (symmetry; apply Z.ltb_lt; lia).
    reflexivity.
  - simpl.
    replace (index p + 1 =? jslength (source p)) with true; [reflexivity |].
    symmetry. apply Z.eqb_eq.
    unfold nextChar, charCodeAt in Ehi. simpl in Ehi.
    destruct (index p + 1 <? 0) eqn:Eneg; [apply Z.ltb_lt in Eneg; lia |].
    apply lookup_ge_None in Ehi. unfold jslength in *. lia.
Qed.

Lemma nextUnicodeChar_answers_one_unit_witness :
  let p := mkParser [97; 55357; 56832] 0 0 1 0 VUndefined EndOfSource 0 0 1
             0 0 1 [] ∅ None None None None None None [] in
  nextUnicodeChar p = Ok (Some 55357) (advanced p).
Proof.
  intros p.
  apply (nextUnicodeChar_answers_one_unit p).
  - vm_compute. congruence.
  - reflexivity.
Defined.

Section LessThanArm.
Context `{Imports}.

(** The first turn of the loop of [scanToken] on the code unit under the
    cursor. *)
Lemma scanToken_first (context : Z) (p : Parser) (pre : JSString) (c : Z)
    (rest : JSString) :
  source p = pre ++ c :: rest ->
  index p = jslength pre ->
  exists p1,
    source p1 = source p /\ index p1 = index p /\ flags p1
      = clearBits (flags p) Flags.LineTerminator
    /\ scanToken context p
       = match scanTokenCase context (Some c) p1 with
         | Ok (Some t) q' => Ok t q'
         | Ok None q' => scanTokenLoop (length (source p)) context q'
         | Throw e ps q' => Throw e ps q'
         | TypeError q' => TypeError q'
         | OutOfFuel => OutOfFuel
         end.
Proof.
  intros Hsrc Hidx. unfold scanToken.
  cbv beta iota delta [bind gets get modify pure].
  set (p0 := set_endLine _ _).
  assert (Hn : hasNext p0 = true /\ nextChar p0 = Some c)
    by (apply (hasNext_middle p0 pre c rest); [exact Hsrc | exact Hidx]).
  destruct Hn as [Hn Hc].
  change (fuelOf p0) with (S (length (source p))).
  rewrite scanTokenLoop_S, Hn, Hc. change (negb true) with false. cbv iota.
  eexists. split; [| split; [| split; [| reflexivity]]]; reflexivity.
Qed.

(** X20: without the [jsx] option, a [<] that a slash follows does not
    scan as [LessThan]: the arm of [<] falls into the arm of [-], which
    skips the slash, so that the two code units scan as the token
    [Subtract] when neither [-] nor [=] comes next. *)
Theorem less_than_slash_scans_as_subtract (context : Z) (p : Parser)
    (pre rest : JSString) (c : Z) :
  source p = pre ++ Chars.LessThan :: Chars.Slash :: c :: rest ->
  index p = jslength pre ->
  has (flags p) Flags.OptionsJSX = false ->
  c <> Chars.Hyphen -> c <> Chars.EqualSign ->
  exists q, scanToken context p = Ok Subtract q
            /\ index q = index p + 2.
Proof.
  intros Hsrc Hidx Hjsx Hh He.
  destruct (scanToken_first context p pre Chars.LessThan _ Hsrc Hidx)
    as (p1 & Hs1 & Hi1 & Hf1 & ->).
  change (scanTokenCase context (Some Chars.LessThan) p1)
    with (scanLessThan context p1).
  set (p2 := movedBy 1 p1).
  assert (Hjsx2 : has (flags p2) Flags.OptionsJSX = false).
  { change (flags p2) with (flags p1). rewrite Hf1. unfold has, clearBits in *.
    apply negb_false_iff in Hjsx. apply Z.eqb_eq in Hjsx.
    apply negb_false_iff. apply Z.eqb_eq.
    rewrite <- Z.land_assoc, (Z.land_comm (Z.lnot _)), Z.land_assoc, Hjsx.
    apply Z.land_0_l. }
  assert (Hn2 : nextChar p2 = Some Chars.Slash).
  { unfold nextChar. change (source p2) with (source p1).
    change (index p2) with (index p1 + 1).
    rewrite Hs1, Hi1, Hidx, Hsrc.
    replace (jslength pre + 1) with (jslength (pre ++ [Chars.LessThan]))
      by (unfold jslength; rewrite length_app; simpl; lia).
    change (pre ++ Chars.LessThan :: Chars.Slash :: c :: rest)
      with (pre ++ [Chars.LessThan] ++ Chars.Slash :: c :: rest).
    rewrite app_assoc. apply charCodeAt_middle. }
  assert (Hn3 : nextChar (movedBy 1 p2) = Some c).
  { unfold nextChar. change (source (movedBy 1 p2)) with (source p1).
    change (index (movedBy 1 p2)) with (index p1 + 1 + 1).
    rewrite Hs1, Hi1, Hidx, Hsrc.
    replace (jslength pre + 1 + 1)
      with (jslength (pre ++ [Chars.LessThan; Chars.Slash]))
      by (unfold jslength; rewrite length_app; simpl; lia).
    change (pre ++ Chars.LessThan :: Chars.Slash :: c :: rest)
      with (pre ++ [Chars.LessThan; Chars.Slash] ++ c :: rest).
    rewrite app_assoc. apply charCodeAt_middle. }
  assert (Hhtml : consumeHTMLOpen context p2 = Ok false p2).
  { unfold consumeHTMLOpen, consume.
    destruct (has context Context.Module); [reflexivity |].
    cbv beta iota delta [bind gets get modify pure]. rewrite Hn2.
    reflexivity. }
  unfold scanLessThan. cbv beta iota delta [bind gets get modify pure].
  change (advance p1) with (Ok tt p2). cbv beta iota.
  rewrite Hhtml. cbv beta iota. rewrite Hn2.
  change (eqn (Some Chars.Slash) Chars.LessThan) with false.
  change (eqn (Some Chars.Slash) Chars.EqualSign) with false.
  change (eqn (Some Chars.Slash) Chars.Slash) with true.
  cbv beta iota. rewrite Hjsx2. change (negb false) with true. cbv beta iota.
  unfold scanHyphen, returns. cbv beta iota delta [bind gets get modify pure].
  change (advance p2) with (Ok tt (movedBy 1 p2)). cbv beta iota.
  rewrite Hn3. unfold eqn.
  rewrite (proj2 (Z.eqb_neq c _) Hh), (proj2 (Z.eqb_neq c _) He).
  eexists. split; [reflexivity |]. simpl. lia.
Qed.

(** X21: outside module code, the test for [<!--] keeps what it has
    consumed when it fails.  After [<], an exclamation mark, or an
    exclamation mark and one hyphen, before a code unit that is no hyphen
    is skipped, and that code unit decides the token as if it came right
    after the [<]: [LessThanOrEqual] with the cursor after it when it is
    [=], and [LessThan] with the cursor on it when it is any other code
    unit but [<] and [/], the two cases that are left out here. *)
Theorem html_comment_test_swallows (context : Z) (p : Parser)
    (pre skipped rest : JSString) (c : Z) :
  source p = pre ++ (Chars.LessThan :: skipped) ++ c :: rest ->
  index p = jslength pre ->
  has context Context.Module = false ->
  skipped = [Chars.Exclamation]
  \/ skipped = [Chars.Exclamation; Chars.Hyphen] ->
  c <> Chars.Hyphen -> c <> Chars.LessThan -> c <> Chars.Slash ->
  exists q,
    scanToken context p
    = Ok (if c =? Chars.EqualSign then LessThanOrEqual else LessThan) q
    /\ index q
       = index p + 1 + jslength skipped
         + (if c =? Chars.EqualSign then 1 else 0).
Proof.
  intros Hsrc Hidx Hmod Hskip Hh Hl Hs.
  assert (Hsrc0 : source p
                  = pre ++ Chars.LessThan :: (skipped ++ c :: rest))
    by (rewrite Hsrc; reflexivity).
  destruct (scanToken_first context p pre Chars.LessThan _ Hsrc0 Hidx)
    as (p1 & Hs1 & Hi1 & Hf1 & ->).
  change (scanTokenCase context (Some Chars.LessThan) p1)
    with (scanLessThan context p1).
  set (p2 := movedBy 1 p1).
  assert (Hat : forall k t u,
            skipped ++ c :: rest = t ++ u -> k = jslength t ->
            nextChar (movedBy k p2) = head u).
  { intros k t u Ht ->. unfold nextChar.
    change (source (movedBy (jslength t) p2)) with (source p1).
    change (index (movedBy (jslength t) p2))
      with (index p1 + 1 + jslength t).
    rewrite Hs1, Hi1, Hidx, Hsrc0, Ht.
    replace (jslength pre + 1 + jslength t)
      with (jslength ((pre ++ [Chars.LessThan]) ++ t))
      by (unfold jslength; rewrite !length_app; simpl; lia).
    replace (pre ++ Chars.LessThan :: t ++ u)
      with (((pre ++ [Chars.LessThan]) ++ t) ++ u)
      by (rewrite <- !app_assoc; reflexivity).
    destruct u as [| x u].
    - rewrite app_nil_r. apply charCodeAt_end.
    - apply charCodeAt_middle. }
  assert (Hc : eqn (Some c) Chars.Hyphen = false)
    by (apply Z.eqb_neq; exact Hh).
  assert (Hhtml : consumeHTMLOpen context p2
                  = Ok false (movedBy (jslength skipped) p2)
                  /\ nextChar (movedBy (jslength skipped) p2) = Some c).
  { unfold consumeHTMLOpen, consume, advance. rewrite Hmod.
    cbv beta iota delta [bind gets get modify pure].
    pose proof (Hat 0 [] (skipped ++ c :: rest) eq_refl eq_refl) as Hn0.
    rewrite movedBy_0 in Hn0. rewrite Hn0.
    destruct Hskip as [-> | ->].
    - change ([Chars.Exclamation] ++ c :: rest)
        with (Chars.Exclamation :: c :: rest) in *.
      change (eqn (head (Chars.Exclamation :: c :: rest)) Chars.Exclamation)
        with true.
      change (negb true) with false. cbv beta iota.
      change (negb true) with false. cbv beta iota.
      change (set_column (column p2 + 1) (set_index (index p2 + 1) p2))
        with (movedBy 1 p2).
      rewrite (Hat 1 [Chars.Exclamation] (c :: rest) eq_refl eq_refl).
      change (head (c :: rest)) with (Some c). rewrite Hc.
      split; [reflexivity |].
      apply (Hat _ [Chars.Exclamation] (c :: rest) eq_refl eq_refl).
    - change ([Chars.Exclamation; Chars.Hyphen] ++ c :: rest)
        with (Chars.Exclamation :: Chars.Hyphen :: c :: rest) in *.
      change (eqn (head (Chars.Exclamation :: Chars.Hyphen :: c :: rest))
                Chars.Exclamation) with true.
      change (negb true) with false. cbv beta iota.
      change (negb true) with false. cbv beta iota.
      change (set_column (column p2 + 1) (set_index (index p2 + 1) p2))
        with (movedBy 1 p2).
      rewrite (Hat 1 [Chars.Exclamation] (Chars.Hyphen :: c :: rest)
                 eq_refl eq_refl).
      change (eqn (head (Chars.Hyphen :: c :: rest)) Chars.Hyphen) with true.
      change (negb true) with false. cbv beta iota.
      change (negb true) with false. cbv beta iota.
      change (set_column (column (movedBy 1 p2) + 1)
                (set_index (index (movedBy 1 p2) + 1) (movedBy 1 p2)))
        with (movedBy 1 (movedBy 1 p2)).
      rewrite movedBy_add. change (1 + 1) with 2.
      rewrite (Hat 2 [Chars.Exclamation; Chars.Hyphen] (c :: rest)
                 eq_refl eq_refl).
      change (head (c :: rest)) with (Some c). rewrite Hc.
      split; [reflexivity |].
      apply (Hat _ [Chars.Exclamation; Chars.Hyphen] (c :: rest)
               eq_refl eq_refl). }
  destruct Hhtml as [Hhtml Hn].
  unfold scanLessThan, returns, advance.
  cbv beta iota delta [bind gets get modify pure].
  change (set_column (column p1 + 1) (set_index (index p1 + 1) p1)) with p2.
  rewrite Hhtml. cbv beta iota. rewrite Hn. unfold eqn.
  rewrite (proj2 (Z.eqb_neq c _) Hl).
  destruct (Z.eqb_spec c Chars.EqualSign) as [-> | He].
  - eexists. split; [reflexivity |]. simpl. lia.
  - rewrite (proj2 (Z.eqb_neq c _) Hs).
    eexists. split; [reflexivity |]. simpl. lia.
Qed.

End LessThanArm.

Lemma less_than_slash_scans_as_subtract_witness :
  exists q, @scanToken Example.imports Context.None
              (atIndex 2 (script "a </ b")) = Ok Subtract q
            /\ index q = 2 + 2.
Proof.
  refine (@less_than_slash_scans_as_subtract Example.imports Context.None
            (atIndex 2 (script "a </ b")) (units "a ") (units "b") 32
            eq_refl eq_refl eq_refl _ _); discriminate.
Defined.

Lemma html_comment_test_swallows_witness :
  (exists q, @scanToken Example.imports Context.None
               (atIndex 2 (script "a <!b")) = Ok LessThan q
             /\ index q = 4)
  /\ (exists q, @scanToken Example.imports Context.None
                  (atIndex 2 (script "a <!-b")) = Ok LessThan q
                /\ index q = 5)
  /\ (exists q, @scanToken Example.imports Context.None
                  (atIndex 2 (script "a <!=b")) = Ok LessThanOrEqual q
                /\ index q = 5).
Proof.
  split; [| split].
  - refine (@html_comment_test_swallows Example.imports Context.None
              (atIndex 2 (script "a <!b")) (units "a ") [Chars.Exclamation]
              [] 98 eq_refl eq_refl eq_refl _ _ _ _);
      first [now left | discriminate].
  - refine (@html_comment_test_swallows Example.imports Context.None
              (atIndex 2 (script "a <!-b")) (units "a ")
              [Chars.Exclamation; Chars.Hyphen] [] 98
              eq_refl eq_refl eq_refl _ _ _ _);
      first [now right | discriminate].
  - refine (@html_comment_test_swallows Example.imports Context.None
              (atIndex 2 (script "a <!=b")) (units "a ") [Chars.Exclamation]
              (units "b") 61 eq_refl eq_refl eq_refl _ _ _ _);
      first [now left | discriminate].
Defined.

Create HintDb goes.

Section ScannerProgress.
Context `{Imports}.

Lemma outcome_modify_state (f : Parser -> Parser)
    (Q : unit -> Parser -> Prop) E p :
  (forall q, q = f p -> Q tt q) -> outcome (modify f) Q E p.
Proof. intros HQ. apply outcome_modify. now apply HQ. Qed.

Lemma hasNext_true (p : Parser) :
  hasNext p = true -> index p < jslength (source p).
Proof. apply Z.ltb_lt. Qed.

Lemma hasNext_false (p : Parser) :
  hasNext p = false -> jslength (source p) <= index p.
Proof. apply Z.ltb_ge. Qed.

Lemma enoughFuel_fuelOf (p : Parser) : 0 <= index p -> enoughFuel (fuelOf p) p.
Proof. unfold enoughFuel, fuelOf, jslength. lia. Qed.

Lemma goes_then {A : Type} (j : Z) (m : M A) (Q : A -> Parser -> Prop) p :
  goes j m p ->
  (forall a q, source q = source p -> index p + j <= index q -> Q a q) ->
  outcome m Q (fun _ _ _ => True) p.
Proof.
  intros Hm HQ. eapply outcome_weaken; [exact Hm |].
  intros a q [Hs Hi]. now apply HQ.
Qed.

Lemma armGoes_then (m : M (option Token))
    (Q : option Token -> Parser -> Prop) p :
  armGoes m p ->
  (forall a q, source q = source p -> index p <= index q ->
     (a = None -> index p < index q) -> Q a q) ->
  outcome m Q (fun _ _ _ => True) p.
Proof.
  intros Hm HQ. eapply outcome_weaken; [exact Hm |].
  intros a q (Hs & Hi & Hn). now apply HQ.
Qed.

(** Facts on a state that the tactics keep: its source and its cursor. *)
Ltac go_facts :=
  repeat match goal with
  | E : negb _ = true |- _ => apply negb_true_iff in E
  | E : negb _ = false |- _ => apply negb_false_iff in E
  | E : (_ && _) = true |- _ => apply andb_prop in E; destruct E
  | E : hasNext _ = true |- _ => apply hasNext_true in E
  | E : hasNext _ = false |- _ => apply hasNext_false in E
  | E : (_ <? _) = true |- _ => apply Z.ltb_lt in E
  | E : (_ <? _) = false |- _ => apply Z.ltb_ge in E
  | E : (_ =? _) = true |- _ => apply Z.eqb_eq in E
  | E : (_ <=? _) = true |- _ => apply Z.leb_le in E
  | E : (_ <=? _) = false |- _ => apply Z.leb_gt in E
  | Hn : ?x = ?x -> _ |- _ => specialize (Hn eq_refl)
  | Hn : Some _ = None -> _ |- _ => clear Hn
  | Hn : ?a = None -> _, Ha : ?a = None |- _ => specialize (Hn Ha)
  | E : source ?q = source ?p |- _ =>
      lazymatch goal with
      | _ : jslength (source q) = jslength (source p) |- _ => fail
      | _ => pose proof (f_equal jslength E)
      end
  end.

Ltac go_done :=
  go_facts; unfold enoughFuel, fuelOf, jslength in *; simpl in *;
  repeat split; intros; go_facts;
  first [congruence | lia | discriminate | exact I].

Ltac go_modify :=
  apply outcome_modify_state;
  let q := fresh "q" in
  let Hq := fresh "Hq" in
  intros q Hq;
  let Hs := fresh "Hs" in
  let Hi := fresh "Hi" in
  pose proof (f_equal source Hq) as Hs;
  pose proof (f_equal index Hq) as Hi;
  simpl in Hs, Hi; clear Hq.

Ltac go_leaf :=
  first
  [ eapply goes_then;
    [ first [ solve [eauto with goes]
            | match goal with
              | IH : forall _, _ |- _ => eapply IH; go_done
              end ]
    | cbv beta;
      let a := fresh "a" in
      let q := fresh "q" in
      let Hs := fresh "Hs" in
      let Hi := fresh "Hi" in
      intros a q Hs Hi ]
  | eapply armGoes_then;
    [ solve [eauto with goes]
    | cbv beta;
      let a := fresh "a" in
      let q := fresh "q" in
      let Hs := fresh "Hs" in
      let Hi := fresh "Hi" in
      let Hn := fresh "Hn" in
      intros a q Hs Hi Hn ] ].

Ltac go_step :=
  cbv beta zeta;
  lazymatch goal with
  | |- outcome (bind _ _) _ _ _ => apply outcome_bind
  | |- outcome (pure _) _ _ _ =>
      apply outcome_pure; cbv beta;
      lazymatch goal with
      | |- outcome _ _ _ _ => idtac
      | |- _ => go_done
      end
  | |- outcome (gets _) _ _ _ => apply outcome_gets
  | |- outcome get _ _ _ => apply outcome_get
  | |- outcome (error _ _) _ _ _ => apply outcome_error; exact I
  | |- outcome (errorIf _ _ _) _ _ _ =>
      apply outcome_errorIf; [intros _; exact I | intros ?]
  | |- outcome outOfFuel _ _ _ => exfalso; go_done
  | |- outcome (modify _) _ _ _ => go_modify
  | |- outcome (if ?b then _ else _) _ _ _ => destruct b eqn:?
  | |- outcome (match ?x with _ => _ end) _ _ _ => destruct x eqn:?
  | |- outcome (let (_, _) := ?x in _) _ _ _ => destruct x eqn:?
  | |- outcome (fun q => @?m q) ?Q ?E ?p =>
      let mp := eval cbv beta in (m p) in
      lazymatch mp with
      | ?g p => change (outcome g Q E p)
      end
  | |- outcome _ _ _ _ => go_leaf
  | |- _ => go_done
  end.

Ltac go := repeat go_step.

#[local] Hint Extern 2 (_ <= _) => solve [go_done] : goes.
#[local] Hint Extern 2 (enoughFuel _ _) => solve [go_done] : goes.

Lemma advance_goes (p : Parser) : goes 1 advance p.
Proof. unfold goes, advance. go. Qed.

Lemma advanceTwice_goes (p : Parser) : goes 2 advanceTwice p.
Proof. unfold goes, advanceTwice. go. Qed.

Lemma advanceNewline_goes (p : Parser) : goes 1 advanceNewline p.
Proof. unfold goes, advanceNewline. go. Qed.

Lemma incrIndex_goes (p : Parser) : goes 1 incrIndex p.
Proof. unfold goes, incrIndex. go. Qed.

#[local] Hint Resolve advance_goes advanceTwice_goes advanceNewline_goes
  incrIndex_goes : goes.

Lemma consume_goes (code : Z) (p : Parser) : goes 0 (consume code) p.
Proof. unfold goes, consume. go. Qed.

Lemma collectComment_goes type value start end_ (p : Parser) :
  goes 0 (collectComment type value start end_) p.
Proof.
  unfold goes, collectComment. apply outcome_modify.
  destruct p as [? ? ? ? ? ? ? ? ? ? ? ? ? ? ? ? ? ? ? c ? ?].
  destruct c as [[] |]; simpl; split; try reflexivity; lia.
Qed.

Lemma newlineThenLineFeed_goes (p : Parser) : goes 1 newlineThenLineFeed p.
Proof. unfold goes, newlineThenLineFeed. go. Qed.

#[local] Hint Resolve consume_goes collectComment_goes
  newlineThenLineFeed_goes : goes.

Lemma skipShebangCommentLoop_goes (fuel : nat) :
  forall  (p : Parser),
    0 <= index p -> enoughFuel fuel p ->
    goes 0 (skipShebangCommentLoop fuel ) p.
Proof.
  induction fuel as [| fuel IH]; intros  p H0 Hf; unfold goes; simpl; go.
Qed.

#[local] Hint Resolve skipShebangCommentLoop_goes : goes.

Lemma skipShebangComment_goes  (p : Parser) :
  0 <= index p -> goes 0 (skipShebangComment ) p.
Proof. intros H0. unfold goes, skipShebangComment. go. Qed.

#[local] Hint Resolve skipShebangComment_goes : goes.

Lemma skipSingleLineCommentLoop_goes (fuel : nat) :
  forall  (p : Parser),
    0 <= index p -> enoughFuel fuel p ->
    goes 0 (skipSingleLineCommentLoop fuel ) p.
Proof.
  induction fuel as [| fuel IH]; intros  p H0 Hf; unfold goes; simpl; go.
Qed.

#[local] Hint Resolve skipSingleLineCommentLoop_goes : goes.

Lemma skipSingleLineComment_goes (offset : Z) (p : Parser) :
  0 <= index p -> goes 0 (skipSingleLineComment offset) p.
Proof. intros H0. unfold goes, skipSingleLineComment. go. Qed.

#[local] Hint Resolve skipSingleLineComment_goes : goes.

Lemma skipMultiLineCommentLoop_goes (fuel : nat) :
  forall  (p : Parser),
    0 <= index p -> enoughFuel fuel p ->
    goes 0 (skipMultiLineCommentLoop fuel ) p.
Proof.
  induction fuel as [| fuel IH]; intros  p H0 Hf; unfold goes; simpl; go.
Qed.

#[local] Hint Resolve skipMultiLineCommentLoop_goes : goes.

Lemma skipMultiLineComment_goes  (p : Parser) :
  0 <= index p -> goes 0 (skipMultiLineComment ) p.
Proof. intros H0. unfold goes, skipMultiLineComment. go. Qed.

#[local] Hint Resolve skipMultiLineComment_goes : goes.

Lemma peekBracedEscapeLoop_goes (fuel : nat) :
  forall (ch : num) (code : Z) (p : Parser),
    0 <= index p -> enoughFuel fuel p ->
    goes 0 (peekBracedEscapeLoop fuel ch code) p.
Proof.
  induction fuel as [| fuel IH]; intros ch code p H0 Hf; unfold goes; simpl; go.
Qed.

#[local] Hint Resolve peekBracedEscapeLoop_goes : goes.

Lemma peekHexDigits_goes (n : nat) :
  forall (ch : num) (code : Z) (p : Parser),
    0 <= index p -> goes 0 (peekHexDigits n ch code) p.
Proof.
  induction n as [| n IH]; intros ch code p H0; unfold goes; simpl; go.
Qed.

#[local] Hint Resolve peekHexDigits_goes : goes.

Lemma peekExtendedUnicodeEscape_goes  (p : Parser) :
  0 <= index p -> goes 1 (peekExtendedUnicodeEscape ) p.
Proof. intros H0. unfold goes, peekExtendedUnicodeEscape. go. Qed.

#[local] Hint Resolve peekExtendedUnicodeEscape_goes : goes.

Lemma peekUnicodeEscape_goes  (p : Parser) :
  0 <= index p -> goes 1 (peekUnicodeEscape ) p.
Proof. intros H0. unfold goes, peekUnicodeEscape. go. Qed.

#[local] Hint Resolve peekUnicodeEscape_goes : goes.

Lemma scanIdentifierLoop_goes (fuel : nat) :
  forall (start : Z) (ret : JSString) (p : Parser),
    0 <= index p -> enoughFuel fuel p ->
    goes 0 (scanIdentifierLoop fuel start ret) p.
Proof.
  induction fuel as [| fuel IH]; intros start ret p H0 Hf; unfold goes; simpl; go.
Qed.

#[local] Hint Resolve scanIdentifierLoop_goes : goes.

Lemma scanIdentifier_goes (context : Z) (p : Parser) :
  0 <= index p -> goes 0 (scanIdentifier context) p.
Proof. intros H0. unfold goes, scanIdentifier. go. Qed.

#[local] Hint Resolve scanIdentifier_goes : goes.

Lemma scanOctalEscapeLow_goes (context : Z) (cp : Z) (p : Parser) :
  0 <= index p -> goes 0 (scanOctalEscapeLow context cp) p.
Proof. intros H0. unfold goes, scanOctalEscapeLow. go. Qed.

#[local] Hint Resolve scanOctalEscapeLow_goes : goes.

Lemma scanOctalEscapeHigh_goes (context : Z) (cp : Z) (p : Parser) :
  0 <= index p -> goes 0 (scanOctalEscapeHigh context cp) p.
Proof. intros H0. unfold goes, scanOctalEscapeHigh. go. Qed.

#[local] Hint Resolve scanOctalEscapeHigh_goes : goes.

Lemma scanHexEscape_goes  (p : Parser) :
  0 <= index p -> goes 1 (scanHexEscape ) p.
Proof. intros H0. unfold goes, scanHexEscape. go. Qed.

#[local] Hint Resolve scanHexEscape_goes : goes.

Lemma scanStringEscape_goes (context : Z) (p : Parser) :
  0 <= index p -> goes 1 (scanStringEscape context) p.
Proof. intros H0. unfold goes, scanStringEscape. go. Qed.

#[local] Hint Resolve scanStringEscape_goes : goes.

Lemma scanStringLoop_goes (fuel : nat) :
  forall (context : Z) (quote : num) (start : Z) (ret : JSString) (ch : num) (p : Parser),
    0 <= index p -> enoughFuel fuel p ->
    goes 0 (scanStringLoop fuel context quote start ret ch) p.
Proof.
  induction fuel as [| fuel IH]; intros context quote start ret ch p H0 Hf; unfold goes; simpl; go.
Qed.

#[local] Hint Resolve scanStringLoop_goes : goes.

Lemma scanString_goes (context : Z) (quote : num) (p : Parser) :
  0 <= index p -> goes 1 (scanString context quote) p.
Proof. intros H0. unfold goes, scanString. go. Qed.

#[local] Hint Resolve scanString_goes : goes.

Lemma scanTemplateLoop_goes (fuel : nat) :
  forall (context : Z) (ret : JSString) (ch : num) (p : Parser),
    0 <= index p -> enoughFuel fuel p ->
    goes 0 (scanTemplateLoop fuel context ret ch) p.
Proof.
  induction fuel as [| fuel IH]; intros context ret ch p H0 Hf; unfold goes; simpl; go.
Qed.

#[local] Hint Resolve scanTemplateLoop_goes : goes.

Lemma scanTemplate_goes (context : Z) (p : Parser) :
  0 <= index p -> goes 1 (scanTemplate context) p.
Proof. intros H0. unfold goes, scanTemplate. go. Qed.

#[local] Hint Resolve scanTemplate_goes : goes.

Lemma scanBigInt_goes  (p : Parser) :
  0 <= index p -> goes 1 (scanBigInt ) p.
Proof. intros H0. unfold goes, scanBigInt. go. Qed.

#[local] Hint Resolve scanBigInt_goes : goes.

Lemma scanNumberLiteralLoop_goes (fuel : nat) :
  forall (ch : num) (code : float) (p : Parser),
    0 <= index p -> enoughFuel fuel p ->
    goes 0 (scanNumberLiteralLoop fuel ch code) p.
Proof.
  induction fuel as [| fuel IH]; intros ch code p H0 Hf; unfold goes; simpl; go.
Qed.

#[local] Hint Resolve scanNumberLiteralLoop_goes : goes.

Lemma scanNumberLiteral_goes (context : Z) (p : Parser) :
  0 <= index p -> goes 1 (scanNumberLiteral context) p.
Proof. intros H0. unfold goes, scanNumberLiteral. go. Qed.

#[local] Hint Resolve scanNumberLiteral_goes : goes.

Lemma scanOctalDigitsLoop_goes (fuel : nat) :
  forall (ch : num) (code : Z) (p : Parser),
    0 <= index p -> enoughFuel fuel p ->
    goes 0 (scanOctalDigitsLoop fuel ch code) p.
Proof.
  induction fuel as [| fuel IH]; intros ch code p H0 Hf; unfold goes; simpl; go.
Qed.

#[local] Hint Resolve scanOctalDigitsLoop_goes : goes.

Lemma scanOctalDigits_goes (context : Z) (p : Parser) :
  0 <= index p -> goes 2 (scanOctalDigits context) p.
Proof. intros H0. unfold goes, scanOctalDigits. go. Qed.

#[local] Hint Resolve scanOctalDigits_goes : goes.

Lemma scanHexadecimalDigitLoop_goes (fuel : nat) :
  forall (ch : num) (code : Z) (p : Parser),
    0 <= index p -> enoughFuel fuel p ->
    goes 0 (scanHexadecimalDigitLoop fuel ch code) p.
Proof.
  induction fuel as [| fuel IH]; intros ch code p H0 Hf; unfold goes; simpl; go.
Qed.

#[local] Hint Resolve scanHexadecimalDigitLoop_goes : goes.

Lemma scanHexadecimalDigit_goes  (p : Parser) :
  0 <= index p -> goes 2 (scanHexadecimalDigit ) p.
Proof. intros H0. unfold goes, scanHexadecimalDigit. go. Qed.

#[local] Hint Resolve scanHexadecimalDigit_goes : goes.

Lemma scanBinaryDigitsLoop_goes (fuel : nat) :
  forall (ch : num) (code : Z) (p : Parser),
    0 <= index p -> enoughFuel fuel p ->
    goes 0 (scanBinaryDigitsLoop fuel ch code) p.
Proof.
  induction fuel as [| fuel IH]; intros ch code p H0 Hf; unfold goes; simpl; go.
Qed.

#[local] Hint Resolve scanBinaryDigitsLoop_goes : goes.

Lemma scanBinaryDigits_goes (context : Z) (p : Parser) :
  0 <= index p -> goes 2 (scanBinaryDigits context) p.
Proof. intros H0. unfold goes, scanBinaryDigits. go. Qed.

#[local] Hint Resolve scanBinaryDigits_goes : goes.

Lemma skipDigitsLoop_goes (fuel : nat) :
  forall  (p : Parser),
    0 <= index p -> enoughFuel fuel p ->
    goes 0 (skipDigitsLoop fuel ) p.
Proof.
  induction fuel as [| fuel IH]; intros  p H0 Hf; unfold goes; simpl; go.
Qed.

#[local] Hint Resolve skipDigitsLoop_goes : goes.

Lemma skipDigits_goes  (p : Parser) :
  0 <= index p -> goes 0 (skipDigits ) p.
Proof. intros H0. unfold goes, skipDigits. go. Qed.

#[local] Hint Resolve skipDigits_goes : goes.

Lemma scanExponent_goes (state end_ : Z) (p : Parser) :
  0 <= index p -> goes 1 (scanExponent state end_) p.
Proof. intros H0. unfold goes, scanExponent. go. Qed.

#[local] Hint Resolve scanExponent_goes : goes.

Lemma scanNumber_goes (context : Z) (ch : num) (p : Parser) :
  0 <= index p -> goes 0 (scanNumber context ch) p.
Proof. intros H0. unfold goes, scanNumber. go. Qed.

#[local] Hint Resolve scanNumber_goes : goes.

Lemma scanHyphen_goes (context : Z) (p : Parser) :
  0 <= index p -> armGoes (scanHyphen context) p.
Proof. intros H0. unfold armGoes, scanHyphen, returns, continue. go. Qed.
#[local] Hint Resolve scanHyphen_goes : goes.

Lemma consumeHTMLOpen_goes (context : Z) (p : Parser) :
  0 <= index p -> goes 0 (consumeHTMLOpen context) p.
Proof. intros H0. unfold goes, consumeHTMLOpen. go. Qed.
#[local] Hint Resolve consumeHTMLOpen_goes : goes.

Lemma scanLessThan_goes (context : Z) (p : Parser) :
  0 <= index p -> armGoes (scanLessThan context) p.
Proof. intros H0. unfold armGoes, scanLessThan, returns, continue. go. Qed.
#[local] Hint Resolve scanLessThan_goes : goes.

Lemma scanPeriod_goes (context : Z) (first : num) (p : Parser) :
  0 <= index p -> armGoes (scanPeriod context first) p.
Proof. intros H0. unfold armGoes, scanPeriod, returns, continue. go. Qed.
#[local] Hint Resolve scanPeriod_goes : goes.

Lemma scanZero_goes (context : Z) (first : num) (p : Parser) :
  0 <= index p -> goes 0 (scanZero context first) p.
Proof. intros H0. unfold goes, scanZero. go. Qed.
#[local] Hint Resolve scanZero_goes : goes.

Lemma scanTokenCase_goes (context : Z) (first : num) (p : Parser) :
  0 <= index p -> armGoes (scanTokenCase context first) p.
Proof.
  intros H0. unfold armGoes, scanTokenCase, lift, returns, continue. go.
Qed.
#[local] Hint Resolve scanTokenCase_goes : goes.

Lemma scanTokenLoop_goes (fuel : nat) :
  forall (context : Z) (p : Parser),
    0 <= index p -> enoughFuel fuel p ->
    goes 0 (scanTokenLoop fuel context) p.
Proof.
  induction fuel as [| fuel IH]; intros context p H0 Hf; unfold goes; simpl; go.
Qed.
#[local] Hint Resolve scanTokenLoop_goes : goes.

Lemma scanToken_goes (context : Z) (p : Parser) :
  0 <= index p -> goes 0 (scanToken context) p.
Proof. intros H0. unfold goes, scanToken. go. Qed.
#[local] Hint Resolve scanToken_goes : goes.

Lemma nextToken_goes (context : Z) (p : Parser) :
  0 <= index p -> goes 0 (nextToken context) p.
Proof. intros H0. unfold goes, nextToken. go. Qed.

Lemma nextUnicodeChar_goes (p : Parser) : goes 1 nextUnicodeChar p.
Proof. unfold goes, nextUnicodeChar. go. Qed.

(** The two loops of [scanRegularExpression] run on the local [index],
    which they move forward to the length of the source at most. *)
Lemma scanRegExpBody_ends (fuel : nat) :
  forall (i st : Z) (p : Parser),
    0 <= i -> (0 < fuel)%nat -> jslength (source p) - i < Z.of_nat fuel ->
    outcome (scanRegExpBody fuel i st)
      (fun r q => source q = source p
                  /\ match r with
                     | inl i' => i <= i'
                     | inr t => t = token p
                     end)
      (fun _ _ _ => True) p.
Proof.
  induction fuel as [| fuel IH]; intros i st p H0 Hf Hl; [lia |].
  assert (Hnext : forall st' q,
            source q = source p -> token q = token p ->
            outcome
              (errorIf (jslength (source p) <=? i + 1) UnterminatedRegExp [] ;;
               scanRegExpBody fuel (i + 1) st')
              (fun r q' => source q' = source p
                           /\ match r with
                              | inl i' => i <= i'
                              | inr t => t = token p
                              end)
              (fun _ _ _ => True) q).
  { intros st' q Hs Ht. apply outcome_bind, outcome_errorIf; [trivial |].
    intros Hlen. apply Z.leb_gt in Hlen.
    eapply outcome_weaken.
    - apply IH; [lia | lia | rewrite Hs; lia].
    - cbv beta. intros r q' [Hs' Hr]. split; [congruence |].
      destruct r; [lia | congruence]. }
  simpl. apply outcome_bind, outcome_get. apply outcome_bind, outcome_modify.
  set (q := set_column (column p + 1) p).
  assert (Hs : source q = source p) by reflexivity.
  assert (Ht : token q = token p) by reflexivity.
  cbv beta zeta.
  repeat match goal with
  | |- outcome (if ?b then _ else _) _ _ _ => destruct b
  | |- outcome (bind (errorIf _ _ _) _) _ _ _ => apply Hnext; assumption
  | |- outcome (pure _) _ _ _ => apply outcome_pure; split; [assumption | lia]
  end.
  apply outcome_bind, outcome_modify, outcome_bind, outcome_gets,
    outcome_pure.
  split; reflexivity.
Qed.

Lemma scanRegExpFlags_ends (fuel : nat) :
  forall (i mask : Z) (p : Parser),
    0 <= i -> (0 < fuel)%nat -> jslength (source p) - i < Z.of_nat fuel ->
    outcome (scanRegExpFlags fuel i mask)
      (fun _ q => source q = source p) (fun _ _ _ => True) p.
Proof.
  induction fuel as [| fuel IH]; intros i mask p H0 Hf Hl; [lia |].
  simpl. apply outcome_bind, outcome_get.
  destruct (i <? jslength (source p)) eqn:Ei;
    [| apply outcome_pure; reflexivity].
  apply Z.ltb_lt in Ei. change (negb true) with false. cbv iota beta zeta.
  assert (Hflag : forall bit name,
            outcome
              (errorIf (has mask bit) DuplicateRegExpFlag [name] ;;
               modify (fun p => set_column (column p + 1) p) ;;
               scanRegExpFlags fuel (i + 1) (setBits mask bit))
              (fun _ q => source q = source p) (fun _ _ _ => True) p).
  { intros bit name.
    apply outcome_bind, outcome_errorIf; [trivial |]. intros _.
    apply outcome_bind, outcome_modify.
    eapply outcome_weaken.
    - apply IH; [lia | lia | simpl; lia].
    - cbv beta. intros _ q' Hs'. exact Hs'. }
  repeat match goal with
  | |- outcome (if ?b then _ else _) _ _ _ => destruct b
  | |- outcome (bind (errorIf _ _ _) _) _ _ _ => apply Hflag
  | |- outcome (pure _) _ _ _ =>
      apply outcome_pure; cbv beta; try (reflexivity || assumption)
  | |- outcome (error _ _) _ _ _ => apply outcome_error; exact I
  | |- outcome nextUnicodeChar _ _ _ =>
      eapply goes_then; [apply nextUnicodeChar_goes | cbv beta; intros]
  | |- outcome (bind (if _ then _ else _) _) _ _ _ => apply outcome_bind
  end.
Qed.

(** X23: [scanRegularExpression] ends from any state whose token starts
    in the source: both its loops stop within the fuel of the length of
    the source.  It returns [RegularExpression], or the token that was
    current, with the source as it was, or it throws. *)
Theorem regexp_scanning_always_ends (p : Parser) :
  0 <= startPos p ->
  (exists t q, scanRegularExpression p = Ok t q
               /\ (t = RegularExpression \/ t = token p)
               /\ source q = source p)
  \/ (exists type params q,
        scanRegularExpression p = Throw type params q).
Proof.
  intros H0.
  assert (Hg : outcome scanRegularExpression
                 (fun t q => (t = RegularExpression \/ t = token p)
                             /\ source q = source p)
                 (fun _ _ _ => True) p).
  { unfold scanRegularExpression. apply outcome_bind, outcome_get.
    cbv beta zeta. apply outcome_bind.
    eapply outcome_weaken.
    - apply (scanRegExpBody_ends (fuelOf p) (startPos p + 1)
               RegExpState.Empty p); unfold fuelOf, jslength; lia.
    - cbv beta. intros [i' | t] q [Hs Hr].
      + apply outcome_bind. eapply outcome_weaken.
        * apply (scanRegExpFlags_ends (fuelOf p) i' RegExpFlag.None q);
            [lia | unfold fuelOf; lia |].
          rewrite Hs. unfold fuelOf, jslength. lia.
        * cbv beta. intros i'' q' Hs'.
          apply outcome_bind, outcome_modify, outcome_bind, outcome_get.
          cbv beta zeta.
          apply outcome_bind, outcome_modify, outcome_bind, outcome_modify.
          apply outcome_bind.
          destruct (has _ Flags.OptionsRaw);
            [apply outcome_modify | apply outcome_pure];
            apply outcome_pure; (split; [now left |]); simpl; congruence.
      + apply outcome_pure. split; [now right | exact Hs]. }
  unfold outcome in Hg.
  destruct (scanRegularExpression p) as [t q | type params q | |].
  - left. exists t, q. split; [reflexivity | exact Hg].
  - right. eauto.
  - contradiction.
  - contradiction.
Qed.

(** X22: from any state whose cursor is not negative, on any source,
    [nextToken] ends: every loop of the scanner stops within the fuel of
    the length of the source.  It returns a token, with the source as it
    was and the cursor not before where it was, or it throws an error of
    the scanner; it never reads a property of [undefined]. *)
Theorem scanning_always_ends (context : Z) (p : Parser) :
  0 <= index p ->
  (exists t q, nextToken context p = Ok t q
               /\ source q = source p /\ index p <= index q)
  \/ (exists type params q, nextToken context p = Throw type params q).
Proof.
  intros H0. pose proof (nextToken_goes context p H0) as Hg.
  unfold goes, outcome in Hg.
  destruct (nextToken context p) as [t q | type params q | |].
  - left. exists t, q. split; [reflexivity |]. split; [tauto | lia].
  - right. eauto.
  - contradiction.
  - contradiction.
Qed.

End ScannerProgress.

Lemma scanning_always_ends_witness :
  let p := atIndex 3 (script "a /* b") in
  (exists t q, @nextToken Example.imports Context.None p = Ok t q
               /\ source q = source p /\ index p <= index q)
  \/ (exists type params q,
        @nextToken Example.imports Context.None p = Throw type params q).
Proof.
  intros p.
  apply (@scanning_always_ends Example.imports Context.None p).
  vm_compute. congruence.
Defined.

Lemma regexp_scanning_always_ends_witness :
  let p := stateAfter (@nextToken Example.imports Context.None)
             (script "/[a/") in
  (exists t q, @scanRegularExpression Example.imports p = Ok t q
               /\ (t = RegularExpression \/ t = token p)
               /\ source q = source p)
  \/ (exists type params q,
        @scanRegularExpression Example.imports p = Throw type params q).
Proof.
  intros p.
  apply (@regexp_scanning_always_ends Example.imports p).
  vm_compute. congruence.
Defined.
